(** * SR&ED time logger: session reconstruction and duration accounting

    A shallow embedding of [sred-time-system/scripts/sred_logger.py]:
    the reading of the log ([get_sred_commits], with [SRED_TAGS] and its
    tag loop),
    the session builder ([build_sessions]), the duration calculator
    ([Session.calculate_duration]) and the total of [generate_time_log].
    Part IV covers more of the file: the fields that the report shows of
    a session ([Session.objective], [Session.outcome],
    [Session.tags_involved]), the split of a line of the log, and the two
    steps of [main] together.

    Modelling choices.
    - A [datetime] is the instant it denotes, in whole seconds since the
      epoch ([Z]); this is the resolution of git's [%aI] format, and aware
      datetimes compare and subtract by instant.
    - A Python [float] is an IEEE 754 binary64 number: [spec_float] with
      [prec = 53] and [emax = 1024], rounded to nearest even by the
      operations of the standard library's [SpecFloat].
    - A [str] is a [string] whose characters are the code points below 256;
      on these [str.lower] moves [A-Z] and the Latin-1 capitals to their
      small letters, and the regex class [\d] is [0-9].
    - [list.sort(key=...)] is stable: an insertion sort that keeps the
      order of equal keys.
    - [datetime.fromisoformat] belongs to Python's library: the
      definitions that call it take it as an argument, a function from
      strings to instants that is [None] where the call raises
      [ValueError]; the exception leaves [get_sred_commits], which is then
      [None] too. *)

From Stdlib Require Import ZArith List String Ascii Bool Arith Lia.
From Stdlib Require Import Permutation Sorted QArith Qpower Qabs.
From Stdlib Require Import DecimalString DecimalNat DecimalFacts.
From Stdlib Require Import Floats.SpecFloat.
From Stdlib Require ListSet.
Import ListNotations.

Local Open Scope string_scope.
Local Open Scope list_scope.
Local Open Scope Z_scope.

(** * Part I: the program *)

(** ** Strings *)

Module Str.

(** [c.lower()] for a code point below 256. *)
Definition lower_char (c : ascii) : ascii :=
  let n := nat_of_ascii c in
  if ((65 <=? n) && (n <=? 90))%nat then ascii_of_nat (n + 32)
  else if ((192 <=? n) && (n <=? 222) && negb (n =? 215))%nat
       then ascii_of_nat (n + 32)
       else c.

(** [s.lower()] *)
Fixpoint lower (s : string) : string :=
  match s with
  | EmptyString => EmptyString
  | String c s' => String (lower_char c) (lower s')
  end.

(** [s.startswith(t)] *)
Definition startswith (s t : string) : bool := String.prefix t s.

(** [s[:n]] *)
Definition take (n : nat) (s : string) : string := String.substring 0 n s.

(** [s[n:]] *)
Fixpoint drop (n : nat) (s : string) : string :=
  match n, s with
  | O, _ => s
  | S _, EmptyString => EmptyString
  | S n', String _ s' => drop n' s'
  end.

(** [x in l] for a list of strings *)
Definition mem (x : string) (l : list string) : bool :=
  existsb (String.eqb x) l.

(** The regex class [\d] on code points below 256. *)
Definition is_digit (c : ascii) : bool :=
  let n := nat_of_ascii c in ((48 <=? n) && (n <=? 57))%nat.

(** [str(n)] for a natural number. *)
Definition decimal (n : nat) : string := NilEmpty.string_of_uint (Nat.to_uint n).

Fixpoint zeros (k : nat) (s : string) : string :=
  match k with
  | O => s
  | S k' => String "0" (zeros k' s)
  end.

(** [f"{n:03d}"]: decimal, padded with zeros on the left to width 3. *)
Definition pad03 (n : nat) : string :=
  let d := decimal n in zeros (3 - String.length d) d.

End Str.

(** ** Binary64 floats *)

Module Float.

Definition prec : Z := 53.
Definition emax : Z := 1024.

Definition float := spec_float.

Definition add : float -> float -> float := SFadd prec emax.
Definition div : float -> float -> float := SFdiv prec emax.

(** [x > y] is [ltb y x]; [x <= y] is [leb x y]. *)
Definition ltb : float -> float -> bool := SFltb.
Definition leb : float -> float -> bool := SFleb.

(** [float(z)] for an integer [z], rounded to nearest even. *)
Definition of_Z (z : Z) : float := binary_normalize prec emax z 0 false.

Definition zero : float := S754_zero false.

(** Nearest integer to [num / den] ([0 < den]), ties to even. *)
Definition round_half_even (num den : Z) : Z :=
  let q := num / den in
  let r := num mod den in
  match 2 * r ?= den with
  | Lt => q
  | Gt => q + 1
  | Eq => if Z.even q then q else q + 1
  end.

(** The integer [n] such that [n / 100] is the decimal with two places
    nearest to [m * 2^e], ties to even. *)
Definition hundredths (m : positive) (e : Z) : Z :=
  if 0 <=? e then Z.pos m * 2 ^ e * 100
  else round_half_even (Z.pos m * 100) (2 ^ (- e)).

(** [round(x, 2)].  CPython prints [x] correctly rounded to two decimal
    places and reads the decimal back correctly rounded, keeping the
    sign; zeros, infinities and NaN round to themselves. *)
Definition round2 (x : float) : float :=
  match x with
  | S754_finite s m e =>
      match hundredths m e with
      | Z.pos n => div (S754_finite s n 0) (of_Z 100)
      | _ => S754_zero s
      end
  | _ => x
  end.

(** The rational a float stands for ([0] for infinities and NaN, which
    [is_finite] tells apart). *)
Definition to_Q (x : float) : Q :=
  match x with
  | S754_finite s m e =>
      let v := (inject_Z (Z.pos m) * Qpower 2 e)%Q in
      if s then Qopp v else v
  | _ => 0%Q
  end.

Definition is_finite (x : float) : bool :=
  match x with
  | S754_finite _ _ _ | S754_zero _ => true
  | _ => false
  end.

End Float.

(** ** Data model *)

(** [SRED_TAGS] *)
Definition SRED_TAGS : list string :=
  ["exp:"; "obs:"; "test:"; "fail:"; "succeed:"; "pivot:"; "stop:"].

(** [MAX_GAP_HOURS = 4.0], [MAX_GAP_CREDIT = 1.0] *)
Definition MAX_GAP_HOURS : Float.float := Float.of_Z 4.
Definition MAX_GAP_CREDIT : Float.float := Float.of_Z 1.

(** [class Commit] *)
Record Commit := mkCommit {
  hash : string;
  timestamp : Z;
  message : string;
  tag : string
}.

Definition is_session_start (c : Commit) : bool :=
  Str.mem (tag c) ["exp:"].

Definition is_session_end (c : Commit) : bool :=
  Str.mem (tag c) ["succeed:"; "pivot:"; "stop:"; "fail:"].

(** [class Session] *)
Record Session := mkSession {
  session_id : string;
  start_commit : Commit;
  end_commit : option Commit;
  intermediate_commits : list Commit
}.

Definition is_complete (s : Session) : bool :=
  match end_commit s with
  | Some _ => true
  | None => false
  end.

(** [Session.hypothesis_id]: [re.search(r'EXP-\d+', message)], the leftmost
    match with the longest run of digits, or ["UNKNOWN"]. *)
Module Regex.

(** The longest run of [\d] at the head of [s] (the greedy [\d*]). *)
Fixpoint digits_prefix (s : string) : string :=
  match s with
  | String c s' => if Str.is_digit c then String c (digits_prefix s') else EmptyString
  | EmptyString => EmptyString
  end.

(** The match of [EXP-\d+] anchored at the head of [s]. *)
Definition match_here (s : string) : option string :=
  if Str.startswith s "EXP-" then
    match digits_prefix (Str.drop 4 s) with
    | EmptyString => None
    | d => Some ("EXP-" ++ d)%string
    end
  else None.

(** [re.search]: the first position, from the left, with a match. *)
Fixpoint search (s : string) : option string :=
  match match_here s with
  | Some m => Some m
  | None =>
      match s with
      | EmptyString => None
      | String _ s' => search s'
      end
  end.

End Regex.

Definition hypothesis_id (s : Session) : string :=
  match Regex.search (message (start_commit s)) with
  | Some m => m
  | None => "UNKNOWN"
  end.

(** ** Commit classifier *)

(** The tag loop of [get_sred_commits]: the first tag of [SRED_TAGS] that
    the lowered message starts with. *)
Definition classify (msg : string) : option string :=
  let msg_lower := Str.lower msg in
  find (fun t => Str.startswith msg_lower t) SRED_TAGS.

(** [commits.sort(key=lambda c: c.timestamp)] *)
Fixpoint insert_by_timestamp (c : Commit) (l : list Commit) : list Commit :=
  match l with
  | [] => [c]
  | h :: t =>
      if timestamp c <=? timestamp h then c :: l
      else h :: insert_by_timestamp c t
  end.

Definition sort_by_timestamp (l : list Commit) : list Commit :=
  fold_right insert_by_timestamp [] l.

(** ** Duration calculator *)

(** [(b.timestamp - a.timestamp).total_seconds() / 3600] *)
Definition gap_hours (a b : Commit) : Float.float :=
  Float.div (Float.of_Z (timestamp b - timestamp a)) (Float.of_Z 3600).

(** The gap protection rule. *)
Definition credited (gap : Float.float) : Float.float :=
  if Float.ltb MAX_GAP_HOURS gap then MAX_GAP_CREDIT else gap.

(** [Session.calculate_duration] *)
Definition calculate_duration (s : Session) : Float.float :=
  match end_commit s with
  | None => Float.zero
  | Some e =>
      let all_commits :=
        sort_by_timestamp ([start_commit s] ++ intermediate_commits s ++ [e]) in
      let at_ i := nth i all_commits e in
      let total_hours :=
        fold_left
          (fun total_hours i =>
             Float.add total_hours (credited (gap_hours (at_ (i - 1)%nat) (at_ i))))
          (seq 1 (List.length all_commits - 1))
          Float.zero in
      Float.round2 total_hours
  end.

(** ** Session builder *)

(** The variables of the loop of [build_sessions]. *)
Record Builder := mkBuilder {
  sessions : list Session;
  current_session : option Session;
  session_counter : nat
}.

(** [f"SESSION-{session_counter:03d}"] *)
Definition new_session_id (session_counter : nat) : string :=
  ("SESSION-" ++ Str.pad03 session_counter)%string.

(** [current_session and not current_session.is_complete]: a session
    object is always true, [None] is false. *)
Definition open_session (b : Builder) : option Session :=
  match current_session b with
  | Some cur => if negb (is_complete cur) then Some cur else None
  | None => None
  end.

(** One turn of the loop [for commit in commits]. *)
Definition step (b : Builder) (commit : Commit) : Builder :=
  if is_session_start commit then
    let sessions' :=
      match open_session b with
      | Some cur => sessions b ++ [cur]
      | None => sessions b
      end in
    mkBuilder sessions'
      (Some (mkSession (new_session_id (session_counter b)) commit None []))
      (S (session_counter b))
  else if is_session_end commit then
    match open_session b with
    | Some cur =>
        let cur' := mkSession (session_id cur) (start_commit cur) (Some commit)
                              (intermediate_commits cur) in
        mkBuilder (sessions b ++ [cur']) None (session_counter b)
    | None =>
        mkBuilder
          (sessions b ++
             [mkSession (new_session_id (session_counter b)) commit (Some commit) []])
          (current_session b)
          (S (session_counter b))
    end
  else
    match current_session b with
    | Some cur =>
        let cur' := mkSession (session_id cur) (start_commit cur) (end_commit cur)
                              (intermediate_commits cur ++ [commit]) in
        mkBuilder (sessions b) (Some cur') (session_counter b)
    | None => b
    end.

Definition initial : Builder := mkBuilder [] None 1.

(** The state after the loop has consumed [commits]. *)
Definition run (commits : list Commit) : Builder :=
  fold_left step commits initial.

(** The last lines of [build_sessions]: add any unclosed session. *)
Definition finish (b : Builder) : list Session :=
  match current_session b with
  | Some cur => sessions b ++ [cur]
  | None => sessions b
  end.

Definition build_sessions (commits : list Commit) : list Session :=
  finish (run commits).

(** ** Total of [generate_time_log]

    [sum(s.calculate_duration() for s in sessions if s.is_complete)].
    [sum] is taken as the language reference defines it: the start value
    [0] and the items added from left to right, each addition rounded
    (CPython 3.12 and later compensate the rounding errors of a float sum;
    that variant is not modelled). *)
Definition total_hours (sessions : list Session) : Float.float :=
  fold_left Float.add
    (map calculate_duration (filter is_complete sessions))
    Float.zero.

(** ** Timeline of [generate_time_log] *)

(** The commits of a session, as [calculate_duration] collects them for a
    Complete session and as the timeline of [generate_time_log] collects
    them for any session, before they are sorted. *)
Definition session_commits (s : Session) : list Commit :=
  [start_commit s] ++ intermediate_commits s
    ++ match end_commit s with Some e => [e] | None => [] end.

(** ** Presentation fields of a session *)

Module Text.

(** The white space of [str.strip()] among the code points below 256. *)
Definition is_space (c : ascii) : bool :=
  let n := nat_of_ascii c in
  ((9 <=? n) && (n <=? 13) || (28 <=? n) && (n <=? 32)
   || (n =? 133) || (n =? 160))%nat.

(** [s.lstrip()] *)
Fixpoint lstrip (s : string) : string :=
  match s with
  | String c s' => if is_space c then lstrip s' else s
  | EmptyString => EmptyString
  end.

(** [s.rstrip()] when [drop] is [is_space], [s.rstrip(':')] when it is the
    test for a colon. *)
Fixpoint rstrip_with (drop : ascii -> bool) (s : string) : string :=
  match s with
  | String c s' =>
      match rstrip_with drop s' with
      | EmptyString => if drop c then EmptyString else String c EmptyString
      | r => String c r
      end
  | EmptyString => EmptyString
  end.

(** [s.strip()] *)
Definition strip (s : string) : string := rstrip_with is_space (lstrip s).

(** The code points of a string. *)
Definition codes (s : string) : list N := map N_of_ascii (list_ascii_of_string s).

(** [c.upper()] for a code point below 256, as code points: the micro sign
    and the y with diaeresis have their capitals above 255, and the sharp s
    becomes two letters. *)
Definition upper_char (c : ascii) : list N :=
  let n := N_of_ascii c in
  (if (97 <=? n) && (n <=? 122) then [n - 32]
   else if n =? 181 then [924]
   else if n =? 223 then [83; 83]
   else if (224 <=? n) && (n <=? 254) && negb (n =? 247) then [n - 32]
   else if n =? 255 then [376]
   else [n])%N.

(** [s.upper()] *)
Definition upper (s : string) : list N :=
  flat_map upper_char (list_ascii_of_string s).

(** [sorted(l)] for a list of strings, which Python compares code point by
    code point. *)
Fixpoint insert_sorted (t : string) (l : list string) : list string :=
  match l with
  | [] => [t]
  | h :: r => if String.ltb h t then h :: insert_sorted t r else t :: l
  end.

Definition sorted (l : list string) : list string :=
  fold_left (fun acc t => insert_sorted t acc) l [].

End Text.

(** [Session.objective] *)
Definition objective (s : Session) : string :=
  let msg := message (start_commit s) in
  let msg :=
    match classify msg with
    | Some t => Text.strip (Str.drop (String.length t) msg)
    | None => msg
    end in
  if (100 <? String.length msg)%nat then (Str.take 100 msg ++ "...")%string else msg.

(** [Session.outcome], as code points. *)
Definition outcome (s : Session) : list N :=
  match end_commit s with
  | None => Text.codes "IN_PROGRESS"
  | Some e => Text.upper (Text.rstrip_with (Ascii.eqb ":") (tag e))
  end.

(** [Session.tags_involved]: the set of the tags, then its elements
    sorted. *)
Definition tags_involved (s : Session) : list string :=
  let tags := ListSet.set_add string_dec (tag (start_commit s)) (ListSet.empty_set string) in
  let tags :=
    fold_left (fun tags c => ListSet.set_add string_dec (tag c) tags)
              (intermediate_commits s) tags in
  let tags :=
    match end_commit s with
    | Some e => ListSet.set_add string_dec (tag e) tags
    | None => tags
    end in
  Text.sorted tags.

(** ** Lines of the log *)

(** [s.partition(sep)] for a separator of one character, when the
    separator is there: what is before its first occurrence and what is
    after. *)
Fixpoint cut (sep : ascii) (s : string) : option (string * string) :=
  match s with
  | EmptyString => None
  | String c s' =>
      if Ascii.eqb c sep then Some (EmptyString, s')
      else match cut sep s' with
           | Some (a, b) => Some (String c a, b)
           | None => None
           end
  end.

(** [s.split(sep, maxsplit)] for a separator of one character. *)
Fixpoint split (sep : ascii) (maxsplit : nat) (s : string) : list string :=
  match maxsplit with
  | O => [s]
  | S n =>
      match cut sep s with
      | Some (a, b) => a :: split sep n b
      | None => [s]
      end
  end.

(** The head of the loop of [get_sred_commits]: a line is split in hash,
    date and subject, and skipped unless it has the three. *)
Definition parse_line (line : string) : option (string * string * string) :=
  if String.eqb line EmptyString then None
  else match split "|" 2 line with
       | [commit_hash; timestamp_str; msg] => Some (commit_hash, timestamp_str, msg)
       | _ => None
       end.

(** [s.split(sep)] for a separator of one character, with no limit on the
    number of pieces. *)
Fixpoint split_all (sep : ascii) (s : string) : list string :=
  match s with
  | EmptyString => [EmptyString]
  | String c s' =>
      if Ascii.eqb c sep then EmptyString :: split_all sep s'
      else match split_all sep s' with
           | h :: t => String c h :: t
           | [] => [String c EmptyString]
           end
  end.

(** [result.stdout.strip().split('\n')] *)
Definition stdout_lines (stdout : string) : list string :=
  split_all "010"%char (Text.strip stdout).

(** [timestamp_str.replace('Z', '+00:00')] *)
Fixpoint replace_Z (s : string) : string :=
  match s with
  | EmptyString => EmptyString
  | String c s' =>
      if Ascii.eqb c "Z"%char then ("+00:00" ++ replace_Z s')%string
      else String c (replace_Z s')
  end.

(** What one turn of the loop of [get_sred_commits] does: it goes on to
    the next line, appends a commit, or raises [ValueError]. *)
Inductive Read := Skipped | Appended (c : Commit) | Raised.

(** The body of the loop of [get_sred_commits].  The date is read only
    when the message has a tag ([if tag:]). *)
Definition read_line (fromisoformat : string -> option Z) (line : string) : Read :=
  match parse_line line with
  | None => Skipped
  | Some (commit_hash, timestamp_str, msg) =>
      match classify msg with
      | None => Skipped
      | Some t =>
          if String.eqb t EmptyString then Skipped
          else
            match fromisoformat (replace_Z timestamp_str) with
            | Some ts => Appended (mkCommit (Str.take 8 commit_hash) ts msg t)
            | None => Raised
            end
      end
  end.

(** The loop [for line in ...] from the list [commits] on: the list at
    the end, or [None] when a turn raises. *)
Fixpoint read_lines (fromisoformat : string -> option Z) (lines : list string)
    (commits : list Commit) : option (list Commit) :=
  match lines with
  | [] => Some commits
  | line :: rest =>
      match read_line fromisoformat line with
      | Skipped => read_lines fromisoformat rest commits
      | Appended c => read_lines fromisoformat rest (commits ++ [c])
      | Raised => None
      end
  end.

(** [get_sred_commits], from the output of [git log] on. *)
Definition get_sred_commits (fromisoformat : string -> option Z) (stdout : string)
    : option (list Commit) :=
  match read_lines fromisoformat (stdout_lines stdout) [] with
  | Some commits => Some (sort_by_timestamp commits)
  | None => None
  end.

(** * Part II: notions used to state the properties *)

(** ** Sessions and states *)

(** The end commits attached to a list of sessions, in order. *)
Definition end_commits (l : list Session) : list Commit :=
  flat_map (fun s => match end_commit s with Some c => [c] | None => [] end) l.

(** What holds of the loop variables after any number of turns: the open
    session has no end commit; the end commits attached so far are the end
    commits consumed so far, each once and in order; the identifiers handed
    out so far are those of the counters [1 .. session_counter - 1], in
    order, each on one session. *)
Record Inv (commits : list Commit) (b : Builder) : Prop := mkInv {
  inv_open : forall cur, current_session b = Some cur -> end_commit cur = None;
  inv_ends : end_commits (finish b) = filter is_session_end commits;
  inv_ids : map session_id (finish b) =
            map new_session_id (seq 1 (session_counter b - 1));
  inv_counter : (1 <= session_counter b)%nat
}.

(** The states the loop of [build_sessions] can be in. *)
Inductive Reachable : Builder -> Prop :=
| Reachable_initial : Reachable initial
| Reachable_step b c : Reachable b -> Reachable (step b c).

(** The number a padded decimal stands for. *)
Definition decimal_value (s : string) : option nat :=
  option_map Nat.of_uint (NilEmpty.uint_of_string s).

(** The counter a session identifier was made from. *)
Definition session_number (s : Session) : option nat :=
  decimal_value (Str.drop 8 (session_id s)).

(** ** Roles *)

(** The roles of a commit, as the branches of the builder's loop tell them
    apart; [role_none] is for a message that gets no tag. *)
Inductive Role := role_start | role_intermediate | role_end | role_none.

Definition commit_role (c : Commit) : Role :=
  if is_session_start c then role_start
  else if is_session_end c then role_end
  else role_intermediate.

(** The role of the commit that the loop of [get_sred_commits] makes of a
    message, [role_none] when it makes none. *)
Definition message_role (msg : string) : Role :=
  match classify msg with
  | Some t =>
      if String.eqb t EmptyString then role_none
      else commit_role (mkCommit EmptyString 0 msg t)
  | None => role_none
  end.

Definition has_role (msg : string) : bool :=
  match message_role msg with
  | role_none => false
  | _ => true
  end.

(** The small letters of the English alphabet and their capitals, in
    the same order. *)
Definition small_letters : string := "abcdefghijklmnopqrstuvwxyz".
Definition capital_letters : string := "ABCDEFGHIJKLMNOPQRSTUVWXYZ".

(** The capital of a small letter; any other character is left alone. *)
Definition capital (c : ascii) : ascii :=
  match find (fun p => Ascii.eqb (fst p) c)
             (combine (list_ascii_of_string small_letters)
                      (list_ascii_of_string capital_letters)) with
  | Some p => snd p
  | None => c
  end.

(** The character [c] is [t] or, when [t] is a small letter, its capital. *)
Definition same_letter (t c : ascii) : bool :=
  Ascii.eqb c t || Ascii.eqb c (capital t).

(** The message starts with the characters of the tag, each letter small
    or capital. *)
Fixpoint prefix_nocase (tag msg : string) : bool :=
  match tag, msg with
  | EmptyString, _ => true
  | String _ _, EmptyString => false
  | String t tag', String c msg' => same_letter t c && prefix_nocase tag' msg'
  end.

(** The small letters and the colon, of which the tags are made. *)
Definition tag_letters : list ascii :=
  list_ascii_of_string "abcdefghijklmnopqrstuvwxyz:".

(** The subjects of the lines that the loop of [get_sred_commits] does not
    skip for their form. *)
Definition subjects (lines : list string) : list string :=
  flat_map (fun line => match parse_line line with
                        | Some (_, _, msg) => [msg]
                        | None => []
                        end) lines.

(** The commit that a turn of the loop appends, if any, and whether the
    turn raises. *)
Definition appended (fromisoformat : string -> option Z) (line : string) : list Commit :=
  match read_line fromisoformat line with
  | Appended c => [c]
  | _ => []
  end.

Definition raises (fromisoformat : string -> option Z) (line : string) : bool :=
  match read_line fromisoformat line with
  | Raised => true
  | _ => false
  end.

(** Prefix match that ignores case: the characters of [t] and the first
    characters of [m] are the same once lowered. *)
Fixpoint starts_with_nocase (m t : string) : bool :=
  match t, m with
  | EmptyString, _ => true
  | String _ _, EmptyString => false
  | String a t', String b m' =>
      Ascii.eqb (Str.lower_char a) (Str.lower_char b) && starts_with_nocase m' t'
  end.

(** ** Matches of the identifier pattern *)

Fixpoint all_digits (s : string) : bool :=
  match s with
  | EmptyString => true
  | String c s' => Str.is_digit c && all_digits s'
  end.

Definition starts_with_digit (s : string) : bool :=
  match s with
  | String c _ => Str.is_digit c
  | EmptyString => false
  end.

(** [m] is the match of [EXP-\d+] at position [i] of [s]: capital [EXP-],
    then all the digits that follow, at least one. *)
Definition Match (s : string) (i : nat) (m : string) : Prop :=
  exists pre d post,
    s = (pre ++ "EXP-" ++ d ++ post)%string
    /\ String.length pre = i
    /\ d <> EmptyString
    /\ all_digits d = true
    /\ starts_with_digit post = false
    /\ m = ("EXP-" ++ d)%string.

(** ** Durations *)

Definition by_timestamp (a b : Commit) : Prop := timestamp a <= timestamp b.

(** Each element with the next one. *)
Definition pairs {A : Type} (l : list A) : list (A * A) := combine l (tl l).

Definition hours_between (t1 t2 : Z) : Float.float :=
  Float.div (Float.of_Z (t2 - t1)) (Float.of_Z 3600).

(** The loop of [calculate_duration] over the sorted timestamps. *)
Definition sum_credited (ts : list Z) : Float.float :=
  fold_left (fun acc p => Float.add acc (credited (hours_between (fst p) (snd p))))
            (pairs ts) Float.zero.

(** The duration as the specification words it, for commits that are
    already in ascending order of timestamp: the gap of each consecutive
    pair, in hours; the raw gap if it is at most 4.0, else 1.0; the sum of
    these, rounded to two places. *)
Module Reference.

Definition gaps (sorted : list Commit) : list Float.float :=
  map (fun p => gap_hours (fst p) (snd p)) (pairs sorted).

Definition credit (gap : Float.float) : Float.float :=
  if Float.leb gap MAX_GAP_HOURS then gap else MAX_GAP_CREDIT.

Definition duration (sorted : list Commit) : Float.float :=
  Float.round2 (fold_left Float.add (map credit (gaps sorted)) Float.zero).

(** The billable total: each session adds its duration if it is Complete
    and [0.0] if it is not. *)
Definition billable (ss : list Session) : Float.float :=
  fold_left Float.add
    (map (fun s => if is_complete s then calculate_duration s else Float.zero) ss)
    Float.zero.

End Reference.

(** ** Floats as numbers *)

(** The record of a shift stands for the number [N / D]: [shr_m] is its
    integer part, [shr_r] tells whether the rest is at least a half, and
    [shr_s] whether the rest is neither zero nor a half. *)
Definition located (rec : shr_record) (N D : Z) : Prop :=
  0 <= shr_m rec /\ 0 < D
  /\ shr_m rec * D <= N < (shr_m rec + 1) * D
  /\ shr_r rec = (D <=? 2 * (N - shr_m rec * D))
  /\ shr_s rec = negb ((N - shr_m rec * D =? 0) || (2 * (N - shr_m rec * D) =? D)).

(** The float of sign [s] made of a rounded mantissa and its exponent. *)
Definition mk (s : bool) (m e : Z) : spec_float :=
  match m with
  | Z0 => S754_zero s
  | Zpos p => if e <=? 971 then S754_finite s p e else S754_infinity s
  | Zneg _ => S754_nan
  end.

(** Not negative, and either representable or [+inf]. *)
Definition canon (x : Float.float) : Prop :=
  match x with
  | S754_zero false | S754_infinity false => True
  | S754_finite false m e => Z.pos m < 2 ^ 53 /\ -1074 <= e <= 971
  | _ => False
  end.

(** Not negative, finite and representable. *)
Definition good (x : Float.float) : Prop :=
  match x with
  | S754_zero false => True
  | S754_finite false m e => Z.pos m < 2 ^ 53 /\ -1074 <= e <= 971
  | _ => False
  end.

Definition nonneg (x : Float.float) : Prop :=
  match x with
  | S754_zero false | S754_infinity false | S754_finite false _ _ => True
  | _ => False
  end.

(** The value of a float that is not negative, in units of [2^-1074]. *)
Definition ulps (x : Float.float) : Z :=
  match x with
  | S754_finite false m e => Z.pos m * 2 ^ (e + 1074)
  | _ => 0
  end.

(** One hour, in the same units. *)
Definition hour : Z := 2 ^ 1074.

(** The most hours that the float sum of [j] credited gaps can reach. *)
Definition cap (j : Z) : Z := Z.min (4 * j) (2 ^ 55).

(** ** Exact arithmetic and rounding *)

(** The duration in the arithmetic of rational numbers, with the rounding
    of binary64 said in so many words: none of the operations of the
    program on floats takes part. *)
Module Exact.

(** A finite binary64 number, of either sign. *)
Definition representable (x : Float.float) : Prop :=
  match x with
  | S754_zero _ => True
  | S754_finite _ m e => Z.pos m < 2 ^ 53 /\ -1074 <= e <= 971
  | _ => False
  end.

(** [x] is a binary64 number nearest to the rational number [q]: no other
    is nearer. *)
Definition nearest (q : Q) (x : Float.float) : Prop :=
  representable x
  /\ forall y, representable y ->
       (Qabs (Float.to_Q x - q) <= Qabs (Float.to_Q y - q))%Q.

(** [n] is the integer nearest to [q], the even one of the two when [q] is
    half-way between two integers. *)
Definition nearest_integer (q : Q) (n : Z) : Prop :=
  (Qabs (q - inject_Z n) <= 1 # 2)%Q
  /\ ((Qabs (q - inject_Z n) == 1 # 2)%Q -> Z.even n = true).

(** The gap between two instants, in hours. *)
Definition hours (t1 t2 : Z) : Q := (inject_Z (t2 - t1) / 3600)%Q.

(** The credit for a gap: the gap itself, as a nearest float, when it is
    at most 4 hours; one hour when it is more. *)
Definition credit (t1 t2 : Z) (c : Float.float) : Prop :=
  ((hours t1 t2 <= 4)%Q /\ nearest (hours t1 t2) c)
  \/ ((4 < hours t1 t2)%Q /\ representable c /\ (Float.to_Q c == 1)%Q).

(** The credits of consecutive instants added up from [acc] on, from left
    to right, each sum rounded to a nearest float. *)
Inductive total : Float.float -> list (Z * Z) -> Float.float -> Prop :=
| total_nil acc : total acc [] acc
| total_cons acc p c acc' ps t :
    credit (fst p) (snd p) c ->
    nearest (Float.to_Q acc + Float.to_Q c) acc' ->
    total acc' ps t ->
    total acc (p :: ps) t.

(** Rounding to two places: a float nearest to the nearest number of
    hundredths. *)
Definition rounded2 (x v : Float.float) : Prop :=
  exists n : Z,
    nearest_integer (100 * Float.to_Q x) n /\ nearest (inject_Z n / 100) v.

(** The duration of commits that are in ascending order of timestamp. *)
Definition duration (sorted : list Commit) (v : Float.float) : Prop :=
  exists t, total Float.zero (pairs (map timestamp sorted)) t /\ rounded2 t v.

End Exact.

(** The value of a finite float in units of [2^-1074], with its sign. *)
Definition sulps (x : Float.float) : Z :=
  match x with
  | S754_finite s m e => if s then - (Z.pos m * 2 ^ (e + 1074)) else Z.pos m * 2 ^ (e + 1074)
  | _ => 0
  end.

(** ** Sample data *)

Module Sample.

Definition A : Commit := mkCommit "a1b2c3d4" 1736413200 "exp: EXP-001 cache warmup" "exp:".
Definition B : Commit := mkCommit "b2c3d4e5" 1736416800 "obs: hit rate 62%" "obs:".
Definition C : Commit := mkCommit "c3d4e5f6" 1736420400 "succeed: warmup helps" "succeed:".
Definition D : Commit := mkCommit "d4e5f6a7" 1736424000 "exp: EXP-002 batch size" "exp:".
Definition E : Commit := mkCommit "e5f6a7b8" 1736463600 "fail: no gain" "fail:".

Definition closed : Session := mkSession "SESSION-001" A (Some C) [B].

End Sample.

(** ** Shapes of sessions *)

(** The test of the last branch of the builder's loop: neither a start nor
    an end commit. *)
Definition is_intermediate (c : Commit) : bool :=
  negb (is_session_start c) && negb (is_session_end c).

(** The two shapes of a session: one opened by a start commit, holding
    intermediate commits and closed, if at all, by an end commit; or the
    session made of a lone end commit. *)
Definition session_shape (s : Session) : Prop :=
  (is_session_start (start_commit s) = true
   /\ forallb is_intermediate (intermediate_commits s) = true
   /\ match end_commit s with Some e => is_session_end e = true | None => True end)
  \/ (is_session_end (start_commit s) = true
      /\ end_commit s = Some (start_commit s)
      /\ intermediate_commits s = []).

(** A session without its identifier. *)
Definition content (s : Session) : Commit * list Commit * option Commit :=
  (start_commit s, intermediate_commits s, end_commit s).

(** ** Texts *)

(** The first and the last character of a string. *)
Definition first_char (s : string) : option ascii :=
  match s with String c _ => Some c | EmptyString => None end.

Fixpoint last_char (s : string) : option ascii :=
  match s with
  | EmptyString => None
  | String c EmptyString => Some c
  | String _ s' => last_char s'
  end.

Definition no_outer_space (s : string) : Prop :=
  (forall c, first_char s = Some c -> Text.is_space c = false)
  /\ (forall c, last_char s = Some c -> Text.is_space c = false).

Definition ordered (a b : string) : Prop := String.ltb a b = true.

(** A string of white space. *)
Fixpoint all_space (s : string) : bool :=
  match s with
  | EmptyString => true
  | String c s' => Text.is_space c && all_space s'
  end.

(** The character [c] occurs in [s]. *)
Fixpoint occurs (c : ascii) (s : string) : bool :=
  match s with
  | EmptyString => false
  | String a s' => Ascii.eqb a c || occurs c s'
  end.

(** ** Normal floats *)

(** A finite float in the normal form of the format: its mantissa has 53
    bits, or its exponent is the least one. *)
Definition normal (x : Float.float) : Prop :=
  match x with
  | S754_finite _ m e => e = -1074 \/ 2 ^ 52 <= Z.pos m
  | _ => True
  end.

(** ** More sample data *)

Module Samples.

Definition nl : string := String "010"%char EmptyString.

(** An output of [git log]: the newest commit first, a line without a tag
    and one without a date, a blank and a line feed at the end. *)
Definition stdout : string :=
  ("c3d4e5f6a7b8c9d0|2025-01-09T11:00:00Z|Succeed: warmup helps" ++ nl
   ++ "0123456789abcdef|2025-01-09T10:00:00+00:00|Merge branch main" ++ nl
   ++ "no date, exp: not read" ++ nl
   ++ "a1b2c3d4e5f6a7b8|2025-01-09T09:00:00+00:00|exp:  EXP-001 cache warmup " ++ nl)%string.

(** The instants that [datetime.fromisoformat] makes of the dates of
    [stdout]; any other string is taken to raise. *)
Definition dates (s : string) : option Z :=
  if String.eqb s "2025-01-09T09:00:00+00:00" then Some 1736413200
  else if String.eqb s "2025-01-09T10:00:00+00:00" then Some 1736416800
  else if String.eqb s "2025-01-09T11:00:00+00:00" then Some 1736420400
  else None.

Definition logged_session : Session :=
  mkSession "SESSION-001"
    (mkCommit "a1b2c3d4" 1736413200 "exp:  EXP-001 cache warmup" "exp:")
    (Some (mkCommit "c3d4e5f6" 1736420400 "Succeed: warmup helps" "succeed:")) [].

Definition first_session : Session :=
  mkSession "SESSION-001"
    (mkCommit "a1b2c3d4" 1736413200 "exp:  EXP-001 cache warmup " "exp:")
    (Some (mkCommit "c3d4e5f6" 1736420400 "Succeed: warmup helps" "succeed:")) [].

Definition overnight : Session := mkSession "SESSION-001" Sample.D (Some Sample.E) [].

Definition swapped : Session := mkSession "SESSION-001" Sample.C (Some Sample.A) [Sample.B].

End Samples.

(** * Part III: properties *)

(** ** The session builder as a state machine *)

Lemma run_snoc (commits : list Commit) (c : Commit) :
  run (commits ++ [c]) = step (run commits) c.
Proof. unfold run. now rewrite fold_left_app. Qed.

Lemma run_app (p q : list Commit) :
  run (p ++ q) = fold_left step q (run p).
Proof. unfold run. now rewrite fold_left_app. Qed.

Lemma start_is_not_end (c : Commit) :
  is_session_start c = true -> is_session_end c = false.
Proof.
  unfold is_session_start, is_session_end, Str.mem. simpl.
  rewrite orb_false_r. intros H. apply String.eqb_eq in H. now rewrite H.
Qed.

Lemma end_commits_app (l1 l2 : list Session) :
  end_commits (l1 ++ l2) = end_commits l1 ++ end_commits l2.
Proof. unfold end_commits. apply flat_map_app. Qed.

Lemma open_session_current (commits : list Commit) (b : Builder) :
  Inv commits b -> open_session b = current_session b.
Proof.
  intros I. unfold open_session. destruct (current_session b) as [cur|] eqn:E; trivial.
  unfold is_complete. now rewrite (inv_open _ _ I cur E).
Qed.

Lemma seq_counter (k : nat) :
  (1 <= k)%nat -> seq 1 (S k - 1) = seq 1 (k - 1) ++ [k].
Proof.
  intros H. replace (S k - 1)%nat with (S (k - 1)) by lia.
  rewrite seq_S. f_equal. f_equal. lia.
Qed.

Lemma Inv_initial : Inv [] initial.
Proof. constructor; simpl; try discriminate; auto. Qed.

Lemma Inv_step (commits : list Commit) (b : Builder) (c : Commit) :
  Inv commits b -> Inv (commits ++ [c]) (step b c).
Proof.
  intros I. pose proof (open_session_current _ _ I) as Ho.
  destruct I as [Iopen Iends Iids Icnt].
  assert (Hcnt : forall l,
             l = map new_session_id (seq 1 (session_counter b - 1)) ->
             l ++ [new_session_id (session_counter b)] =
             map new_session_id (seq 1 (S (session_counter b) - 1))).
  { intros l ->. rewrite (seq_counter _ Icnt), map_app. reflexivity. }
  unfold step. rewrite Ho.
  destruct (is_session_start c) eqn:Es.
  - assert (Hf : (match current_session b with
                  | Some cur => sessions b ++ [cur]
                  | None => sessions b end) = finish b) by reflexivity.
    rewrite Hf. constructor; unfold finish; simpl; rewrite ?Hf.
    + intros cur H. now inversion H.
    + rewrite filter_app. simpl filter.
      rewrite (start_is_not_end c Es), List.app_nil_r.
      rewrite end_commits_app, Iends. simpl. now rewrite List.app_nil_r.
    + rewrite map_app. simpl. now apply Hcnt.
    + lia.
  - destruct (is_session_end c) eqn:Ee.
    + destruct (current_session b) as [cur|] eqn:Ec.
      * unfold finish in Iends, Iids. rewrite Ec in *.
        rewrite end_commits_app in Iends. simpl in Iends.
        rewrite (Iopen cur eq_refl) in Iends. simpl in Iends.
        rewrite List.app_nil_r in Iends.
        constructor; unfold finish; simpl; try discriminate; trivial.
        -- rewrite filter_app. simpl filter. rewrite Ee.
           rewrite end_commits_app, Iends. reflexivity.
        -- rewrite map_app in *. exact Iids.
      * unfold finish in Iends, Iids. rewrite Ec in *.
        constructor; unfold finish; simpl; try rewrite Ec; try discriminate.
        -- rewrite filter_app. simpl filter. rewrite Ee.
           rewrite end_commits_app, Iends. reflexivity.
        -- rewrite map_app. simpl. now apply Hcnt.
        -- lia.
    + destruct (current_session b) as [cur|] eqn:Ec.
      * unfold finish in Iends, Iids. rewrite Ec in *.
        rewrite end_commits_app in Iends. rewrite map_app in Iids.
        constructor; unfold finish; simpl; trivial.
        -- intros cur' H. inversion H. simpl. now apply Iopen.
        -- rewrite filter_app. simpl filter. rewrite Ee, List.app_nil_r.
           rewrite end_commits_app. exact Iends.
        -- rewrite map_app. exact Iids.
      * constructor; trivial.
        -- rewrite Ec. discriminate.
        -- rewrite filter_app. simpl filter. now rewrite Ee, List.app_nil_r.
Qed.

Lemma Inv_run (commits : list Commit) : Inv commits (run commits).
Proof.
  induction commits as [|c commits IH] using rev_ind.
  - apply Inv_initial.
  - rewrite run_snoc. now apply Inv_step.
Qed.

Lemma Reachable_run (commits : list Commit) : Reachable (run commits).
Proof.
  induction commits as [|c commits IH] using rev_ind.
  - constructor.
  - rewrite run_snoc. now constructor.
Qed.

Lemma Reachable_inv (b : Builder) :
  Reachable b -> exists commits, b = run commits.
Proof.
  induction 1 as [|b c _ [commits ->]].
  - now exists [].
  - exists (commits ++ [c]). now rewrite run_snoc.
Qed.

(** ** Session identifiers *)

Lemma decimal_value_zeros (k : nat) (s : string) :
  decimal_value (Str.zeros k s) = decimal_value s.
Proof.
  induction k as [|k IH]; simpl; trivial.
  rewrite <- IH. unfold decimal_value. simpl.
  now destruct (NilEmpty.uint_of_string (Str.zeros k s)).
Qed.

Lemma decimal_value_pad03 (n : nat) : decimal_value (Str.pad03 n) = Some n.
Proof.
  unfold Str.pad03. rewrite decimal_value_zeros.
  unfold decimal_value, Str.decimal. rewrite NilEmpty.usu. simpl.
  now rewrite DecimalNat.Unsigned.of_to.
Qed.

Lemma new_session_id_inj (j k : nat) :
  new_session_id j = new_session_id k -> j = k.
Proof.
  unfold new_session_id. intros H.
  assert (E : Str.pad03 j = Str.pad03 k) by (simpl in H; congruence).
  apply (f_equal decimal_value) in E.
  rewrite !decimal_value_pad03 in E. congruence.
Qed.

Lemma NoDup_new_session_ids (start len : nat) :
  NoDup (map new_session_id (seq start len)).
Proof.
  apply Finite.Injective_map_NoDup.
  - intros j k. apply new_session_id_inj.
  - apply seq_NoDup.
Qed.

Lemma session_number_new (k : nat) (a : Commit) (e : option Commit) (l : list Commit) :
  session_number (mkSession (new_session_id k) a e l) = Some k.
Proof. unfold session_number. simpl. apply decimal_value_pad03. Qed.

(** ** Durations that are zero *)

Lemma calculate_duration_incomplete (s : Session) :
  is_complete s = false -> calculate_duration s = Float.zero.
Proof.
  unfold is_complete, calculate_duration.
  destruct (end_commit s); [discriminate | reflexivity].
Qed.

Lemma gap_hours_same (c : Commit) : gap_hours c c = Float.zero.
Proof. unfold gap_hours. rewrite Z.sub_diag. reflexivity. Qed.

Lemma calculate_duration_single (id : string) (c : Commit) :
  calculate_duration (mkSession id c (Some c) []) = Float.zero.
Proof.
  unfold calculate_duration. simpl. rewrite Z.leb_refl. simpl.
  rewrite gap_hours_same. reflexivity.
Qed.

(** ** Properties of the builder *)

(** C7. Whatever commits the loop of [build_sessions] has consumed: the
    session in the open slot, if any, is Incomplete and is none of the
    emitted ones (so at most one session is open); the end commits attached
    to emitted sessions are exactly the end commits consumed, each once and
    in order (so no end commit closes two sessions); and the identifiers of
    the sessions are pairwise distinct and carry the counters
    [1, 2, ...] in the order of discovery. *)
Theorem builder_invariants (commits : list Commit) :
  let b := run commits in
  match current_session b with
  | Some cur =>
      is_complete cur = false
      /\ existsb (String.eqb (session_id cur)) (map session_id (sessions b)) = false
  | None => True
  end
  /\ end_commits (sessions b) = filter is_session_end commits
  /\ end_commits (build_sessions commits) = filter is_session_end commits
  /\ NoDup (map session_id (build_sessions commits))
  /\ map session_id (build_sessions commits) =
     map new_session_id (seq 1 (session_counter b - 1))
  /\ map session_number (build_sessions commits) =
     map Some (seq 1 (session_counter b - 1)).
Proof.
  intros b. pose proof (Inv_run commits) as I. fold b in I.
  destruct I as [Iopen Iends Iids Icnt].
  assert (Hnd : NoDup (map session_id (finish b))).
  { rewrite Iids. apply NoDup_new_session_ids. }
  assert (Hends : end_commits (sessions b) = filter is_session_end commits).
  { rewrite <- Iends. unfold finish.
    destruct (current_session b) as [cur|] eqn:Ec; trivial.
    rewrite end_commits_app. simpl. rewrite (Iopen cur eq_refl). simpl.
    now rewrite List.app_nil_r. }
  unfold build_sessions. fold b. repeat split; trivial.
  - destruct (current_session b) as [cur|] eqn:Ec; trivial. split.
    + unfold is_complete. now rewrite (Iopen cur eq_refl).
    + unfold finish in Hnd. rewrite Ec, map_app in Hnd. simpl in Hnd.
      apply NoDup_remove_2 in Hnd. rewrite List.app_nil_r in Hnd.
      destruct (existsb _ _) eqn:Ex; trivial.
      apply existsb_exists in Ex. destruct Ex as [x [Hin Hx]].
      apply String.eqb_eq in Hx. subst x. contradiction.
  - assert (Hn : forall l ks, map session_id l = map new_session_id ks ->
                 map session_number l = map Some ks).
    { induction l as [|s l IH]; intros [|k ks] H; try discriminate; trivial.
      simpl in H. injection H as H1 H2. simpl. f_equal; auto.
      unfold session_number. rewrite H1. simpl. apply decimal_value_pad03. }
    now apply Hn.
Qed.

(** C3. Supersession: a start commit consumed while a session is open
    emits the open session as it is, Incomplete and with duration zero,
    opens a new session on the start commit, and leaves the machine open.
    For two start commits half an hour apart and nothing else, the first
    session comes out Incomplete with duration zero and the second starts
    at the second commit. *)
Theorem supersession (commits : list Commit) (cur : Session) (c : Commit) :
  current_session (run commits) = Some cur ->
  is_session_start c = true ->
  let b := run commits in
  let b' := run (commits ++ [c]) in
  let fresh := mkSession (new_session_id (session_counter b)) c None [] in
  (is_complete cur = false
   /\ calculate_duration cur = Float.zero
   /\ sessions b' = sessions b ++ [cur]
   /\ current_session b' = Some fresh
   /\ open_session b' = Some fresh
   /\ session_counter b' = S (session_counter b))
  /\ (forall (t : Z) (h1 m1 h2 m2 : string),
        let c1 := mkCommit h1 t m1 "exp:" in
        let c2 := mkCommit h2 (t + 1800) m2 "exp:" in
        build_sessions [c1; c2] =
          [mkSession "SESSION-001" c1 None []; mkSession "SESSION-002" c2 None []]
        /\ map is_complete (build_sessions [c1; c2]) = [false; false]
        /\ map calculate_duration (build_sessions [c1; c2]) = [Float.zero; Float.zero]).
Proof.
  intros Hcur Hstart b b' fresh.
  pose proof (Inv_run commits) as I. fold b in I.
  pose proof (open_session_current _ _ I) as Ho.
  assert (Hinc : is_complete cur = false).
  { unfold is_complete. now rewrite (inv_open _ _ I cur Hcur). }
  split.
  - subst b'. rewrite run_snoc. fold b. unfold step.
    rewrite Hstart, Ho. fold b in Hcur. rewrite Hcur. simpl.
    repeat split; trivial. now apply calculate_duration_incomplete.
  - intros t h1 m1 h2 m2 c1 c2. repeat split; reflexivity.
Qed.

(** C4. Orphan end: an end commit consumed while no session is open emits
    one synthesized session whose start and end are both that commit, with
    no intermediates; it is Complete, its duration is exactly zero, and the
    machine stays idle.  A stream of one end commit gives exactly that one
    session. *)
Theorem orphan_end (commits : list Commit) (c : Commit) :
  current_session (run commits) = None ->
  is_session_end c = true ->
  let b := run commits in
  let b' := run (commits ++ [c]) in
  let orphan := mkSession (new_session_id (session_counter b)) c (Some c) [] in
  sessions b' = sessions b ++ [orphan]
  /\ current_session b' = None
  /\ session_counter b' = S (session_counter b)
  /\ is_complete orphan = true
  /\ calculate_duration orphan = Float.zero
  /\ build_sessions [c] = [mkSession "SESSION-001" c (Some c) []].
Proof.
  intros Hidle Hend b b' orphan.
  assert (Hns : is_session_start c = false).
  { destruct (is_session_start c) eqn:E; trivial.
    apply start_is_not_end in E. congruence. }
  assert (Hstep : forall b0, current_session b0 = None ->
            step b0 c = mkBuilder
              (sessions b0 ++ [mkSession (new_session_id (session_counter b0)) c (Some c) []])
              None (S (session_counter b0))).
  { intros b0 H0. unfold step, open_session. now rewrite Hns, Hend, H0. }
  subst b'. rewrite run_snoc. fold b. rewrite (Hstep b Hidle). simpl.
  repeat split; trivial.
  - apply calculate_duration_single.
  - unfold build_sessions, run. simpl. now rewrite (Hstep initial eq_refl).
Qed.

(** C6. An intermediate commit consumed while no session is open leaves the
    state as it was, and the sessions built from a stream with such a commit
    at an idle point are those built from the stream without it. *)
Theorem idle_intermediate_dropped (p q : list Commit) (c : Commit) :
  current_session (run p) = None ->
  is_session_start c = false ->
  is_session_end c = false ->
  step (run p) c = run p
  /\ run (p ++ [c]) = run p
  /\ build_sessions (p ++ c :: q) = build_sessions (p ++ q).
Proof.
  intros Hidle Hs He.
  assert (Hstep : step (run p) c = run p).
  { unfold step. now rewrite Hs, He, Hidle. }
  repeat split; trivial.
  - now rewrite run_snoc.
  - unfold build_sessions. rewrite !run_app. simpl. now rewrite Hstep.
Qed.

(** ** The sort by timestamp *)

Lemma insert_by_timestamp_perm (c : Commit) (l : list Commit) :
  Permutation (insert_by_timestamp c l) (c :: l).
Proof.
  induction l as [|h t IH]; simpl; auto.
  destruct (timestamp c <=? timestamp h); auto.
  rewrite IH. apply perm_swap.
Qed.

Lemma sort_by_timestamp_perm (l : list Commit) :
  Permutation (sort_by_timestamp l) l.
Proof.
  induction l as [|c l IH]; simpl; auto.
  rewrite insert_by_timestamp_perm. now constructor.
Qed.

Lemma sort_by_timestamp_length (l : list Commit) :
  List.length (sort_by_timestamp l) = List.length l.
Proof. apply Permutation_length, sort_by_timestamp_perm. Qed.

Lemma insert_by_timestamp_sorted c l :
  StronglySorted by_timestamp l -> StronglySorted by_timestamp (insert_by_timestamp c l).
Proof.
  induction 1 as [|h t Ht IH Hh]; simpl.
  - repeat constructor.
  - destruct (Z.leb_spec (timestamp c) (timestamp h)) as [Hle|Hgt].
    + constructor; [now constructor|]. constructor; trivial.
      eapply Forall_impl; [|exact Hh]. unfold by_timestamp. intros a Ha. lia.
    + constructor; trivial.
      eapply Permutation_Forall; [symmetry; apply insert_by_timestamp_perm|].
      constructor; trivial. unfold by_timestamp. lia.
Qed.

Lemma sort_by_timestamp_sorted l : StronglySorted by_timestamp (sort_by_timestamp l).
Proof.
  induction l as [|c l IH]; simpl; [constructor|]. now apply insert_by_timestamp_sorted.
Qed.

Lemma sorted_map_timestamp l :
  StronglySorted by_timestamp l -> StronglySorted Z.le (map timestamp l).
Proof.
  induction 1 as [|h t Ht IH Hh]; simpl; constructor; trivial.
  now apply Forall_map.
Qed.

(** Two ascending arrangements of the same numbers are the same list. *)
Lemma sorted_perm_unique (l1 l2 : list Z) :
  StronglySorted Z.le l1 -> StronglySorted Z.le l2 -> Permutation l1 l2 -> l1 = l2.
Proof.
  intros H1. revert l2. induction H1 as [|x l1 Hs IH Hx]; intros l2 H2 P.
  - apply Permutation_nil in P. now subst.
  - destruct H2 as [|y l2 Hs2 Hy].
    + apply Permutation_sym, Permutation_nil in P. discriminate.
    + assert (Exy : x = y).
      { assert (Hxin : In x (y :: l2)) by (apply (Permutation_in _ P); now left).
        assert (Hyin : In y (x :: l1)) by (apply (Permutation_in _ (Permutation_sym P)); now left).
        rewrite Forall_forall in Hx, Hy.
        destruct Hxin as [->|Hxin]; trivial. destruct Hyin as [->|Hyin]; trivial.
        specialize (Hx _ Hyin). specialize (Hy _ Hxin). lia. }
      subst y. f_equal. apply IH; trivial. now apply Permutation_cons_inv in P.
Qed.

(** ** The classifier *)

Lemma startswith_lower (m t : string) :
  Str.startswith (Str.lower m) (Str.lower t) = starts_with_nocase m t.
Proof.
  unfold Str.startswith. revert m.
  induction t as [|a t IH]; intros [|b m]; simpl; trivial.
  destruct (ascii_dec (Str.lower_char a) (Str.lower_char b)) as [E|E].
  - rewrite E, Ascii.eqb_refl. simpl. apply IH.
  - apply Ascii.eqb_neq in E. now rewrite E.
Qed.

Lemma same_letter_lower (t : ascii) :
  In t tag_letters ->
  forall c, Ascii.eqb (Str.lower_char t) (Str.lower_char c) = same_letter t c.
Proof.
  unfold tag_letters. cbn [list_ascii_of_string In]. intros H.
  repeat (destruct H as [<-|H];
          [intros [[] [] [] [] [] [] [] []]; vm_compute; reflexivity|]).
  destruct H.
Qed.

Lemma prefix_nocase_lower (tag : string) :
  Forall (fun t => In t tag_letters) (list_ascii_of_string tag) ->
  forall m, starts_with_nocase m tag = prefix_nocase tag m.
Proof.
  induction tag as [|t tag IH]; cbn [list_ascii_of_string]; intros H m.
  - now destruct m.
  - inversion H as [|? ? Ht Htag]; subst. destruct m as [|c m]; trivial.
    cbn [starts_with_nocase prefix_nocase].
    now rewrite (same_letter_lower t Ht c), (IH Htag m).
Qed.

Lemma tags_of_letters :
  Forall (fun tag => Forall (fun t => In t tag_letters) (list_ascii_of_string tag))
         SRED_TAGS.
Proof.
  assert (H : forallb (fun tag =>
                forallb (fun t => existsb (Ascii.eqb t) tag_letters)
                        (list_ascii_of_string tag)) SRED_TAGS = true) by reflexivity.
  rewrite forallb_forall in H. apply Forall_forall. intros tag Htag.
  specialize (H tag Htag). rewrite forallb_forall in H.
  apply Forall_forall. intros t Ht. specialize (H t Ht).
  apply existsb_exists in H. destruct H as (x & Hx & E).
  apply Ascii.eqb_eq in E. now subst.
Qed.

Lemma startswith_tag (m tag : string) :
  In tag SRED_TAGS -> Str.startswith (Str.lower m) tag = prefix_nocase tag m.
Proof.
  intros H. pose proof tags_of_letters as Hl. rewrite Forall_forall in Hl.
  rewrite <- (prefix_nocase_lower tag (Hl tag H) m), <- startswith_lower.
  f_equal. unfold SRED_TAGS in H. cbn [In] in H.
  repeat (destruct H as [<-|H]; [reflexivity|]). destruct H.
Qed.

Lemma message_role_table (m : string) :
  message_role m =
    (if prefix_nocase "exp:" m then role_start
     else if prefix_nocase "obs:" m || prefix_nocase "test:" m then role_intermediate
     else if prefix_nocase "succeed:" m || prefix_nocase "pivot:" m
             || prefix_nocase "stop:" m || prefix_nocase "fail:" m then role_end
     else role_none).
Proof.
  unfold message_role, classify.
  rewrite <- (startswith_tag m "exp:"), <- (startswith_tag m "obs:"),
    <- (startswith_tag m "test:"), <- (startswith_tag m "fail:"),
    <- (startswith_tag m "succeed:"), <- (startswith_tag m "pivot:"),
    <- (startswith_tag m "stop:") by (unfold SRED_TAGS; cbn [In]; tauto).
  unfold SRED_TAGS. cbv [find].
  destruct (Str.startswith (Str.lower m) "exp:"); [reflexivity|].
  destruct (Str.startswith (Str.lower m) "obs:"); [reflexivity|].
  destruct (Str.startswith (Str.lower m) "test:"); [reflexivity|].
  destruct (Str.startswith (Str.lower m) "fail:");
    [now rewrite !orb_true_r|].
  destruct (Str.startswith (Str.lower m) "succeed:"); [reflexivity|].
  destruct (Str.startswith (Str.lower m) "pivot:"); [reflexivity|].
  destruct (Str.startswith (Str.lower m) "stop:"); reflexivity.
Qed.

(** The loop of [get_sred_commits] raises when one of its turns does, and
    else appends the commits of its turns in order. *)
Lemma read_lines_eq (f : string -> option Z) (lines : list string) (commits : list Commit) :
  read_lines f lines commits =
    if existsb (raises f) lines then None
    else Some (commits ++ flat_map (appended f) lines).
Proof.
  revert commits. induction lines as [|line rest IH]; intros commits.
  - cbn. now rewrite List.app_nil_r.
  - cbn [read_lines existsb flat_map]. unfold raises at 1, appended at 1.
    destruct (read_line f line) as [|c|]; cbn [orb app]; trivial.
    rewrite IH, <- app_assoc. reflexivity.
Qed.

Lemma get_sred_commits_eq (f : string -> option Z) (stdout : string) :
  get_sred_commits f stdout =
    if existsb (raises f) (stdout_lines stdout) then None
    else Some (sort_by_timestamp (flat_map (appended f) (stdout_lines stdout))).
Proof.
  unfold get_sred_commits. rewrite read_lines_eq.
  now destruct (existsb (raises f) (stdout_lines stdout)).
Qed.

(** The commit that a turn appends: the fields of its line, and the tag
    that the tag loop finds in the subject. *)
Lemma appended_fields (f : string -> option Z) (line : string) (c : Commit) :
  In c (appended f line) ->
  exists h d,
    parse_line line = Some (h, d, message c)
    /\ hash c = Str.take 8 h
    /\ f (replace_Z d) = Some (timestamp c)
    /\ classify (message c) = Some (tag c)
    /\ tag c <> EmptyString.
Proof.
  unfold appended, read_line.
  destruct (parse_line line) as [[[h d] m]|]; [|intros []].
  destruct (classify m) as [t|] eqn:Ec; [|intros []].
  destruct (String.eqb_spec t EmptyString) as [|Ht]; [intros []|].
  destruct (f (replace_Z d)) as [ts|] eqn:Ef; [|intros []].
  intros [<-|[]]. exists h, d. cbn [message hash timestamp tag]. auto.
Qed.

Lemma classify_tag_not_empty (m : string) : classify m <> Some EmptyString.
Proof.
  intros H. unfold classify in H. apply find_some in H. destruct H as [H _].
  unfold SRED_TAGS in H. cbn [In] in H.
  repeat (destruct H as [H|H]; [discriminate H|]). destruct H.
Qed.

Lemma has_role_tag (m t : string) :
  classify m = Some t -> t <> EmptyString -> has_role m = true.
Proof.
  intros Hc Ht. unfold has_role, message_role. rewrite Hc.
  destruct (String.eqb_spec t EmptyString) as [|_]; [contradiction|].
  unfold commit_role.
  destruct (is_session_start (mkCommit EmptyString 0 m t)); trivial.
  now destruct (is_session_end (mkCommit EmptyString 0 m t)).
Qed.

Lemma has_role_untagged (m : string) : classify m = None -> has_role m = false.
Proof. intros Hc. unfold has_role, message_role. now rewrite Hc. Qed.

Lemma raises_fields (f : string -> option Z) (line : string) :
  raises f line = true ->
  exists h d m,
    parse_line line = Some (h, d, m) /\ has_role m = true /\ f (replace_Z d) = None.
Proof.
  unfold raises, read_line.
  destruct (parse_line line) as [[[h d] m]|]; [|discriminate].
  destruct (classify m) as [t|] eqn:Ec; [|discriminate].
  destruct (String.eqb_spec t EmptyString) as [|Ht]; [discriminate|].
  destruct (f (replace_Z d)) as [ts|] eqn:Ef; [discriminate|].
  intros _. exists h, d, m. repeat split; trivial. now apply (has_role_tag m t).
Qed.

Lemma commit_role_of_tag (c : Commit) :
  classify (message c) = Some (tag c) -> tag c <> EmptyString ->
  message_role (message c) = commit_role c /\ commit_role c <> role_none.
Proof.
  intros Hc Ht. unfold message_role. rewrite Hc.
  destruct (String.eqb_spec (tag c) EmptyString) as [|_]; [contradiction|].
  split; [reflexivity|]. unfold commit_role.
  destruct (is_session_start c); [discriminate|].
  destruct (is_session_end c); discriminate.
Qed.

Lemma appended_subjects (f : string -> option Z) (line : string) :
  raises f line = false ->
  map message (appended f line) = filter has_role (subjects [line]).
Proof.
  unfold raises, appended, subjects, read_line.
  cbn [flat_map]. rewrite List.app_nil_r.
  destruct (parse_line line) as [[[h d] m]|]; trivial.
  destruct (classify m) as [t|] eqn:Ec; cbn [filter].
  - destruct (String.eqb_spec t EmptyString) as [->|Ht].
    + destruct (classify_tag_not_empty m Ec).
    + rewrite (has_role_tag m t Ec Ht).
      now destruct (f (replace_Z d)) as [ts|].
  - now rewrite (has_role_untagged m Ec).
Qed.

Lemma appended_all_subjects (f : string -> option Z) (lines : list string) :
  existsb (raises f) lines = false ->
  map message (flat_map (appended f) lines) = filter has_role (subjects lines).
Proof.
  induction lines as [|line rest IH]; trivial. cbn [existsb]. intros H.
  apply orb_false_elim in H. destruct H as [H1 H2].
  assert (Hs : subjects (line :: rest) = subjects [line] ++ subjects rest).
  { unfold subjects. cbn [flat_map]. now rewrite List.app_nil_r. }
  rewrite Hs.
  cbn [flat_map]. rewrite map_app, filter_app, (appended_subjects f line H1), (IH H2).
  reflexivity.
Qed.

(** C5. The classifier is a function of the message alone.  Whether the
    letters are small or capital, a message that starts with [exp:] has
    role start, one that starts with [obs:] or [test:] has role
    intermediate, one that starts with [succeed:], [pivot:], [stop:] or
    [fail:] has role end, and any other message has no role.  When
    [get_sred_commits] returns, the commits it hands to the session builder
    are those of the lines of the output whose subject has a role, none of
    the others; it returns unless the date of such a line cannot be
    read. *)
Theorem classifier_table (msg : string) :
  message_role msg =
    (if prefix_nocase "exp:" msg then role_start
     else if prefix_nocase "obs:" msg
             || prefix_nocase "test:" msg then role_intermediate
     else if prefix_nocase "succeed:" msg
             || prefix_nocase "pivot:" msg
             || prefix_nocase "stop:" msg
             || prefix_nocase "fail:" msg then role_end
     else role_none)
  /\ (forall (fromisoformat : string -> option Z) (stdout : string),
        match get_sred_commits fromisoformat stdout with
        | Some commits =>
            Permutation (map message commits)
                        (filter has_role (subjects (stdout_lines stdout)))
            /\ Forall (fun c => message_role (message c) = commit_role c
                                /\ commit_role c <> role_none)
                      commits
        | None =>
            exists line h d m,
              In line (stdout_lines stdout)
              /\ parse_line line = Some (h, d, m)
              /\ has_role m = true
              /\ fromisoformat (replace_Z d) = None
        end).
Proof.
  split; [apply message_role_table|]. intros f stdout.
  rewrite get_sred_commits_eq.
  destruct (existsb (raises f) (stdout_lines stdout)) eqn:E.
  - apply existsb_exists in E. destruct E as (line & Hin & Hr).
    destruct (raises_fields f line Hr) as (h & d & m & Hp & Hm & Hf).
    exists line, h, d, m. auto.
  - split.
    + rewrite <- (appended_all_subjects f _ E).
      apply Permutation_map, sort_by_timestamp_perm.
    + apply Forall_forall. intros c Hin.
      apply (Permutation_in _ (sort_by_timestamp_perm _)) in Hin.
      apply in_flat_map in Hin. destruct Hin as (line & _ & Hc).
      destruct (appended_fields f line c Hc) as (h & d & _ & _ & _ & Hcl & Ht).
      now apply commit_role_of_tag.
Qed.

(** ** The experiment identifier *)

Lemma prefix_split (t s : string) :
  String.prefix t s = true -> exists r, s = (t ++ r)%string.
Proof.
  revert s. induction t as [|a t IH]; intros s H.
  - now exists s.
  - destruct s as [|b s]; [discriminate|]. simpl in H.
    destruct (ascii_dec a b) as [->|]; [|discriminate].
    destruct (IH s H) as [r ->]. now exists r.
Qed.

Lemma prefix_append (t r : string) : String.prefix t (t ++ r) = true.
Proof.
  induction t as [|a t IH]; simpl.
  - now destruct r.
  - destruct (ascii_dec a a); [exact IH | congruence].
Qed.

Lemma drop_append (t r : string) : Str.drop (String.length t) (t ++ r) = r.
Proof. induction t as [|a t IH]; simpl; trivial. Qed.

Lemma digits_prefix_split (r : string) :
  exists post,
    r = (Regex.digits_prefix r ++ post)%string
    /\ all_digits (Regex.digits_prefix r) = true
    /\ starts_with_digit post = false.
Proof.
  induction r as [|c r [post [E [A N]]]]; simpl.
  - now exists EmptyString.
  - destruct (Str.is_digit c) eqn:D; simpl.
    + exists post. rewrite D, A. repeat split; trivial. now rewrite <- E.
    + exists (String c r). simpl. now rewrite D.
Qed.

Lemma digits_prefix_unique (d post : string) :
  all_digits d = true -> starts_with_digit post = false ->
  Regex.digits_prefix (d ++ post) = d.
Proof.
  intros A N. induction d as [|c d IH]; simpl in *.
  - destruct post as [|c post]; trivial. simpl in *. now rewrite N.
  - apply andb_true_iff in A. destruct A as [Dc A]. rewrite Dc. now rewrite IH.
Qed.

Lemma match_here_iff (s m : string) :
  Regex.match_here s = Some m <-> Match s 0 m.
Proof.
  unfold Regex.match_here, Str.startswith. split.
  - destruct (String.prefix "EXP-" s) eqn:P; [|discriminate].
    destruct (prefix_split _ _ P) as [r ->].
    change 4%nat with (String.length "EXP-"). rewrite drop_append.
    destruct (digits_prefix_split r) as [post [E [A N]]].
    destruct (Regex.digits_prefix r) as [|c d] eqn:Ed; [discriminate|].
    intros H. injection H as <-.
    exists EmptyString, (String c d), post. rewrite E at 1.
    repeat split; trivial. discriminate.
  - intros [pre [d [post [-> [L [Hd [A [N ->]]]]]]]].
    destruct pre; [|discriminate].
    change (EmptyString ++ "EXP-" ++ d ++ post)%string with ("EXP-" ++ (d ++ post))%string.
    rewrite prefix_append.
    change 4%nat with (String.length "EXP-"). rewrite drop_append.
    rewrite (digits_prefix_unique _ _ A N). destruct d; [contradiction|reflexivity].
Qed.

Lemma Match_cons (c : ascii) (s : string) (i : nat) (m : string) :
  Match (String c s) (S i) m <-> Match s i m.
Proof.
  split.
  - intros [pre [d [post [E [L R]]]]]. destruct pre as [|c' pre]; [discriminate|].
    simpl in E, L. injection E as -> E. injection L as L.
    now exists pre, d, post.
  - intros [pre [d [post [E [L R]]]]]. exists (String c pre), d, post.
    simpl. rewrite E, L. now repeat split.
Qed.

Lemma Match_empty (i : nat) (m : string) : ~ Match EmptyString i m.
Proof. intros [[|c pre] [d [post [E _]]]]; discriminate. Qed.

Lemma search_spec (s : string) :
  match Regex.search s with
  | Some m => exists i, Match s i m /\ forall j m', (j < i)%nat -> ~ Match s j m'
  | None => forall i m, ~ Match s i m
  end.
Proof.
  induction s as [|c s IH].
  - simpl. destruct (Regex.match_here EmptyString) as [m|] eqn:H.
    + apply match_here_iff in H. now apply Match_empty in H.
    + intros i m. apply Match_empty.
  - simpl. destruct (Regex.match_here (String c s)) as [m|] eqn:H.
    + exists 0%nat. split; [now apply match_here_iff | lia].
    + destruct (Regex.search s) as [m|].
      * destruct IH as [i [Hm Hfirst]]. exists (S i). split.
        -- now apply Match_cons.
        -- intros [|j] m' Hj Hc.
           ++ apply match_here_iff in Hc. congruence.
           ++ apply Match_cons in Hc. apply (Hfirst j m'); [lia | trivial].
      * intros [|i] m Hc.
        -- apply match_here_iff in Hc. congruence.
        -- apply Match_cons in Hc. now apply (IH i m).
Qed.

Lemma lower_char_not_E (c : ascii) : Str.lower_char c <> "E"%char.
Proof.
  destruct c as [[] [] [] [] [] [] [] []]; vm_compute; discriminate.
Qed.

Lemma no_match_in_lower (s : string) (i : nat) (m : string) :
  ~ Match (Str.lower s) i m.
Proof.
  revert i. induction s as [|c s IH]; intros i H; simpl in H.
  - now apply Match_empty in H.
  - destruct i as [|i].
    + destruct H as [pre [d [post [E [L _]]]]]. destruct pre; [|discriminate].
      simpl in E. injection E as E _. now apply lower_char_not_E in E.
    + apply Match_cons in H. now apply IH in H.
Qed.

(** C10. The experiment identifier is the leftmost match of capital [EXP-]
    followed by digits in the start commit's message, and it is ["UNKNOWN"]
    exactly when the message has no such match.  The match is sensitive to
    case, where the classifier is not: no lowered message has one, so
    [exp: exp-001 ...] classifies as a start commit with identifier
    ["UNKNOWN"]. *)
Theorem hypothesis_id_case_sensitive (s : Session) :
  ((exists i, Match (message (start_commit s)) i (hypothesis_id s)
              /\ forall j m, (j < i)%nat -> ~ Match (message (start_commit s)) j m)
   \/ (hypothesis_id s = "UNKNOWN"
       /\ forall i m, ~ Match (message (start_commit s)) i m))
  /\ (forall id h t msg tg e l,
        hypothesis_id (mkSession id (mkCommit h t (Str.lower msg) tg) e l) = "UNKNOWN")
  /\ (forall id h t tg e l,
        hypothesis_id (mkSession id (mkCommit h t "exp: exp-001 cache" tg) e l) = "UNKNOWN"
        /\ hypothesis_id (mkSession id (mkCommit h t "exp: EXP-001 cache" tg) e l) = "EXP-001"
        /\ classify "exp: exp-001 cache" = Some "exp:"
        /\ classify "EXP: EXP-001 cache" = Some "exp:").
Proof.
  split; [|split].
  - unfold hypothesis_id. pose proof (search_spec (message (start_commit s))) as H.
    destruct (Regex.search (message (start_commit s))) as [m|].
    + left. exact H.
    + right. now split.
  - intros id h t msg tg e l. unfold hypothesis_id. simpl.
    pose proof (search_spec (Str.lower msg)) as H.
    destruct (Regex.search (Str.lower msg)) as [m|]; trivial.
    destruct H as [i [H _]]. now apply no_match_in_lower in H.
  - intros. repeat split; reflexivity.
Qed.

(** ** Rounding to nearest even: shifts and locations *)

(** A positive number of [d] binary digits lies in [[2^(d-1), 2^d)]. *)
Lemma Zdigits2_bounds (p : positive) :
  2 ^ (Z.pos (digits2_pos p) - 1) <= Z.pos p < 2 ^ Z.pos (digits2_pos p).
Proof.
  induction p as [p IH|p IH|]; simpl digits2_pos.
  - rewrite Pos2Z.inj_succ. replace (Z.succ (Z.pos (digits2_pos p)) - 1) with (Z.succ (Z.pos (digits2_pos p) - 1)) by lia.
    rewrite !Z.pow_succ_r by lia. lia.
  - rewrite Pos2Z.inj_succ. replace (Z.succ (Z.pos (digits2_pos p)) - 1) with (Z.succ (Z.pos (digits2_pos p) - 1)) by lia.
    rewrite !Z.pow_succ_r by lia. lia.
  - simpl. lia.
Qed.

Lemma Zdigits2_small m : 0 <= m < 2 ^ 53 -> Zdigits2 m <= 53.
Proof.
  intros [H0 H]. destruct m as [|p|p]; simpl; try lia.
  pose proof (Zdigits2_bounds p) as [Hl _].
  assert (2 ^ (Z.pos (digits2_pos p) - 1) < 2 ^ 53) by lia.
  apply Z.pow_lt_mono_r_iff in H1; lia.
Qed.

Lemma Zdigits2_le_of_lt m d : 0 <= d -> 0 <= m < 2 ^ d -> Zdigits2 m <= d.
Proof.
  intros Hd [H0 H]. destruct m as [|p|p]; simpl; try lia.
  pose proof (Zdigits2_bounds p) as [Hl _].
  assert (2 ^ (Z.pos (digits2_pos p) - 1) < 2 ^ d) by lia.
  apply Z.pow_lt_mono_r_iff in H1; lia.
Qed.

Lemma Zdigits2_unique m d :
  2 ^ (d - 1) <= m < 2 ^ d -> 0 < d -> Zdigits2 m = d.
Proof.
  intros [Hl Hu] Hd.
  assert (Hm : 0 < m). { pose proof (Z.pow_pos_nonneg 2 (d - 1)). lia. }
  destruct m as [|p|p]; try lia. cbn [Zdigits2].
  pose proof (Zdigits2_bounds p) as [Hl' Hu'].
  assert (H1 : 2 ^ (d - 1) < 2 ^ Z.pos (digits2_pos p)) by lia.
  assert (H2 : 2 ^ (Z.pos (digits2_pos p) - 1) < 2 ^ d) by lia.
  apply Z.pow_lt_mono_r_iff in H1; [|lia|lia].
  apply Z.pow_lt_mono_r_iff in H2; lia.
Qed.

Lemma digits_scaled_le p E T :
  0 <= E -> Z.pos p * 2 ^ E < 2 ^ T -> Z.pos (digits2_pos p) + E <= T.
Proof.
  intros HE H. pose proof (Zdigits2_bounds p) as [Hl _].
  assert (P : 0 < 2 ^ E) by (apply Z.pow_pos_nonneg; lia).
  assert (Hlt : 2 ^ (Z.pos (digits2_pos p) - 1 + E) < 2 ^ T).
  { rewrite (Z.pow_add_r 2 _ E) by lia. nia. }
  destruct (Z_lt_le_dec T 0) as [HT|HT].
  - rewrite (Z.pow_neg_r 2 T HT) in H. lia.
  - apply Z.pow_lt_mono_r_iff in Hlt; lia.
Qed.

Ltac bools :=
  repeat match goal with
  | |- context [?a =? ?b] => destruct (Z.eqb_spec a b)
  | |- context [?a <=? ?b] => destruct (Z.leb_spec a b)
  | H : context [?a =? ?b] |- _ => destruct (Z.eqb_spec a b)
  | H : context [?a <=? ?b] |- _ => destruct (Z.leb_spec a b)
  end.

(** One shift to the right halves the scale and keeps the record on the
    number it stands for. *)
Lemma located_shr_1 rec N D : located rec N D -> located (shr_1 rec) N (2 * D).
Proof.
  destruct rec as [m r s]. unfold located.
  set (D2 := 2 * D). assert (HD2 : D2 = 2 * D) by reflexivity. clearbody D2.
  cbn [shr_m shr_r shr_s].
  intros (Hm & HD & HN & Hr & Hs). subst r s.
  destruct m as [|p|p]; [| |lia].
  - cbn [shr_1 shr_m shr_r shr_s orb]. 
    repeat split; try lia; bools; cbn [orb negb]; try reflexivity; try (exfalso; lia).
  - destruct p as [p|p|]; cbn [shr_1 shr_m shr_r shr_s orb].
    all: repeat split; try lia; bools; cbn [orb negb]; try reflexivity; try (exfalso; lia).
Qed.

Lemma located_iter p : forall rec N D, located rec N D -> located (iter_pos shr_1 p rec) N (D * 2 ^ Z.pos p).
Proof.
  induction p as [p IH|p IH|]; intros rec N D H; simpl iter_pos.
  - apply located_shr_1 in H. apply IH in H. apply IH in H.
    replace (D * 2 ^ Z.pos p~1) with (2 * D * 2 ^ Z.pos p * 2 ^ Z.pos p); trivial.
    replace (Z.pos p~1) with (Z.pos p + Z.pos p + 1) by lia.
    rewrite !Z.pow_add_r, Z.pow_1_r by lia. ring.
  - apply IH in H. apply IH in H.
    replace (D * 2 ^ Z.pos p~0) with (D * 2 ^ Z.pos p * 2 ^ Z.pos p); trivial.
    replace (Z.pos p~0) with (Z.pos p + Z.pos p) by lia.
    rewrite !Z.pow_add_r by lia. ring.
  - apply located_shr_1 in H. now rewrite Z.mul_comm.
Qed.

Lemma located_shr rec e n N D :
  located rec N D ->
  located (fst (shr rec e n)) N (D * 2 ^ Z.max 0 n) /\ snd (shr rec e n) = e + Z.max 0 n.
Proof.
  intros H. destruct n as [|p|p]; simpl.
  - rewrite Z.mul_1_r, Z.add_0_r. auto.
  - split; [now apply located_iter | reflexivity].
  - rewrite Z.mul_1_r, Z.add_0_r. auto.
Qed.

(** Rounding a located record to nearest even is [round_half_even]. *)
Lemma located_round rec N D :
  located rec N D ->
  round_nearest_even (shr_m rec) (loc_of_shr_record rec) = Float.round_half_even N D.
Proof.
  destruct rec as [m r s]. unfold located. simpl shr_m. simpl shr_r. simpl shr_s.
  intros (Hm & HD & HN & Hr & Hs).
  assert (Hq : N / D = m). { symmetry. apply (Z.div_unique N D m (N - m * D)); lia. }
  assert (Hrem : N mod D = N - m * D). { symmetry. apply (Z.mod_unique N D m (N - m * D)); lia. }
  unfold Float.round_half_even. rewrite Hq, Hrem.
  unfold loc_of_shr_record, round_nearest_even. subst r s.
  destruct (Z.compare_spec (2 * (N - m * D)) D); bools; simpl; try reflexivity; try lia.
Qed.

Lemma located_bounds rec N D :
  located rec N D ->
  shr_m rec <= Float.round_half_even N D <= shr_m rec + 1.
Proof.
  intros H. rewrite <- (located_round _ _ _ H).
  unfold round_nearest_even. destruct (loc_of_shr_record rec) as [|[]]; try lia.
  destruct (Z.even (shr_m rec)); lia.
Qed.

Lemma located_exact m : 0 <= m -> located (shr_record_of_loc m loc_Exact) m 1.
Proof.
  intros H. unfold located. cbn [shr_record_of_loc shr_m shr_r shr_s].
  repeat split; try lia; bools; cbn [orb negb]; try reflexivity; exfalso; lia.
Qed.

Lemma shr_m_of_loc m l : shr_m (shr_record_of_loc m l) = m.
Proof. now destruct l as [|[]]. Qed.

Lemma shr_nonpos rec e n : n <= 0 -> shr rec e n = (rec, e).
Proof. destruct n; trivial; lia. Qed.

Lemma fexp_eq e : fexp Float.prec Float.emax e = Z.max (e - 53) (-1074).
Proof. reflexivity. Qed.

(** [round_half_even] does not pass an integer bound of the quotient. *)
Lemma rhe_le N D b : 0 < D -> N <= b * D -> Float.round_half_even N D <= b.
Proof.
  intros HD H. unfold Float.round_half_even.
  pose proof (Z.div_mod N D ltac:(lia)) as E.
  pose proof (Z.mod_pos_bound N D HD) as Hr.
  destruct (Z.compare_spec (2 * (N mod D)) D); [destruct (Z.even (N / D))| |]; nia.
Qed.

Lemma rhe_nonneg N D : 0 < D -> 0 <= N -> 0 <= Float.round_half_even N D.
Proof.
  intros HD H. unfold Float.round_half_even.
  pose proof (Z.div_pos N D H HD).
  destruct (2 * (N mod D) ?= D); [destruct (Z.even (N / D))| |]; lia.
Qed.

(** At most half-way above an even integer, rounding goes down to it. *)
Lemma rhe_tie_down N D b :
  0 < D -> Z.even b = true -> 2 * N <= (2 * b + 1) * D ->
  Float.round_half_even N D <= b.
Proof.
  intros HD Hb H.
  destruct (Z_le_gt_dec N (b * D)) as [Hle|Hgt]; [now apply rhe_le|].
  assert (Hq : N / D = b). { symmetry. apply (Z.div_unique N D b (N - b * D)); lia. }
  assert (Hrem : N mod D = N - b * D). { symmetry. apply (Z.mod_unique N D b (N - b * D)); lia. }
  unfold Float.round_half_even. rewrite Hq, Hrem, Hb.
  destruct (Z.compare_spec (2 * (N - b * D)) D); lia.
Qed.

(** ** What [binary_round_aux] returns *)

(** The float that [binary_round_aux] returns for the number [N / D] in
    units of [2^e]: the quotient rounded to nearest even at the exponent [f]
    of the format, renormalised when the rounding carries to [2^53]. *)
Lemma bra_spec s m e l N D :
  located (shr_record_of_loc m l) N D ->
  let f := Z.max e (fexp Float.prec Float.emax (Zdigits2 m + e)) in
  let m1 := Float.round_half_even N (D * 2 ^ (f - e)) in
  0 <= m1 <= 2 ^ 53
  /\ binary_round_aux Float.prec Float.emax s m e l =
     if m1 =? 2 ^ 53 then mk s (2 ^ 52) (f + 1) else mk s m1 f.
Proof.
  intros H f m1.
  pose proof (located_shr _ e (fexp Float.prec Float.emax (Zdigits2 m + e) - e) _ _ H) as [H1 He].
  assert (Hk : Z.max 0 (fexp Float.prec Float.emax (Zdigits2 m + e) - e) = f - e) by (unfold f; lia).
  rewrite Hk in *.
  assert (Hf : -1074 <= f) by (unfold f; rewrite fexp_eq; lia).
  unfold binary_round_aux, shr_fexp.
  destruct (shr (shr_record_of_loc m l) e _) as [rec' e'] eqn:E1.
  simpl fst in H1. simpl snd in He. 
  rewrite (located_round _ _ _ H1). fold m1.
  pose proof (located_bounds _ _ _ H1) as Hb. fold m1 in Hb.
  assert (He' : e' = f) by lia. clear He. subst e'.
  (* the shifted mantissa is below 2^53 *)
  assert (Hm' : 0 <= shr_m rec' < 2 ^ 53).
  { destruct H1 as (H0 & HD & HN & _). split; trivial.
    destruct H as (Hm0 & HD0 & HN0 & _). rewrite shr_m_of_loc in *.
    assert (Hpk : 0 < 2 ^ (f - e)) by (apply Z.pow_pos_nonneg; lia).
    assert (Hlt : shr_m rec' * 2 ^ (f - e) < m + 1) by nia.
    destruct m as [|p|p]; [nia| |lia].
    pose proof (Zdigits2_bounds p) as [_ Hu]. simpl Zdigits2 in f.
    assert (Hd : Z.pos (digits2_pos p) <= 53 + (f - e)).
    { unfold f. rewrite fexp_eq. lia. }
    assert (2 ^ Z.pos (digits2_pos p) <= 2 ^ (53 + (f - e))) by (apply Z.pow_le_mono_r; lia).
    rewrite Z.pow_add_r in H by lia. nia. }
  split; [lia|].
  destruct (Z.eqb_spec m1 (2 ^ 53)) as [E|E].
  - rewrite E. change (Zdigits2 (2 ^ 53)) with 54.
    replace (fexp Float.prec Float.emax (54 + f) - f) with 1 by (rewrite fexp_eq; lia).
    reflexivity.
  - rewrite shr_nonpos.
    + simpl. unfold mk. destruct m1; trivial.
    + pose proof (Zdigits2_small m1 ltac:(lia)). rewrite fexp_eq. lia.
Qed.

Lemma mk_good m e :
  0 <= m < 2 ^ 53 -> -1074 <= e <= 971 ->
  good (mk false m e) /\ ulps (mk false m e) = m * 2 ^ (e + 1074).
Proof.
  intros Hm He. destruct m as [|p|p]; [now split| |lia].
  unfold mk. destruct (Z.leb_spec e 971); [|lia]. cbn [good ulps]. repeat split; lia.
Qed.

Lemma mk_canon m e : 0 <= m < 2 ^ 53 -> -1074 <= e -> canon (mk false m e).
Proof.
  intros Hm He. destruct m as [|p|p]; [exact I| |lia].
  unfold mk. destruct (Z.leb_spec e 971); cbn [canon]; [lia|exact I].
Qed.

Lemma good_canon x : good x -> canon x.
Proof. destruct x as [[]|[]| |[] m e]; simpl; tauto. Qed.

Lemma canon_nonneg x : canon x -> nonneg x.
Proof. destruct x as [[]|[]| |[] m e]; simpl; tauto. Qed.

Lemma ulps_nonneg x : 0 <= ulps x.
Proof.
  destruct x as [| | |[] m e]; cbn [ulps]; try apply Z.le_refl.
  apply Z.mul_nonneg_nonneg; [apply Pos2Z.is_nonneg|]. apply Z.pow_nonneg. lia.
Qed.

Lemma ulps_le m e m' e' :
  Z.pos m <= m' -> -1074 <= e <= e' ->
  ulps (S754_finite false m e) <= m' * 2 ^ (e' + 1074).
Proof.
  intros Hm He. cbn [ulps].
  assert (P : 2 ^ (e + 1074) <= 2 ^ (e' + 1074)) by (apply Z.pow_le_mono_r; lia).
  assert (P0 : 0 < 2 ^ (e + 1074)) by (apply Z.pow_pos_nonneg; lia).
  nia.
Qed.

Lemma bra_canon m e l N D :
  located (shr_record_of_loc m l) N D ->
  canon (binary_round_aux Float.prec Float.emax false m e l).
Proof.
  intros H. destruct (bra_spec false m e l N D H) as [Hm ->].
  assert (-1074 <= Z.max e (fexp Float.prec Float.emax (Zdigits2 m + e)))
    by (rewrite fexp_eq; lia).
  match goal with |- context [?a =? ?b] => destruct (Z.eqb_spec a b) end;
    apply mk_canon; lia.
Qed.

(** Rounding is below any bound [mb * 2^eb] of the format that the exact
    number is below. *)
Lemma bra_upper m e l N D mb eb :
  located (shr_record_of_loc m l) N D ->
  -1074 <= e <= eb -> eb <= 970 -> 0 < mb < 2 ^ 53 ->
  N * 2 ^ (e + 1074) <= mb * 2 ^ (eb + 1074) * D ->
  good (binary_round_aux Float.prec Float.emax false m e l)
  /\ ulps (binary_round_aux Float.prec Float.emax false m e l) <= mb * 2 ^ (eb + 1074).
Proof.
  intros H He Heb Hmb HN.
  destruct (bra_spec false m e l N D H) as [Hm1 ->].
  set (f := Z.max e (fexp Float.prec Float.emax (Zdigits2 m + e))) in *.
  set (m1 := Float.round_half_even N (D * 2 ^ (f - e))) in *.
  destruct H as (Hm0 & HD & HND & _). rewrite shr_m_of_loc in *.
  remember (e + 1074) as E eqn:HE. remember (eb + 1074) as EB eqn:HEB.
  assert (P1 : 0 < 2 ^ E) by (apply Z.pow_pos_nonneg; lia).
  assert (P0 : 0 < 2 ^ EB) by (apply Z.pow_pos_nonneg; lia).
  assert (Hmv : m * 2 ^ E < 2 ^ 53 * 2 ^ EB).
  { assert (H1 : m * 2 ^ E * D <= mb * 2 ^ EB * D).
    { etransitivity; [|exact HN].
      assert (m * D * 2 ^ E <= N * 2 ^ E) by (apply Z.mul_le_mono_nonneg_r; lia). lia. }
    apply Z.mul_le_mono_pos_r in H1; [|lia]. nia. }
  assert (Hf : -1074 <= f <= eb).
  { unfold f. rewrite fexp_eq. split; [lia|].
    assert (Zdigits2 m + E <= 53 + EB); [|lia].
    destruct m as [|p|p]; [change (Zdigits2 0) with 0; lia| |lia].
    pose proof (Zdigits2_bounds p) as [Hl _]. cbn [Zdigits2].
    assert (Hlt : 2 ^ (Z.pos (digits2_pos p) - 1 + E) < 2 ^ (53 + EB)).
    { rewrite (Z.pow_add_r 2 53 EB), (Z.pow_add_r 2 _ E) by lia. nia. }
    apply Z.pow_lt_mono_r_iff in Hlt; lia. }
  assert (P2 : 0 < 2 ^ (f - e)) by (apply Z.pow_pos_nonneg; lia).
  assert (P3 : 0 < 2 ^ (eb - f)) by (apply Z.pow_pos_nonneg; lia).
  assert (P4 : 0 < 2 ^ (f + 1074)) by (apply Z.pow_pos_nonneg; lia).
  assert (E1 : 2 ^ EB = 2 ^ (eb - f) * 2 ^ (f - e) * 2 ^ E).
  { rewrite <- !Z.pow_add_r by lia. f_equal. lia. }
  assert (E2 : 2 ^ EB = 2 ^ (eb - f) * 2 ^ (f + 1074)).
  { rewrite <- !Z.pow_add_r by lia. f_equal. lia. }
  assert (Hb : m1 <= mb * 2 ^ (eb - f)).
  { apply rhe_le; [nia|].
    apply (Z.mul_le_mono_pos_r _ _ (2 ^ E)); [lia|].
    etransitivity; [exact HN|]. rewrite E1. apply Z.eq_le_incl. ring. }
  assert (Hu : m1 * 2 ^ (f + 1074) <= mb * 2 ^ EB).
  { rewrite E2. nia. }
  destruct (Z.eqb_spec m1 (2 ^ 53)) as [Em|Em].
  - destruct (mk_good (2 ^ 52) (f + 1)) as [G U]; [lia|lia|]. split; trivial.
    rewrite U. replace (f + 1 + 1074) with (1 + (f + 1074)) by lia.
    rewrite (Z.pow_add_r 2 1 (f + 1074)) by lia. rewrite Em in Hu. lia.
  - destruct (mk_good m1 f) as [G U]; [lia|lia|]. split; trivial. now rewrite U.
Qed.

(** An exact number at most half an ulp above [2^55] rounds to at most
    [2^55] (units of [2^-1074]: [2^1129] and the half ulp [2^1076]). *)
Lemma bra_saturate m e l N D :
  located (shr_record_of_loc m l) N D ->
  -1074 <= e <= 3 ->
  N * 2 ^ (e + 1074) <= (2 ^ 1129 + 2 ^ 1076) * D ->
  good (binary_round_aux Float.prec Float.emax false m e l)
  /\ ulps (binary_round_aux Float.prec Float.emax false m e l) <= 2 ^ 1129.
Proof.
  intros H He HN.
  assert (C1 : 2 ^ 1129 = 2 ^ 52 * 2 ^ (3 + 1074)) by reflexivity.
  destruct (Z_le_gt_dec (N * 2 ^ (e + 1074)) (2 ^ 1129 * D)) as [Hle|Hgt].
  { rewrite C1 in *. apply (bra_upper m e l N D (2 ^ 52) 3); trivial; lia. }
  destruct (bra_spec false m e l N D H) as [Hm1 ->].
  set (f := Z.max e (fexp Float.prec Float.emax (Zdigits2 m + e))) in *.
  destruct H as (Hm0 & HD & HND & _). rewrite shr_m_of_loc in *.
  remember (e + 1074) as E eqn:HE.
  assert (P1 : 0 < 2 ^ E) by (apply Z.pow_pos_nonneg; lia).
  assert (P2 : 0 < 2 ^ (3 - e)) by (apply Z.pow_pos_nonneg; lia).
  assert (P3 : 0 < 2 ^ (55 - e)) by (apply Z.pow_pos_nonneg; lia).
  assert (E1 : 2 ^ 1129 = 2 ^ (55 - e) * 2 ^ E).
  { rewrite <- Z.pow_add_r by lia. f_equal. lia. }
  assert (E2 : 2 ^ 1077 = 2 ^ (3 - e) * 2 ^ E).
  { rewrite <- Z.pow_add_r by lia. f_equal. lia. }
  assert (E3 : 2 ^ (55 - e) = 2 ^ 52 * 2 ^ (3 - e)).
  { rewrite <- Z.pow_add_r by lia. f_equal. lia. }
  assert (E4 : 2 ^ 1076 * 2 = 2 ^ 1077) by reflexivity.
  (* the quotient lies in [2^(55-e), 2^(56-e)) *)
  assert (HX : 2 ^ (55 - e) * D < N).
  { apply (Z.mul_lt_mono_pos_r (2 ^ E)); [lia|]. rewrite E1 in Hgt. lia. }
  assert (HY : 2 * N <= (2 * 2 ^ 52 + 1) * (D * 2 ^ (3 - e))).
  { apply (Z.mul_le_mono_pos_r _ _ (2 ^ E)); [lia|].
    replace (2 * N * 2 ^ E) with (2 * (N * 2 ^ E)) by ring.
    etransitivity; [apply Z.mul_le_mono_nonneg_l; [lia|exact HN]|].
    apply Z.eq_le_incl.
    replace ((2 * 2 ^ 52 + 1) * (D * 2 ^ (3 - e)) * 2 ^ E)
      with ((2 * (2 ^ 52 * 2 ^ (3 - e)) * 2 ^ E + 2 ^ (3 - e) * 2 ^ E) * D) by ring.
    rewrite <- E3, <- E2. 
    replace (2 * 2 ^ (55 - e) * 2 ^ E) with (2 * (2 ^ (55 - e) * 2 ^ E)) by ring.
    rewrite <- E1, <- E4. ring. }
  assert (Hml : 2 ^ (55 - e) <= m) by nia.
  assert (Hmu : m < 2 ^ (56 - e)).
  { replace (56 - e) with (1 + (55 - e)) by lia.
    rewrite (Z.pow_add_r 2 1 (55 - e)) by lia. change (2 ^ 1) with 2.
    rewrite E3 in *. nia. }
  assert (Hd : Zdigits2 m = 56 - e).
  { apply Zdigits2_unique; [|lia]. replace (56 - e - 1) with (55 - e) by lia. lia. }
  assert (Hf : f = 3) by (unfold f; rewrite fexp_eq, Hd; lia).
  rewrite Hf in *.
  set (m1 := Float.round_half_even N (D * 2 ^ (3 - e))) in *.
  assert (Hb : m1 <= 2 ^ 52) by (apply rhe_tie_down; [nia|reflexivity|exact HY]).
  destruct (Z.eqb_spec m1 (2 ^ 53)) as [Em|Em]; [lia|].
  destruct (mk_good m1 3) as [G U]; [lia|lia|]. split; trivial.
  rewrite U. change (2 ^ (3 + 1074)) with (2 ^ 1077).
  change (2 ^ 1129) with (2 ^ 52 * 2 ^ 1077).
  apply Z.mul_le_mono_nonneg_r; [|exact Hb]. apply Z.pow_nonneg. lia.
Qed.

(** ** Conversion from integers and addition *)

Lemma iter_xO m d : Z.pos (Pos.iter xO m d) = Z.pos m * 2 ^ Z.pos d.
Proof.
  revert m. induction d as [|d IH] using Pos.peano_ind; intros m.
  - cbn [Pos.iter]. lia.
  - rewrite Pos.iter_succ, Pos2Z.inj_xO, IH, Pos2Z.inj_succ, Z.pow_succ_r by lia. ring.
Qed.

Lemma shl_align_spec mx ex ex' :
  snd (shl_align mx ex ex') = Z.min ex ex'
  /\ Z.pos (fst (shl_align mx ex ex')) = Z.pos mx * 2 ^ (ex - Z.min ex ex').
Proof.
  unfold shl_align. destruct (ex' - ex) as [|d|d] eqn:E; cbn [fst snd].
  - replace (Z.min ex ex') with ex by lia. rewrite Z.sub_diag. split; lia.
  - replace (Z.min ex ex') with ex by lia. rewrite Z.sub_diag. split; lia.
  - replace (Z.min ex ex') with ex' by lia. split; trivial.
    rewrite iter_xO. f_equal. f_equal. lia.
Qed.

Lemma binary_round_canon p e : canon (binary_round Float.prec Float.emax false p e).
Proof.
  unfold binary_round. destruct (shl_align _ _ _) as [mz ez].
  apply (bra_canon _ _ _ (Z.pos mz) 1), located_exact. lia.
Qed.

Lemma of_Z_canon z : 0 <= z -> canon (Float.of_Z z).
Proof.
  intros H. unfold Float.of_Z, binary_normalize. destruct z as [|p|p]; [exact I| |lia].
  apply binary_round_canon.
Qed.

Lemma binary_round_aligned p e :
  -1074 <= e ->
  exists mz ez,
    binary_round Float.prec Float.emax false p e =
      binary_round_aux Float.prec Float.emax false (Z.pos mz) ez loc_Exact
    /\ -1074 <= ez
    /\ ez <= fexp Float.prec Float.emax (Z.pos (digits2_pos p) + e)
    /\ Z.pos mz * 2 ^ (ez + 1074) = Z.pos p * 2 ^ (e + 1074).
Proof.
  intros He. unfold binary_round.
  pose proof (shl_align_spec p e (fexp Float.prec Float.emax (Z.pos (digits2_pos p) + e)))
    as [Hs Hf].
  destruct (shl_align _ _ _) as [mz ez]. cbn [fst snd] in *.
  exists mz, ez. rewrite fexp_eq in *. repeat split; try lia.
  rewrite Hf, <- Hs. rewrite <- Z.mul_assoc, <- Z.pow_add_r by lia. do 2 f_equal. lia.
Qed.

Lemma binary_round_upper p e mb eb :
  -1074 <= e -> -1074 <= eb <= 970 -> 0 < mb < 2 ^ 53 ->
  Z.pos p * 2 ^ (e + 1074) <= mb * 2 ^ (eb + 1074) ->
  good (binary_round Float.prec Float.emax false p e)
  /\ ulps (binary_round Float.prec Float.emax false p e) <= mb * 2 ^ (eb + 1074).
Proof.
  intros He Heb Hmb H.
  destruct (binary_round_aligned p e He) as (mz & ez & -> & Hez & Hf & Hv).
  assert (P : 0 < 2 ^ (eb + 1074)) by (apply Z.pow_pos_nonneg; lia).
  assert (Hd : Z.pos (digits2_pos p) + (e + 1074) <= 53 + (eb + 1074)).
  { apply digits_scaled_le; [lia|]. rewrite (Z.pow_add_r 2 53) by lia. nia. }
  apply (bra_upper _ _ _ (Z.pos mz) 1); trivial.
  - apply located_exact. lia.
  - rewrite fexp_eq in Hf. lia.
  - lia.
  - rewrite Hv. lia.
Qed.

Lemma binary_round_saturate p e :
  -1074 <= e ->
  Z.pos p * 2 ^ (e + 1074) <= 2 ^ 1129 + 2 ^ 1076 ->
  good (binary_round Float.prec Float.emax false p e)
  /\ ulps (binary_round Float.prec Float.emax false p e) <= 2 ^ 1129.
Proof.
  intros He H.
  destruct (binary_round_aligned p e He) as (mz & ez & -> & Hez & Hf & Hv).
  assert (Hd : Z.pos (digits2_pos p) + (e + 1074) <= 1130).
  { apply digits_scaled_le; [lia|].
    assert (2 ^ 1129 + 2 ^ 1076 < 2 ^ 1130) by reflexivity. lia. }
  apply (bra_saturate _ _ _ (Z.pos mz) 1).
  - apply located_exact. lia.
  - rewrite fexp_eq in Hf. lia.
  - rewrite Hv. lia.
Qed.

(** The sum of two floats that are not negative is one of them, when the
    other is zero, or the rounding of the exact sum. *)
Lemma add_cases x y :
  good x -> good y ->
  (Float.add x y = x /\ ulps y = 0)
  \/ (Float.add x y = y /\ ulps x = 0)
  \/ (exists p e, -1074 <= e
        /\ Float.add x y = binary_round Float.prec Float.emax false p e
        /\ Z.pos p * 2 ^ (e + 1074) = ulps x + ulps y).
Proof.
  destruct x as [[]|[]| |[] mx ex]; try contradiction;
  destruct y as [[]|[]| |[] my ey]; try contradiction; intros Hx Hy.
  - left. now split.
  - right. left. now split.
  - left. now split.
  - right. right. cbn [good] in Hx, Hy.
    unfold Float.add, SFadd. cbn [cond_Zopp].
    pose proof (shl_align_spec mx ex (Z.min ex ey)) as [_ Ha].
    pose proof (shl_align_spec my ey (Z.min ex ey)) as [_ Hb].
    replace (Z.min ex (Z.min ex ey)) with (Z.min ex ey) in Ha by lia.
    replace (Z.min ey (Z.min ex ey)) with (Z.min ex ey) in Hb by lia.
    set (a := fst (shl_align mx ex (Z.min ex ey))) in *.
    set (b := fst (shl_align my ey (Z.min ex ey))) in *.
    exists (a + b)%positive, (Z.min ex ey). split; [lia|]. split; [reflexivity|].
    cbn [ulps]. rewrite Pos2Z.inj_add, Ha, Hb.
    rewrite Z.mul_add_distr_r, <- !Z.mul_assoc, <- !Z.pow_add_r by lia.
    do 3 f_equal; lia.
Qed.

Lemma add_canon x y : canon x -> canon y -> canon (Float.add x y).
Proof.
  destruct x as [[]|[]| |[] mx ex]; try contradiction;
  destruct y as [[]|[]| |[] my ey]; try contradiction; intros Hx Hy; trivial.
  unfold Float.add, SFadd. cbn [cond_Zopp]. apply binary_round_canon.
Qed.

Lemma add_upper x y mb eb :
  good x -> good y -> -1074 <= eb <= 970 -> 0 < mb < 2 ^ 53 ->
  ulps x + ulps y <= mb * 2 ^ (eb + 1074) ->
  good (Float.add x y) /\ ulps (Float.add x y) <= mb * 2 ^ (eb + 1074).
Proof.
  intros Hx Hy Heb Hmb H.
  pose proof (ulps_nonneg x) as Ux. pose proof (ulps_nonneg y) as Uy.
  destruct (add_cases x y Hx Hy) as [[-> U]|[[-> U]|(p & e & He & -> & Hv)]].
  - split; [trivial|lia].
  - split; [trivial|lia].
  - apply binary_round_upper; trivial. lia.
Qed.

Lemma add_saturate x y :
  good x -> good y ->
  ulps x + ulps y <= 2 ^ 1129 + 2 ^ 1076 ->
  ulps x <= 2 ^ 1129 -> ulps y <= 2 ^ 1129 ->
  good (Float.add x y) /\ ulps (Float.add x y) <= 2 ^ 1129.
Proof.
  intros Hx Hy H Hx' Hy'.
  destruct (add_cases x y Hx Hy) as [[-> U]|[[-> U]|(p & e & He & -> & Hv)]].
  - split; trivial.
  - split; trivial.
  - apply binary_round_saturate; trivial. lia.
Qed.

(** ** Division and rounding to two places *)

Lemma new_location_located nb q k :
  0 <= q -> 0 <= k < nb ->
  located (shr_record_of_loc q (new_location nb k)) (q * nb + k) nb.
Proof.
  intros Hq Hk. unfold located. rewrite shr_m_of_loc.
  replace (q * nb + k - q * nb) with k by ring.
  assert (Hrs : shr_r (shr_record_of_loc q (new_location nb k)) = (nb <=? 2 * k)
                /\ shr_s (shr_record_of_loc q (new_location nb k))
                   = negb ((k =? 0) || (2 * k =? nb))).
  { unfold new_location. destruct (Z.even nb) eqn:Ev.
    - unfold new_location_even. destruct (Z.eqb_spec k 0) as [->|Hk0].
      + cbn [shr_record_of_loc shr_r shr_s orb negb]. split; trivial.
        destruct (Z.leb_spec nb (2 * 0)); trivial. lia.
      + destruct (Z.compare_spec (2 * k) nb);
          cbn [shr_record_of_loc shr_r shr_s]; split; bools; cbn [orb negb];
          try reflexivity; exfalso; lia.
    - assert (Ho : Z.odd nb = true) by (rewrite <- Z.negb_even, Ev; reflexivity).
      apply Z.odd_spec in Ho. destruct Ho as [j Hj].
      unfold new_location_odd. destruct (Z.eqb_spec k 0) as [->|Hk0].
      + cbn [shr_record_of_loc shr_r shr_s orb negb]. split; trivial.
        destruct (Z.leb_spec nb (2 * 0)); trivial. lia.
      + destruct (Z.compare_spec (2 * k + 1) nb);
          cbn [shr_record_of_loc shr_r shr_s]; split; bools; cbn [orb negb];
          try reflexivity; exfalso; lia. }
  destruct Hrs as [Hr Hs]. repeat split; try lia; trivial.
Qed.

(** The quotient and location that [SFdiv_core_binary] computes stand for
    the exact quotient of the mantissas, at the exponent it returns. *)
Lemma div_core_located mx ex my ey :
  exists q e' loc,
    SFdiv_core_binary Float.prec Float.emax (Z.pos mx) ex (Z.pos my) ey = (q, e', loc)
    /\ e' = Z.min (fexp Float.prec Float.emax
                     (Z.pos (digits2_pos mx) + ex - (Z.pos (digits2_pos my) + ey)))
                  (ex - ey)
    /\ located (shr_record_of_loc q loc) (Z.pos mx * 2 ^ (ex - ey - e')) (Z.pos my).
Proof.
  unfold SFdiv_core_binary. cbn [Zdigits2].
  set (e' := Z.min _ (ex - ey)).
  assert (He' : e' <= ex - ey) by (unfold e'; lia).
  set (m' := match ex - ey - e' with
             | 0 => Z.pos mx
             | Z.pos _ => Z.shiftl (Z.pos mx) (ex - ey - e')
             | Z.neg _ => 0
             end).
  assert (Hm' : m' = Z.pos mx * 2 ^ (ex - ey - e')).
  { unfold m'. destruct (ex - ey - e') as [|s|s] eqn:Es.
    - lia.
    - now rewrite Z.shiftl_mul_pow2 by lia.
    - lia. }
  pose proof (Z_div_mod m' (Z.pos my) ltac:(lia)) as Hdm.
  destruct (Z.div_eucl m' (Z.pos my)) as [q r]. destruct Hdm as [Hdm Hr].
  exists q, e', (new_location (Z.pos my) r).
  split; [reflexivity|]. split; [reflexivity|].
  assert (P : 0 < 2 ^ (ex - ey - e')) by (apply Z.pow_pos_nonneg; lia).
  assert (Hq : 0 <= q) by nia.
  rewrite <- Hm', Hdm. replace (Z.pos my * q + r) with (q * Z.pos my + r) by ring.
  now apply new_location_located.
Qed.

Lemma div_canon x my ey :
  nonneg x -> canon (Float.div x (S754_finite false my ey)).
Proof.
  destruct x as [[]|[]| |[] mx ex]; try contradiction; intros _; try exact I.
  unfold Float.div, SFdiv.
  destruct (div_core_located mx ex my ey) as (q & e' & loc & -> & _ & H).
  cbn [xorb]. now apply (bra_canon _ _ _ _ _ H).
Qed.

Lemma hundredths_le m e mb eb :
  0 <= eb -> -1074 <= e ->
  Z.pos m * 2 ^ (e + 1074) <= mb * 2 ^ (eb + 1074) ->
  Float.hundredths m e <= 100 * (mb * 2 ^ eb).
Proof.
  intros Heb He H. unfold Float.hundredths.
  assert (P : 0 < 2 ^ 1074) by reflexivity.
  rewrite (Z.pow_add_r 2 eb 1074) in H by lia.
  destruct (Z.leb_spec 0 e) as [H0|H0].
  - rewrite (Z.pow_add_r 2 e 1074) in H by lia.
    assert (Z.pos m * 2 ^ e <= mb * 2 ^ eb) by nia. lia.
  - assert (P2 : 0 < 2 ^ (- e)) by (apply Z.pow_pos_nonneg; lia).
    assert (P3 : 0 < 2 ^ (e + 1074)) by (apply Z.pow_pos_nonneg; lia).
    assert (E : 2 ^ 1074 = 2 ^ (- e) * 2 ^ (e + 1074)).
    { rewrite <- Z.pow_add_r by lia. f_equal. lia. }
    apply rhe_le; trivial.
    apply (Z.mul_le_mono_pos_r _ _ (2 ^ (e + 1074))); trivial.
    replace (100 * (mb * 2 ^ eb) * 2 ^ (- e) * 2 ^ (e + 1074))
      with (100 * (mb * 2 ^ eb * (2 ^ (- e) * 2 ^ (e + 1074)))) by ring.
    rewrite <- E. lia.
Qed.

Lemma round2_canon x : canon x -> canon (Float.round2 x).
Proof.
  destruct x as [[]|[]| |[] m e]; try contradiction; intros H; try exact I.
  unfold Float.round2. destruct (Float.hundredths m e); try exact I.
  change (Float.of_Z 100) with (S754_finite false 7036874417766400 (-46)).
  now apply div_canon.
Qed.

(** [round(x, 2)] is below any integer bound [mb * 2^eb] that [x] is below. *)
Lemma round2_upper x mb eb :
  good x -> 0 <= eb <= 970 -> 0 < mb < 2 ^ 53 ->
  ulps x <= mb * 2 ^ (eb + 1074) ->
  good (Float.round2 x) /\ ulps (Float.round2 x) <= mb * 2 ^ (eb + 1074).
Proof.
  intros Hx Heb Hmb H.
  assert (P : 0 < 2 ^ (eb + 1074)) by (apply Z.pow_pos_nonneg; lia).
  destruct x as [[]|[]| |[] m e]; try contradiction.
  { cbn [Float.round2 good ulps]. split; [exact I | nia]. }
  cbn [good ulps] in Hx, H. unfold Float.round2.
  pose proof (hundredths_le m e mb eb ltac:(lia) ltac:(lia) H) as Hh.
  destruct (Float.hundredths m e) as [|n|n] eqn:En;
    try (cbn [good ulps]; split; [exact I | nia]).
  change (Float.of_Z 100) with (S754_finite false 7036874417766400 (-46)).
  unfold Float.div, SFdiv.
  destruct (div_core_located n 0 7036874417766400 (-46)) as (q & e' & loc & -> & He' & Hl).
  cbn [xorb]. change (Z.pos (digits2_pos 7036874417766400)) with 53 in He'.
  rewrite fexp_eq in He'.
  assert (P2 : 0 < 2 ^ eb) by (apply Z.pow_pos_nonneg; lia).
  assert (Hd : Z.pos (digits2_pos n) + 0 <= 60 + eb).
  { apply digits_scaled_le; [lia|]. rewrite (Z.pow_add_r 2 60 eb) by lia.
    change (2 ^ 0) with 1. assert (100 * 2 ^ 53 < 2 ^ 60) by reflexivity. nia. }
  apply (bra_upper _ _ _ _ _ mb eb Hl); try lia.
  assert (E1 : 2 ^ (0 - -46 - e') * 2 ^ (e' + 1074) = 2 ^ 1120).
  { rewrite <- Z.pow_add_r by lia. f_equal. lia. }
  rewrite <- Z.mul_assoc, E1.
  rewrite (Z.pow_add_r 2 eb 1074) by lia.
  change (2 ^ 1120) with (2 ^ 46 * 2 ^ 1074).
  change (Z.pos 7036874417766400) with (25 * 2 ^ 48).
  assert (P3 : 0 < 2 ^ 1074) by reflexivity.
  assert (Z.pos n * 2 ^ 46 <= mb * 2 ^ eb * (25 * 2 ^ 48)).
  { change (2 ^ 48) with (4 * 2 ^ 46). nia. }
  nia.
Qed.

(** ** Comparison and the credited gap *)

Lemma MAX_GAP_HOURS_eq : MAX_GAP_HOURS = S754_finite false 4503599627370496 (-50).
Proof. reflexivity. Qed.

Lemma MAX_GAP_CREDIT_eq : MAX_GAP_CREDIT = S754_finite false 4503599627370496 (-52).
Proof. reflexivity. Qed.

Lemma credit_good :
  good (S754_finite false 4503599627370496 (-52))
  /\ ulps (S754_finite false 4503599627370496 (-52)) <= 2 ^ 52 * 2 ^ (-50 + 1074).
Proof.
  split; [cbn [good]; lia|].
  apply (ulps_le _ (-52) (2 ^ 52) (-50)); [reflexivity | lia].
Qed.

(** A credited gap is finite and at most 4 hours. *)
Lemma credited_upper gap :
  canon gap ->
  good (credited gap) /\ ulps (credited gap) <= 2 ^ 52 * 2 ^ (-50 + 1074).
Proof.
  unfold credited. rewrite MAX_GAP_HOURS_eq, MAX_GAP_CREDIT_eq.
  destruct gap as [[]|[]| |[] m e]; try contradiction; intros H.
  - cbv [Float.ltb SFltb SFcompare]. split; [exact I|]. cbn [ulps]. 
    apply Z.mul_nonneg_nonneg; apply Z.pow_nonneg; lia.
  - exact credit_good.
  - cbn [canon] in H. unfold Float.ltb, SFltb, SFcompare.
    destruct (Z.compare_spec (-50) e) as [E|E|E]; try exact credit_good.
    + subst e. rewrite Pos.compare_cont_spec. cbn [Pos.switch_Eq].
      destruct (Pos.compare_spec 4503599627370496 m) as [E|E|E]; try exact credit_good.
      * subst m. split; [exact H|].
        apply (ulps_le _ (-50) (2 ^ 52) (-50)); [reflexivity|lia].
      * split; [exact H|]. apply (ulps_le m (-50) (2 ^ 52) (-50)); [|clear E; lia].
        change (2 ^ 52) with (Z.pos 4503599627370496).
        apply Z.lt_le_incl, Pos2Z.pos_lt_pos, E.
    + split; [exact H|]. 
      replace (2 ^ 52 * 2 ^ (-50 + 1074)) with (2 ^ 53 * 2 ^ (-51 + 1074)).
      * apply (ulps_le m e (2 ^ 53) (-51)); lia.
      * rewrite <- !Z.pow_add_r by lia. reflexivity.
Qed.

Lemma credited_canon gap : canon gap -> canon (credited gap).
Proof. intros H. now apply good_canon, credited_upper. Qed.

Lemma leb_zero_canon x : canon x -> Float.leb Float.zero x = true.
Proof. destruct x as [[]|[]| |[] m e]; try contradiction; reflexivity. Qed.

(** Swapping the operands of a comparison reverses its result. *)
Lemma SFcompare_antisym x y :
  SFcompare y x = option_map CompOpp (SFcompare x y).
Proof.
  destruct x as [[]|[]| |[] mx ex], y as [[]|[]| |[] my ey]; try reflexivity;
    unfold SFcompare; cbn [option_map]; f_equal;
    rewrite (Z.compare_antisym ey ex);
    destruct (ey ?= ex); cbn [CompOpp]; trivial;
    rewrite ?CompOpp_involutive;
    first [ exact (Pos.compare_cont_antisym my mx Eq)
          | symmetry; exact (Pos.compare_cont_antisym mx my Eq) ].
Qed.

Lemma leb_ltb x y :
  SFcompare x y <> None -> Float.leb x y = negb (Float.ltb y x).
Proof.
  unfold Float.leb, Float.ltb, SFleb, SFltb. rewrite (SFcompare_antisym x y).
  destruct (SFcompare x y) as [[]|]; trivial. congruence.
Qed.

Lemma canon_compare x y : canon x -> canon y -> SFcompare x y <> None.
Proof.
  destruct x as [[]|[]| |[] mx ex]; try contradiction;
  destruct y as [[]|[]| |[] my ey]; try contradiction; discriminate.
Qed.

(** [ulps] is the value in units of [2^-1074]. *)
Lemma to_Q_ulps x :
  good x -> (Float.to_Q x * inject_Z (2 ^ 1074) == inject_Z (ulps x))%Q.
Proof.
  destruct x as [[]|[]| |[] m e]; try contradiction; intros H.
  - reflexivity.
  - cbn [good] in H. cbn [Float.to_Q ulps].
    rewrite inject_Z_mult, !Zpower_Qpower by lia.
    rewrite (Qpower_plus (inject_Z 2) e 1074) by discriminate.
    symmetry. apply Qmult_assoc.
Qed.

(** ** The loop of [calculate_duration] *)

Lemma fold_left_ext_in {A B : Type} (f g : A -> B -> A) (l : list B) (a : A) :
  (forall acc x, In x l -> f acc x = g acc x) -> fold_left f l a = fold_left g l a.
Proof.
  revert a. induction l as [|x l IH]; intros a H; simpl; trivial.
  rewrite H by now left. apply IH. intros acc y Hy. apply H. now right.
Qed.

Lemma fold_left_map_in {A B C : Type} (f : A -> C -> A) (g : B -> C) (l : list B) (a : A) :
  fold_left f (map g l) a = fold_left (fun acc x => f acc (g x)) l a.
Proof. revert a. induction l as [|x l IH]; intros a; simpl; trivial. Qed.

(** The loop over the indices [1 .. len - 1] visits each element with the
    next one, in order. *)
Lemma loop_pairs {A B : Type} (F : B -> A -> A -> B) (d : A) (l : list A) (x : A) (acc : B) :
  fold_left (fun acc i => F acc (nth (i - 1) (x :: l) d) (nth i (x :: l) d))
            (seq 1 (List.length l)) acc
  = fold_left (fun acc p => F acc (fst p) (snd p)) (pairs (x :: l)) acc.
Proof.
  revert x acc. induction l as [|y l IH]; intros x acc; trivial.
  cbn [List.length seq fold_left pairs tl combine fst snd].
  change (nth (1 - 1) (x :: y :: l) d) with x.
  change (nth 1 (x :: y :: l) d) with y.
  rewrite <- seq_shift, fold_left_map_in. 
  rewrite <- (IH y). apply fold_left_ext_in.
  intros a i Hi. apply in_seq in Hi.
  destruct i as [|i]; [lia|]. cbn [nth]. 
  replace (S (S i) - 1)%nat with (S i) by lia.
  replace (S i - 1)%nat with i by lia. reflexivity.
Qed.

Lemma pairs_map {A B : Type} (f : A -> B) (l : list A) :
  pairs (map f l) = map (fun p => (f (fst p), f (snd p))) (pairs l).
Proof.
  unfold pairs. destruct l as [|x l]; trivial. cbn [map tl]. revert x.
  induction l as [|y l IH]; intros x; trivial.
  cbn [map combine fst snd]. f_equal. apply IH.
Qed.

(** The duration of a Complete session, as a function of the sorted
    timestamps alone. *)
Lemma calculate_duration_pairs s e :
  end_commit s = Some e ->
  calculate_duration s =
    Float.round2 (sum_credited (map timestamp
      (sort_by_timestamp ([start_commit s] ++ intermediate_commits s ++ [e])))).
Proof.
  intros He. unfold calculate_duration. rewrite He. f_equal.
  set (all := sort_by_timestamp _).
  unfold sum_credited. rewrite pairs_map, fold_left_map_in. cbn [fst snd].
  destruct all as [|x l] eqn:E.
  - apply (f_equal (@List.length _)) in E. unfold all in E.
    rewrite sort_by_timestamp_length in E. simpl in E. discriminate.
  - cbn [List.length]. rewrite Nat.sub_succ, Nat.sub_0_r.
    exact (loop_pairs (fun acc a b => Float.add acc (credited (gap_hours a b))) e l x Float.zero).
Qed.

Lemma sorted_pairs ts :
  StronglySorted Z.le ts -> Forall (fun p => fst p <= snd p) (pairs ts).
Proof.
  induction 1 as [|x l Hs IH Hx]; [constructor|].
  destruct l as [|y l]; [constructor|].
  unfold pairs in *. cbn [tl combine]. constructor; trivial.
  cbn [fst snd]. now inversion Hx.
Qed.

Lemma hours_between_canon t1 t2 : t1 <= t2 -> canon (hours_between t1 t2).
Proof.
  intros H. unfold hours_between.
  change (Float.of_Z 3600) with (S754_finite false 7916483719987200 (-41)).
  apply div_canon, canon_nonneg, of_Z_canon. lia.
Qed.

Lemma sum_canon ps :
  Forall (fun p => fst p <= snd p) ps ->
  forall acc, canon acc ->
  canon (fold_left (fun acc p => Float.add acc (credited (hours_between (fst p) (snd p))))
                   ps acc).
Proof.
  induction 1 as [|p ps Hp _ IH]; intros acc Hacc; trivial.
  cbn [fold_left]. apply IH, add_canon; trivial.
  now apply credited_canon, hours_between_canon.
Qed.

Lemma duration_canon ts :
  StronglySorted Z.le ts -> canon (Float.round2 (sum_credited ts)).
Proof.
  intros H. apply round2_canon, sum_canon; [now apply sorted_pairs | exact I].
Qed.

(** ** Bounds in hours *)

Lemma hour_pos : 0 < hour. Proof. reflexivity. Qed.

Lemma pow_4h : 2 ^ (2 + 1074) = 4 * hour. Proof. reflexivity. Qed.

Lemma pow_8h : 2 ^ (3 + 1074) = 8 * hour. Proof. reflexivity. Qed.

Lemma pow_cap : 2 ^ 1129 = 2 ^ 55 * hour. Proof. reflexivity. Qed.

Lemma pow_1076 : 2 ^ 1076 = 4 * hour. Proof. reflexivity. Qed.

Lemma pow_credit : 2 ^ 52 * 2 ^ (-50 + 1074) = 4 * hour. Proof. reflexivity. Qed.

(** One more credited gap: the float sum stays below four hours per gap,
    and never leaves [2^55] hours once there. *)
Lemma add_step acc c j :
  0 <= j -> good acc -> ulps acc <= cap j * hour ->
  good c -> ulps c <= 4 * hour ->
  good (Float.add acc c) /\ ulps (Float.add acc c) <= cap (j + 1) * hour.
Proof.
  intros Hj Ga Ua Gc Uc. pose proof hour_pos as Hh. unfold cap in *.
  assert (C55 : 2 ^ 55 = 4 * 2 ^ 53) by reflexivity.
  assert (C52 : 2 ^ 53 = 2 * 2 ^ 52) by reflexivity.
  assert (P52 : 0 < 2 ^ 52) by reflexivity.
  destruct (Z_lt_le_dec (j + 1) (2 ^ 53)) as [Hlt|Hge].
  - replace (Z.min (4 * (j + 1)) (2 ^ 55)) with (4 * (j + 1)) by lia.
    replace (Z.min (4 * j) (2 ^ 55)) with (4 * j) in Ua by lia.
    replace (4 * (j + 1) * hour) with ((j + 1) * 2 ^ (2 + 1074)) by (rewrite pow_4h; ring).
    apply add_upper; trivial; try lia. rewrite pow_4h. lia.
  - destruct (Z.eq_dec (j + 1) (2 ^ 53)) as [Heq|Hne].
    + replace (Z.min (4 * (j + 1)) (2 ^ 55)) with (2 ^ 55) by lia.
      replace (Z.min (4 * j) (2 ^ 55)) with (4 * j) in Ua by lia.
      replace (2 ^ 55 * hour) with (2 ^ 52 * 2 ^ (3 + 1074)) by (rewrite pow_8h; lia).
      apply add_upper; trivial; try lia. rewrite pow_8h. nia.
    + replace (Z.min (4 * (j + 1)) (2 ^ 55)) with (2 ^ 55) by lia.
      replace (Z.min (4 * j) (2 ^ 55)) with (2 ^ 55) in Ua by lia.
      rewrite <- pow_cap in *.
      apply add_saturate; trivial.
      * rewrite pow_1076. lia.
      * rewrite pow_cap. nia.
Qed.

Lemma sum_upper ps :
  Forall (fun p => fst p <= snd p) ps ->
  forall acc j, 0 <= j -> good acc -> ulps acc <= cap j * hour ->
  let r := fold_left (fun acc p => Float.add acc (credited (hours_between (fst p) (snd p))))
                     ps acc in
  good r /\ ulps r <= cap (j + Z.of_nat (List.length ps)) * hour.
Proof.
  induction 1 as [|p ps Hp _ IH]; intros acc j Hj Ga Ua.
  - cbn [fold_left List.length]. now rewrite Z.add_0_r.
  - cbn [fold_left List.length].
    destruct (credited_upper _ (hours_between_canon _ _ Hp)) as [Gc Uc].
    rewrite pow_credit in Uc.
    destruct (add_step acc _ j Hj Ga Ua Gc Uc) as [G' U'].
    replace (j + Z.of_nat (S (List.length ps))) with (j + 1 + Z.of_nat (List.length ps)) by lia.
    apply IH; trivial. lia.
Qed.

Lemma round2_cap x k :
  0 <= k -> good x -> ulps x <= cap k * hour ->
  good (Float.round2 x) /\ ulps (Float.round2 x) <= cap k * hour.
Proof.
  intros Hk G U. pose proof hour_pos as Hh. unfold cap in *.
  assert (C55 : 2 ^ 55 = 4 * 2 ^ 53) by reflexivity.
  assert (C52 : 2 ^ 53 = 2 * 2 ^ 52) by reflexivity.
  assert (P52 : 0 < 2 ^ 52) by reflexivity.
  destruct (Z.eq_dec k 0) as [->|Hk0].
  { replace (Z.min (4 * 0) (2 ^ 55)) with 0 in * by lia.
    pose proof (ulps_nonneg x) as Un.
    destruct x as [[]|[]| |[] m e]; try contradiction.
    - cbn [Float.round2 good ulps]. split; [exact I|lia].
    - exfalso. cbn [ulps good] in *.
      assert (0 < 2 ^ (e + 1074)) by (apply Z.pow_pos_nonneg; lia). nia. }
  destruct (Z_lt_le_dec k (2 ^ 53)) as [Hlt|Hge].
  - replace (Z.min (4 * k) (2 ^ 55)) with (4 * k) in * by lia.
    replace (4 * k * hour) with (k * 2 ^ (2 + 1074)) in * by (rewrite pow_4h; ring).
    apply round2_upper; trivial; lia.
  - replace (Z.min (4 * k) (2 ^ 55)) with (2 ^ 55) in * by lia.
    replace (2 ^ 55 * hour) with (2 ^ 52 * 2 ^ (3 + 1074)) in * by (rewrite pow_8h; lia).
    apply round2_upper; trivial; lia.
Qed.

Lemma duration_upper ts :
  StronglySorted Z.le ts ->
  good (Float.round2 (sum_credited ts))
  /\ ulps (Float.round2 (sum_credited ts)) <= 4 * Z.of_nat (List.length (pairs ts)) * hour.
Proof.
  intros H. pose proof hour_pos as Hh.
  destruct (sum_upper _ (sorted_pairs _ H) Float.zero 0) as [G U]; try lia.
  { exact I. } { change (0 <= 0 * hour). lia. }
  rewrite Z.add_0_l in U.
  destruct (round2_cap _ _ (Nat2Z.is_nonneg _) G U) as [G' U']. split; trivial.
  etransitivity; [exact U'|]. unfold cap. nia.
Qed.

(** ** Properties of durations *)

Lemma pairs_length {A : Type} (l : list A) :
  List.length (pairs l) = (List.length l - 1)%nat.
Proof.
  unfold pairs. rewrite length_combine. destruct l as [|x l]; trivial.
  cbn [tl List.length]. lia.
Qed.

Lemma sorted_commit_pairs (l : list Commit) :
  StronglySorted by_timestamp l ->
  Forall (fun p => timestamp (fst p) <= timestamp (snd p)) (pairs l).
Proof.
  intros H. apply sorted_map_timestamp, sorted_pairs in H.
  rewrite pairs_map, Forall_map in H. exact H.
Qed.

Lemma MAX_GAP_HOURS_canon : canon MAX_GAP_HOURS.
Proof. rewrite MAX_GAP_HOURS_eq. cbn [canon]. split; [reflexivity | lia]. Qed.

Lemma credit_credited (gap : Float.float) :
  canon gap -> Reference.credit gap = credited gap.
Proof.
  intros H. unfold Reference.credit, credited.
  rewrite (leb_ltb gap MAX_GAP_HOURS)
    by (apply canon_compare; [exact H | exact MAX_GAP_HOURS_canon]).
  now destruct (Float.ltb MAX_GAP_HOURS gap).
Qed.

Lemma reference_duration_times (sorted : list Commit) :
  StronglySorted by_timestamp sorted ->
  Reference.duration sorted = Float.round2 (sum_credited (map timestamp sorted)).
Proof.
  intros H. unfold Reference.duration, Reference.gaps, sum_credited. f_equal.
  rewrite pairs_map, !fold_left_map_in. cbn [fst snd].
  apply fold_left_ext_in. intros acc p Hp. f_equal.
  apply credit_credited, hours_between_canon.
  pose proof (sorted_commit_pairs _ H) as Hf. rewrite Forall_forall in Hf.
  now apply Hf.
Qed.

Lemma calculate_duration_canon (s : Session) : canon (calculate_duration s).
Proof.
  destruct (end_commit s) as [e|] eqn:He.
  - rewrite (calculate_duration_pairs s e He).
    apply duration_canon, sorted_map_timestamp, sort_by_timestamp_sorted.
  - unfold calculate_duration. rewrite He. exact I.
Qed.

Lemma add_zero_r (x : Float.float) : canon x -> Float.add x Float.zero = x.
Proof. destruct x as [[]|[]| |[] m e]; try contradiction; reflexivity. Qed.

Lemma sum_durations_canon (ds : list Session) (acc : Float.float) :
  canon acc -> canon (fold_left Float.add (map calculate_duration ds) acc).
Proof.
  revert acc. induction ds as [|s ds IH]; intros acc H; trivial.
  cbn [map fold_left]. apply IH, add_canon; trivial. apply calculate_duration_canon.
Qed.

Lemma total_hours_canon (ss : list Session) : canon (total_hours ss).
Proof. apply sum_durations_canon. exact I. Qed.

Lemma billable_complete_only (ss : list Session) (acc : Float.float) :
  canon acc ->
  fold_left Float.add
    (map (fun s => if is_complete s then calculate_duration s else Float.zero) ss) acc
  = fold_left Float.add (map calculate_duration (filter is_complete ss)) acc.
Proof.
  revert acc. induction ss as [|s ss IH]; intros acc H; trivial.
  cbn [map filter fold_left]. destruct (is_complete s).
  - cbn [map fold_left]. apply IH, add_canon; trivial. apply calculate_duration_canon.
  - rewrite (add_zero_r acc H). now apply IH.
Qed.

Lemma to_Q_nonneg (x : Float.float) : canon x -> (0 <= Float.to_Q x)%Q.
Proof.
  destruct x as [[]|[]| |[] m e]; try contradiction; intros _;
    try apply Qle_refl.
  cbn [Float.to_Q]. apply Qmult_le_0_compat.
  - change (inject_Z 0 <= inject_Z (Z.pos m))%Q. now rewrite <- Zle_Qle.
  - now apply Qpower_0_le.
Qed.

Lemma to_Q_le (x : Float.float) (k : Z) :
  good x -> ulps x <= k * hour -> (Float.to_Q x <= inject_Z k)%Q.
Proof.
  intros G U. apply (Qmult_lt_0_le_reg_r _ _ (inject_Z hour)).
  - change (inject_Z 0 < inject_Z hour)%Q. rewrite <- Zlt_Qlt. exact hour_pos.
  - change hour with (2 ^ 1074) at 1. rewrite (to_Q_ulps x G).
    rewrite <- inject_Z_mult, <- Zle_Qle. exact U.
Qed.

Lemma good_finite (x : Float.float) : good x -> Float.is_finite x = true.
Proof. destruct x as [[]|[]| |[] m e]; try contradiction; reflexivity. Qed.

(** C2. For the sessions built from any commit stream, the total of
    [generate_time_log] is the sum of the durations of the Complete
    sessions, taken in order; it is also the sum in which every session
    takes part and an Incomplete one adds [0.0]; and the duration of every
    Incomplete session is [0.0], whatever commits it holds. *)
Theorem total_hours_complete_only (commits : list Commit) :
  let ss := build_sessions commits in
  total_hours ss =
    fold_left Float.add (map calculate_duration (filter is_complete ss)) Float.zero
  /\ total_hours ss = Reference.billable ss
  /\ total_hours ss = fold_left Float.add (map calculate_duration ss) Float.zero
  /\ map calculate_duration (filter (fun s => negb (is_complete s)) ss) =
     map (fun _ => Float.zero) (filter (fun s => negb (is_complete s)) ss).
Proof.
  intros ss. split; [reflexivity|]. split; [|split].
  - unfold Reference.billable, total_hours. symmetry.
    apply billable_complete_only. exact I.
  - unfold total_hours. rewrite <- (billable_complete_only ss Float.zero I).
    f_equal. apply map_ext. intros s. destruct (is_complete s) eqn:E; trivial.
    symmetry. now apply calculate_duration_incomplete.
  - induction ss as [|s l IH]; trivial. cbn [filter].
    destruct (is_complete s) eqn:E; cbn [negb map]; trivial.
    now rewrite IH, (calculate_duration_incomplete s E).
Qed.

(** C8. Whatever the commits, however many and in whatever order of
    timestamps, the total billable hours of the sessions built from them
    are not negative (and not NaN). *)
Theorem total_hours_nonneg (commits : list Commit) :
  Float.leb Float.zero (total_hours (build_sessions commits)) = true
  /\ (0 <= Float.to_Q (total_hours (build_sessions commits)))%Q.
Proof.
  pose proof (total_hours_canon (build_sessions commits)) as H. split.
  - now apply leb_zero_canon.
  - now apply to_Q_nonneg.
Qed.

(** C9. A Complete session of [n] commits (start, intermediates, end) has
    a duration that is finite, not negative and at most [4 * (n - 1)]
    hours; and every credited gap is at most 4 hours. *)
Theorem duration_at_most_four_hours_per_gap (s : Session) (e : Commit) :
  end_commit s = Some e ->
  let n := (2 + List.length (intermediate_commits s))%nat in
  Float.is_finite (calculate_duration s) = true
  /\ (0 <= Float.to_Q (calculate_duration s))%Q
  /\ (Float.to_Q (calculate_duration s) <= 4 * inject_Z (Z.of_nat n - 1))%Q
  /\ (forall (a : Commit) (h m tg : string) (d : nat),
        (Float.to_Q
           (credited (gap_hours a (mkCommit h (timestamp a + Z.of_nat d) m tg))) <= 4)%Q).
Proof.
  intros He n.
  set (all := sort_by_timestamp ([start_commit s] ++ intermediate_commits s ++ [e])).
  assert (Hs : StronglySorted Z.le (map timestamp all))
    by apply sorted_map_timestamp, sort_by_timestamp_sorted.
  destruct (duration_upper _ Hs) as [G U]. unfold all in G, U.
  rewrite <- (calculate_duration_pairs s e He) in G, U. fold all in U.
  assert (Hn : Z.of_nat (List.length (pairs (map timestamp all))) = Z.of_nat n - 1).
  { rewrite pairs_length, length_map. unfold all.
    rewrite sort_by_timestamp_length, !length_app. cbn [List.length]. lia. }
  rewrite Hn in U. repeat split.
  - now apply good_finite.
  - apply to_Q_nonneg, calculate_duration_canon.
  - change (4 * inject_Z (Z.of_nat n - 1))%Q
      with (inject_Z 4 * inject_Z (Z.of_nat n - 1))%Q.
    rewrite <- inject_Z_mult. now apply to_Q_le.
  - intros a h m tg d.
    assert (Hc : canon (gap_hours a (mkCommit h (timestamp a + Z.of_nat d) m tg))).
    { apply hours_between_canon. cbn [timestamp]. lia. }
    destruct (credited_upper _ Hc) as [Gc Uc]. rewrite pow_credit in Uc.
    now apply (to_Q_le _ 4).
Qed.

(** ** The model at sample inputs *)

(** A closed session with gaps of one hour lasts [2.0] hours. *)
Example closed_session_two_hours :
  build_sessions [Sample.A; Sample.B; Sample.C] = [Sample.closed]
  /\ calculate_duration Sample.closed = Float.of_Z 2.
Proof. split; vm_compute; reflexivity. Qed.

(** A gap of eleven hours is credited as one hour. *)
Example capped_gap_one_hour :
  map calculate_duration (build_sessions [Sample.D; Sample.E]) = [Float.of_Z 1].
Proof. vm_compute. reflexivity. Qed.

(** [round(18 / 3600, 2)] is [0.01]: the float nearest to [0.005] is above
    the half; [round(2.675, 2)] is [2.67]: the float nearest to [2.675] is
    below it; [round(0.125, 2)] is [0.12]: an exact tie goes to even. *)
Example round2_samples :
  Float.round2 (Float.div (Float.of_Z 18) (Float.of_Z 3600))
    = Float.div (Float.of_Z 1) (Float.of_Z 100)
  /\ Float.round2 (Float.div (Float.of_Z 2675) (Float.of_Z 1000))
    = Float.div (Float.of_Z 267) (Float.of_Z 100)
  /\ Float.round2 (Float.div (Float.of_Z 1) (Float.of_Z 8))
    = Float.div (Float.of_Z 12) (Float.of_Z 100).
Proof. repeat split; vm_compute; reflexivity. Qed.

(** Of the output of [git log], the white space at the end is dropped with
    the last line feed, the lines without a tag or without three fields are
    skipped, the hash is cut to eight characters, the date with a [Z] is
    read as one with an offset, and the commits come out oldest first; a
    date that cannot be read on a line with a tag stops everything. *)
Example get_sred_commits_sample :
  get_sred_commits Samples.dates Samples.stdout
  = Some [mkCommit "a1b2c3d4" 1736413200 "exp:  EXP-001 cache warmup" "exp:";
          mkCommit "c3d4e5f6" 1736420400 "Succeed: warmup helps" "succeed:"]
  /\ get_sred_commits (fun _ => None) Samples.stdout = None
  /\ get_sred_commits (fun _ => None) "0123456789abcdef|yesterday|Merge branch main"
     = Some [].
Proof. repeat split; reflexivity. Qed.

(** ** The theorems at sample inputs *)

Lemma supersession_witness :
  current_session (run [Sample.A; Sample.B]) =
    Some (mkSession "SESSION-001" Sample.A None [Sample.B])
  /\ is_session_start Sample.D = true
  /\ sessions (run ([Sample.A; Sample.B] ++ [Sample.D])) =
       sessions (run [Sample.A; Sample.B])
         ++ [mkSession "SESSION-001" Sample.A None [Sample.B]]
  /\ calculate_duration (mkSession "SESSION-001" Sample.A None [Sample.B]) = Float.zero.
Proof.
  assert (H1 : current_session (run [Sample.A; Sample.B]) =
               Some (mkSession "SESSION-001" Sample.A None [Sample.B])) by reflexivity.
  assert (H2 : is_session_start Sample.D = true) by reflexivity.
  destruct (supersession [Sample.A; Sample.B] _ Sample.D H1 H2)
    as [(_ & Hd & Hs & _) _].
  split; [exact H1|]. split; [exact H2|]. split; [exact Hs | exact Hd].
Defined.

Lemma orphan_end_witness :
  current_session (run [Sample.A; Sample.C]) = None
  /\ is_session_end Sample.E = true
  /\ sessions (run ([Sample.A; Sample.C] ++ [Sample.E])) =
       sessions (run [Sample.A; Sample.C])
         ++ [mkSession "SESSION-002" Sample.E (Some Sample.E) []]
  /\ current_session (run ([Sample.A; Sample.C] ++ [Sample.E])) = None
  /\ calculate_duration (mkSession "SESSION-002" Sample.E (Some Sample.E) []) = Float.zero.
Proof.
  assert (H1 : current_session (run [Sample.A; Sample.C]) = None) by reflexivity.
  assert (H2 : is_session_end Sample.E = true) by reflexivity.
  destruct (orphan_end [Sample.A; Sample.C] Sample.E H1 H2)
    as (Hs & Hc & _ & _ & Hd & _).
  split; [exact H1|]. split; [exact H2|]. split; [exact Hs|].
  split; [exact Hc | exact Hd].
Defined.

Lemma idle_intermediate_dropped_witness :
  current_session (run [Sample.A; Sample.C]) = None
  /\ is_session_start Sample.B = false
  /\ is_session_end Sample.B = false
  /\ build_sessions ([Sample.A; Sample.C] ++ Sample.B :: [Sample.D; Sample.E]) =
     build_sessions ([Sample.A; Sample.C] ++ [Sample.D; Sample.E]).
Proof.
  assert (H1 : current_session (run [Sample.A; Sample.C]) = None) by reflexivity.
  assert (H2 : is_session_start Sample.B = false) by reflexivity.
  assert (H3 : is_session_end Sample.B = false) by reflexivity.
  destruct (idle_intermediate_dropped [Sample.A; Sample.C] [Sample.D; Sample.E]
              Sample.B H1 H2 H3) as (_ & _ & H).
  split; [exact H1|]. split; [exact H2|]. split; [exact H3 | exact H].
Defined.

Lemma duration_at_most_four_hours_per_gap_witness :
  end_commit Sample.closed = Some Sample.C
  /\ Float.is_finite (calculate_duration Sample.closed) = true
  /\ (Float.to_Q (calculate_duration Sample.closed) <= 4 * inject_Z (Z.of_nat 3 - 1))%Q.
Proof.
  assert (H1 : end_commit Sample.closed = Some Sample.C) by reflexivity.
  destruct (duration_at_most_four_hours_per_gap Sample.closed Sample.C H1)
    as (Hf & _ & Hu & _).
  split; [exact H1|]. split; [exact Hf | exact Hu].
Defined.

(** * Part IV: further properties *)

(** ** Sessions as the builder emits them *)

Lemma step_sessions_grow (b : Builder) (c : Commit) :
  exists l, sessions (step b c) = sessions b ++ l.
Proof.
  unfold step.
  destruct (is_session_start c).
  - destruct (open_session b); cbn [sessions]; eauto. exists []. now rewrite List.app_nil_r.
  - destruct (is_session_end c).
    + destruct (open_session b); cbn [sessions]; eauto.
    + destruct (current_session b); cbn [sessions]; exists []; now rewrite List.app_nil_r.
Qed.

Lemma fold_sessions_grow (q : list Commit) (b : Builder) :
  exists l, sessions (fold_left step q b) = sessions b ++ l.
Proof.
  revert b. induction q as [|c q IH]; intros b; cbn [fold_left].
  - exists []. now rewrite List.app_nil_r.
  - destruct (IH (step b c)) as [l1 H1]. destruct (step_sessions_grow b c) as [l2 H2].
    exists (l2 ++ l1). now rewrite H1, H2, <- app_assoc.
Qed.

(** X1. Emitted sessions are final: what the loop has appended to
    [sessions] after a prefix of the stream is a prefix of what it holds
    after the whole stream, and of the list [build_sessions] returns. *)
Theorem emitted_sessions_are_final (p q : list Commit) :
  exists l, sessions (run (p ++ q)) = sessions (run p) ++ l
            /\ exists l', build_sessions (p ++ q) = sessions (run p) ++ l ++ l'.
Proof.
  rewrite run_app. destruct (fold_sessions_grow q (run p)) as [l H].
  exists l. split; trivial. unfold build_sessions, finish. rewrite run_app.
  destruct (current_session _) as [cur|].
  - exists [cur]. now rewrite H, app_assoc.
  - exists []. now rewrite H, List.app_nil_r.
Qed.

Lemma is_intermediate_split (c : Commit) :
  is_intermediate c = true -> is_session_start c = false /\ is_session_end c = false.
Proof.
  unfold is_intermediate. intros H. apply andb_true_iff in H. destruct H as [H1 H2].
  now destruct (is_session_start c), (is_session_end c).
Qed.

Lemma end_is_not_start (c : Commit) :
  is_session_end c = true -> is_session_start c = false.
Proof.
  intros H. destruct (is_session_start c) eqn:E; trivial.
  apply start_is_not_end in E. congruence.
Qed.

Lemma fold_intermediates (ms : list Commit) :
  forallb is_intermediate ms = true ->
  forall (ss : list Session) (id : string) (s : Commit) (l : list Commit) (k : nat),
    fold_left step ms (mkBuilder ss (Some (mkSession id s None l)) k)
    = mkBuilder ss (Some (mkSession id s None (l ++ ms))) k.
Proof.
  induction ms as [|m ms IH]; intros H ss id s l k; cbn [fold_left].
  - now rewrite List.app_nil_r.
  - cbn [forallb] in H. apply andb_true_iff in H. destruct H as [Hm Hms].
    destruct (is_intermediate_split m Hm) as [Hs He].
    assert (H1 : step (mkBuilder ss (Some (mkSession id s None l)) k) m =
                 mkBuilder ss (Some (mkSession id s None (l ++ [m]))) k).
    { unfold step. now rewrite Hs, He. }
    rewrite H1, (IH Hms). now rewrite <- app_assoc.
Qed.

(** X2. A well-formed bracket: from an idle state, a start commit, any
    intermediate commits and an end commit emit exactly one Complete session
    that holds all of them in order, and leave the machine idle. *)
Theorem bracket_gives_one_session (p : list Commit) (s : Commit) (ms : list Commit)
    (e : Commit) :
  current_session (run p) = None ->
  is_session_start s = true ->
  forallb is_intermediate ms = true ->
  is_session_end e = true ->
  run (p ++ s :: ms ++ [e]) =
    mkBuilder
      (sessions (run p)
         ++ [mkSession (new_session_id (session_counter (run p))) s (Some e) ms])
      None
      (S (session_counter (run p))).
Proof.
  intros Hidle Hs Hms He.
  rewrite run_app. cbn [fold_left]. rewrite fold_left_app. cbn [fold_left].
  assert (H1 : step (run p) s =
               mkBuilder (sessions (run p))
                 (Some (mkSession (new_session_id (session_counter (run p))) s None []))
                 (S (session_counter (run p)))).
  { unfold step, open_session. now rewrite Hs, Hidle. }
  rewrite H1, (fold_intermediates ms Hms). cbn [app].
  unfold step. rewrite (end_is_not_start e He), He. reflexivity.
Qed.

(** Induction over the turns of the builder's loop, on the list that
    [build_sessions] would return after each of them. *)
Lemma build_sessions_ind (P : list Commit -> list Session -> Prop) :
  P [] [] ->
  (forall p ss c id, P p ss -> is_session_start c = true ->
     P (p ++ [c]) (ss ++ [mkSession id c None []])) ->
  (forall p ss cur c, P p (ss ++ [cur]) -> end_commit cur = None ->
     is_session_end c = true ->
     P (p ++ [c])
       (ss ++ [mkSession (session_id cur) (start_commit cur) (Some c)
                 (intermediate_commits cur)])) ->
  (forall p ss c id, P p ss -> is_session_end c = true ->
     P (p ++ [c]) (ss ++ [mkSession id c (Some c) []])) ->
  (forall p ss cur c, P p (ss ++ [cur]) -> end_commit cur = None ->
     is_intermediate c = true ->
     P (p ++ [c])
       (ss ++ [mkSession (session_id cur) (start_commit cur) (end_commit cur)
                 (intermediate_commits cur ++ [c])])) ->
  (forall p ss c, P p ss -> is_intermediate c = true -> P (p ++ [c]) ss) ->
  forall cs, P cs (build_sessions cs).
Proof.
  intros H0 Hstart Hclose Horphan Hadd Hdrop cs. unfold build_sessions.
  induction cs as [|c cs IH] using rev_ind; [exact H0|].
  rewrite run_snoc. pose proof (Inv_run cs) as I.
  pose proof (open_session_current _ _ I) as Ho.
  pose proof (inv_open _ _ I) as Hopen.
  unfold step. rewrite Ho.
  destruct (is_session_start c) eqn:Es.
  - assert (Hf : (match current_session (run cs) with
                  | Some cur => sessions (run cs) ++ [cur]
                  | None => sessions (run cs) end) = finish (run cs)) by reflexivity.
    rewrite Hf. unfold finish at 1. cbn [current_session sessions].
    now apply Hstart.
  - destruct (is_session_end c) eqn:Ee.
    + unfold finish in IH. destruct (current_session (run cs)) as [cur|] eqn:Ec.
      * unfold finish. cbn [current_session sessions].
        apply Hclose; trivial. now apply Hopen.
      * unfold finish. cbn [current_session sessions].
        now apply Horphan.
    + assert (Hi : is_intermediate c = true) by (unfold is_intermediate; now rewrite Es, Ee).
      unfold finish in IH. destruct (current_session (run cs)) as [cur|] eqn:Ec.
      * unfold finish. cbn [current_session sessions].
        apply Hadd; trivial. now apply Hopen.
      * unfold finish. rewrite Ec. now apply Hdrop.
Qed.

Lemma Forall_snoc {A : Type} (P : A -> Prop) (l : list A) (x : A) :
  Forall P (l ++ [x]) <-> Forall P l /\ P x.
Proof.
  rewrite Forall_app. split; intros [H1 H2]; split; trivial.
  - now inversion H2.
  - now constructor.
Qed.

Lemma shape_aux (cs : list Commit) : Forall session_shape (build_sessions cs).
Proof.
apply (build_sessions_ind (fun _ ss => Forall session_shape ss)).
  - constructor.
  - intros p ss c id H Hc. apply Forall_snoc. split; trivial. left. now repeat split.
  - intros p ss cur c H Hn Hc. apply Forall_snoc in H. destruct H as [H Hcur].
    apply Forall_snoc. split; trivial.
    destruct Hcur as [(Hs & Hi & _)|(_ & He & _)]; [|congruence].
    left. now repeat split.
  - intros p ss c id H Hc. apply Forall_snoc. split; trivial. right. now repeat split.
  - intros p ss cur c H Hn Hc. apply Forall_snoc in H. destruct H as [H Hcur].
    apply Forall_snoc. split; trivial.
    destruct Hcur as [(Hs & Hi & He)|(_ & He & _)]; [|congruence].
    left. cbn [start_commit intermediate_commits end_commit]. repeat split; trivial.
    rewrite forallb_app, Hi. cbn [forallb]. now rewrite Hc.
  - trivial.
Qed.

(** X3. Every session that [build_sessions] returns has one of two shapes:
    a start commit, then intermediate commits, then an end commit or none;
    or a lone end commit that is both its start and its end. *)
Theorem sessions_have_shape (cs : list Commit) :
  Forall session_shape (build_sessions cs).
Proof. apply shape_aux. Qed.

Lemma members_weaken (p : list Commit) (c : Commit) (ss : list Session) :
  Forall (fun s => incl (session_commits s) p) ss ->
  Forall (fun s => incl (session_commits s) (p ++ [c])) ss.
Proof.
  intros H. eapply Forall_impl; [|exact H]. intros s Hi. now apply incl_appl.
Qed.

Lemma in_snoc {A : Type} (x c : A) (p : list A) : In x (p ++ [c]) <-> In x p \/ x = c.
Proof.
  rewrite in_app_iff. cbn [In]. intuition.
Qed.

Lemma start_commits_aux (cs : list Commit) :
  Forall (fun s => incl (session_commits s) cs) (build_sessions cs)
  /\ filter is_session_start (map start_commit (build_sessions cs))
     = filter is_session_start cs.
Proof.
  apply (build_sessions_ind (fun p ss =>
    Forall (fun s => incl (session_commits s) p) ss
    /\ filter is_session_start (map start_commit ss) = filter is_session_start p)).
  - split; [constructor | reflexivity].
  - intros p ss c id (Hm & Hs) Hc. split.
    + apply Forall_snoc. split; [now apply members_weaken|].
      intros x [<-|[]]. apply in_snoc. now right.
    + rewrite map_app, !filter_app. cbn [map filter start_commit]. now rewrite Hc, Hs.
  - intros p ss cur c (Hm & Hs) Hn Hc. apply Forall_snoc in Hm. destruct Hm as [Hm Hcur].
    split.
    + apply Forall_snoc. split; [now apply members_weaken|].
      unfold session_commits in *. rewrite Hn in Hcur.
      cbn [start_commit intermediate_commits end_commit].
      assert (Hin : forall y, start_commit cur = y \/ In y (intermediate_commits cur) ->
                          In y p).
      { intros y Hy. apply Hcur. rewrite !in_app_iff. cbn [In]. tauto. }
      intros x Hx. apply in_snoc. rewrite !in_app_iff in Hx. cbn [In] in Hx.
      intuition (subst; auto).
    + rewrite map_app, !filter_app in *. cbn [map filter start_commit] in *.
      now rewrite (end_is_not_start c Hc), List.app_nil_r.
  - intros p ss c id (Hm & Hs) Hc. split.
    + apply Forall_snoc. split; [now apply members_weaken|].
      intros x [<-|[<-|[]]]; apply in_snoc; now right.
    + rewrite map_app, !filter_app. cbn [map filter start_commit].
      now rewrite (end_is_not_start c Hc), Hs.
  - intros p ss cur c (Hm & Hs) Hn Hc. apply Forall_snoc in Hm. destruct Hm as [Hm Hcur].
    destruct (is_intermediate_split c Hc) as [Hcs Hce]. split.
    + apply Forall_snoc. split; [now apply members_weaken|].
      unfold session_commits in *. rewrite Hn in *.
      cbn [start_commit intermediate_commits end_commit].
      assert (Hin : forall y, start_commit cur = y \/ In y (intermediate_commits cur) ->
                          In y p).
      { intros y Hy. apply Hcur. rewrite !in_app_iff. cbn [In]. tauto. }
      intros x Hx. apply in_snoc. rewrite !in_app_iff in Hx. cbn [In] in Hx.
      intuition (subst; auto).
    + rewrite map_app, !filter_app in *. cbn [map filter start_commit] in *.
      now rewrite Hcs, List.app_nil_r.
  - intros p ss c (Hm & Hs) Hc. destruct (is_intermediate_split c Hc) as [Hcs Hce].
    split; [now apply members_weaken|].
    rewrite filter_app. cbn [filter]. now rewrite Hcs, List.app_nil_r.
Qed.

(** X4. Nothing is invented and no start commit is lost: the commits of
    every session come from the stream, and the start commits of the
    stream are, in order, the start commits of the sessions. *)
Theorem start_commits_conserved (cs : list Commit) :
  Forall (fun s => incl (session_commits s) cs) (build_sessions cs)
  /\ filter is_session_start (map start_commit (build_sessions cs))
     = filter is_session_start cs.
Proof. apply start_commits_aux. Qed.

Lemma sorted_snoc_inv {A : Type} (R : A -> A -> Prop) (p : list A) (c : A) :
  StronglySorted R (p ++ [c]) -> StronglySorted R p /\ Forall (fun x => R x c) p.
Proof.
  induction p as [|x p IH]; cbn [app]; intros H.
  - split; constructor.
  - inversion H as [|y l Hs Hf]; subst. destruct (IH Hs) as [Hp Hc].
    apply Forall_app in Hf. destruct Hf as [Hf Hxc]. split.
    + now constructor.
    + constructor; trivial. now inversion Hxc.
Qed.

Lemma sorted_snoc {A : Type} (R : A -> A -> Prop) (l : list A) (c : A) :
  StronglySorted R l -> Forall (fun x => R x c) l -> StronglySorted R (l ++ [c]).
Proof.
  induction 1 as [|x l Hs IH Hx]; intros Hc; cbn [app].
  - repeat constructor.
  - inversion Hc; subst. constructor; [now apply IH|].
    apply Forall_app. split; trivial. now constructor.
Qed.

Lemma sort_sorted_id (l : list Commit) :
  StronglySorted by_timestamp l -> sort_by_timestamp l = l.
Proof.
  induction 1 as [|x l Hs IH Hx]; trivial.
  cbn [sort_by_timestamp fold_right]. fold (sort_by_timestamp l). rewrite IH.
  destruct l as [|h t]; trivial. cbn [insert_by_timestamp].
  inversion Hx as [|? ? Hxh _]; subst. unfold by_timestamp in Hxh.
  apply Z.leb_le in Hxh. now rewrite Hxh.
Qed.

Lemma chronological_aux (cs : list Commit) :
  StronglySorted by_timestamp cs ->
  Forall (fun s => StronglySorted by_timestamp (session_commits s)
                   /\ incl (session_commits s) cs) (build_sessions cs).
Proof.
  apply (build_sessions_ind (fun p ss =>
    StronglySorted by_timestamp p ->
    Forall (fun s => StronglySorted by_timestamp (session_commits s)
                     /\ incl (session_commits s) p) ss)).
  - constructor.
  - intros p ss c id IH Hc Hs. destruct (sorted_snoc_inv _ _ _ Hs) as [Hp Hle].
    apply Forall_snoc. split.
    + eapply Forall_impl; [|exact (IH Hp)]. intros s [H1 H2]. split; trivial.
      now apply incl_appl.
    + split; [repeat constructor|]. intros x [<-|[]]. apply in_snoc. now right.
  - intros p ss cur c IH Hn Hc Hs. destruct (sorted_snoc_inv _ _ _ Hs) as [Hp Hle].
    specialize (IH Hp). apply Forall_snoc in IH. destruct IH as [IH [Hcs Hci]].
    apply Forall_snoc. split.
    + eapply Forall_impl; [|exact IH]. intros s [H1 H2]. split; trivial.
      now apply incl_appl.
    + unfold session_commits in *. rewrite Hn in *.
      cbn [start_commit intermediate_commits end_commit].
      rewrite List.app_nil_r in *. rewrite app_assoc. split.
      * apply sorted_snoc; trivial. rewrite Forall_forall in *.
        intros x Hx. apply Hle, Hci, Hx.
      * intros x Hx. apply in_snoc. apply in_snoc in Hx.
        destruct Hx as [Hx|Hx]; [left; now apply Hci | now right].
  - intros p ss c id IH Hc Hs. destruct (sorted_snoc_inv _ _ _ Hs) as [Hp Hle].
    apply Forall_snoc. split.
    + eapply Forall_impl; [|exact (IH Hp)]. intros s [H1 H2]. split; trivial.
      now apply incl_appl.
    + unfold session_commits. cbn [start_commit intermediate_commits end_commit app].
      split.
      * repeat constructor. unfold by_timestamp. lia.
      * intros x [<-|[<-|[]]]; apply in_snoc; now right.
  - intros p ss cur c IH Hn Hc Hs. destruct (sorted_snoc_inv _ _ _ Hs) as [Hp Hle].
    specialize (IH Hp). apply Forall_snoc in IH. destruct IH as [IH [Hcs Hci]].
    apply Forall_snoc. split.
    + eapply Forall_impl; [|exact IH]. intros s [H1 H2]. split; trivial.
      now apply incl_appl.
    + unfold session_commits in *. rewrite Hn in *.
      cbn [start_commit intermediate_commits end_commit].
      rewrite List.app_nil_r in *. rewrite app_assoc. split.
      * apply sorted_snoc; trivial. rewrite Forall_forall in *.
        intros x Hx. apply Hle, Hci, Hx.
      * intros x Hx. apply in_snoc. apply in_snoc in Hx.
        destruct Hx as [Hx|Hx]; [left; now apply Hci | now right].
  - intros p ss c IH Hc Hs. destruct (sorted_snoc_inv _ _ _ Hs) as [Hp Hle].
    eapply Forall_impl; [|exact (IH Hp)]. intros s [H1 H2]. split; trivial.
    now apply incl_appl.
Qed.

Lemma session_commits_complete (s : Session) (e : Commit) :
  end_commit s = Some e ->
  session_commits s = [start_commit s] ++ intermediate_commits s ++ [e].
Proof. intros H. unfold session_commits. now rewrite H. Qed.

(** X5. For a stream in ascending order of timestamp, as
    [get_sred_commits] hands it over, every session comes out with its
    commits in ascending order: start, intermediates, end.  The sorts of
    [calculate_duration] and of the timeline then change nothing, and the
    duration of a Complete session is the rounded sum of the credited gaps
    between its commits as the loop met them. *)
Theorem sorted_stream_sessions_chronological (cs : list Commit) (s : Session) :
  StronglySorted by_timestamp cs ->
  In s (build_sessions cs) ->
  StronglySorted by_timestamp (session_commits s)
  /\ sort_by_timestamp (session_commits s) = session_commits s
  /\ calculate_duration s
     = if is_complete s
       then Float.round2 (sum_credited (map timestamp (session_commits s)))
       else Float.zero.
Proof.
  intros Hs Hin.
  pose proof (chronological_aux cs Hs) as H. rewrite Forall_forall in H.
  destruct (H s Hin) as [Hsorted _]. split; [exact Hsorted|]. split.
  - now apply sort_sorted_id.
  - unfold is_complete. destruct (end_commit s) as [e|] eqn:He.
    + rewrite (calculate_duration_pairs s e He).
      rewrite <- (session_commits_complete s e He).
      now rewrite (sort_sorted_id _ Hsorted).
    + unfold calculate_duration. now rewrite He.
Qed.

Lemma end_commits_length (ss : list Session) :
  List.length (end_commits ss) = List.length (filter is_complete ss).
Proof.
  induction ss as [|s ss IH]; trivial. unfold end_commits in *. cbn [flat_map filter].
  unfold is_complete at 1. destruct (end_commit s); cbn [app List.length]; now rewrite IH.
Qed.

Lemma filter_length_le_impl {A : Type} (f g : A -> bool) (l : list A) :
  (forall x, In x l -> f x = true -> g x = true) ->
  (List.length (filter f l) <= List.length (filter g l))%nat.
Proof.
  induction l as [|x l IH]; intros H; trivial. cbn [filter].
  assert (IH' := IH (fun y Hy => H y (or_intror Hy))).
  destruct (f x) eqn:Ef.
  - rewrite (H x (or_introl eq_refl) Ef). cbn [List.length]. lia.
  - destruct (g x); cbn [List.length]; lia.
Qed.

Lemma filter_disjoint_length {A : Type} (f g : A -> bool) (l : list A) :
  (forall x, f x = true -> g x = false) ->
  (List.length (filter f l) + List.length (filter g l) <= List.length l)%nat.
Proof.
  intros H. induction l as [|x l IH]; trivial. cbn [filter List.length].
  destruct (f x) eqn:Ef.
  - rewrite (H x Ef). cbn [List.length]. lia.
  - destruct (g x); cbn [List.length]; lia.
Qed.

Lemma filter_partition_length {A : Type} (f : A -> bool) (l : list A) :
  (List.length (filter f l) + List.length (filter (fun x => negb (f x)) l)
   = List.length l)%nat.
Proof.
  induction l as [|x l IH]; trivial. cbn [filter List.length].
  destruct (f x); cbn [negb List.length]; lia.
Qed.

(** X6. Counting sessions: there are as many Complete sessions as end
    commits in the stream, at most as many Incomplete sessions as start
    commits, and never more sessions than commits. *)
Theorem session_counts (cs : list Commit) :
  List.length (filter is_complete (build_sessions cs))
    = List.length (filter is_session_end cs)
  /\ (List.length (filter (fun s => negb (is_complete s)) (build_sessions cs))
      <= List.length (filter is_session_start cs))%nat
  /\ (List.length (build_sessions cs) <= List.length cs)%nat.
Proof.
  assert (H1 : List.length (filter is_complete (build_sessions cs))
               = List.length (filter is_session_end cs)).
  { rewrite <- end_commits_length. unfold build_sessions.
    now rewrite (inv_ends _ _ (Inv_run cs)). }
  assert (H2 : (List.length (filter (fun s => negb (is_complete s)) (build_sessions cs))
                <= List.length (filter is_session_start cs))%nat).
  { destruct (start_commits_aux cs) as [_ Hs]. rewrite <- Hs.
    assert (Hmf : forall l, filter is_session_start (map start_commit l)
                   = map start_commit
                       (filter (fun s => is_session_start (start_commit s)) l)).
    { induction l as [|s l IH]; trivial. cbn [map filter].
      destruct (is_session_start (start_commit s)); cbn [map]; now rewrite IH. }
    rewrite Hmf, length_map. apply filter_length_le_impl.
    intros s Hin Hinc. pose proof (shape_aux cs) as Hsh. rewrite Forall_forall in Hsh.
    destruct (Hsh s Hin) as [(Hst & _)|(_ & He & _)]; trivial.
    unfold is_complete in Hinc. rewrite He in Hinc. discriminate. }
  split; trivial. split; trivial.
  rewrite <- (filter_partition_length is_complete (build_sessions cs)), H1.
  pose proof (filter_disjoint_length is_session_start is_session_end cs start_is_not_end).
  lia.
Qed.

Lemma take_length (n : nat) (s : string) : (String.length (Str.take n s) <= n)%nat.
Proof.
  unfold Str.take. revert s. induction n as [|n IH]; intros [|a s]; cbn; try lia.
  specialize (IH s). lia.
Qed.

Lemma classify_in (msg t : string) :
  classify msg = Some t -> In t SRED_TAGS /\ Str.startswith (Str.lower msg) t = true.
Proof. unfold classify. intros H. apply find_some in H. exact H. Qed.

Lemma get_sred_commits_tagged (f : string -> option Z) (stdout : string)
    (commits : list Commit) :
  get_sred_commits f stdout = Some commits ->
  StronglySorted by_timestamp commits
  /\ Forall (fun c => classify (message c) = Some (tag c)) commits.
Proof.
  rewrite get_sred_commits_eq.
  destruct (existsb (raises f) (stdout_lines stdout)); [discriminate|].
  intros H. injection H as <-. split; [apply sort_by_timestamp_sorted|].
  apply Forall_forall. intros c Hin.
  apply (Permutation_in _ (sort_by_timestamp_perm _)) in Hin.
  apply in_flat_map in Hin. destruct Hin as (line & _ & Hc).
  now destruct (appended_fields f line c Hc) as (h & d & _ & _ & _ & Hcl & _).
Qed.

(** X7. What [get_sred_commits] does with the output of [git log].  When
    it returns, the commits are in ascending order of timestamp; each is
    made of one line of the output, once the white space around the whole
    output is gone: the subject is its message, the date with [Z] replaced
    is its timestamp, the first eight characters of the hash are its hash,
    and its tag is the tag of [SRED_TAGS] that the tag loop finds at the
    start of the lowered message.  It raises instead when, and only when,
    a line with a tagged subject has a date that cannot be read. *)
Theorem get_sred_commits_output (fromisoformat : string -> option Z) (stdout : string) :
  match get_sred_commits fromisoformat stdout with
  | Some commits =>
      StronglySorted by_timestamp commits
      /\ Forall (fun c =>
           (exists line h d,
              In line (stdout_lines stdout)
              /\ parse_line line = Some (h, d, message c)
              /\ hash c = Str.take 8 h
              /\ fromisoformat (replace_Z d) = Some (timestamp c))
           /\ (String.length (hash c) <= 8)%nat
           /\ In (tag c) SRED_TAGS
           /\ Str.startswith (Str.lower (message c)) (tag c) = true
           /\ classify (message c) = Some (tag c))
         commits
      /\ Forall (fun line =>
           forall h d m, parse_line line = Some (h, d, m) -> classify m <> None ->
                         fromisoformat (replace_Z d) <> None)
         (stdout_lines stdout)
  | None =>
      exists line h d m,
        In line (stdout_lines stdout)
        /\ parse_line line = Some (h, d, m)
        /\ classify m <> None
        /\ fromisoformat (replace_Z d) = None
  end.
Proof.
  rewrite get_sred_commits_eq.
  destruct (existsb (raises fromisoformat) (stdout_lines stdout)) eqn:E.
  - apply existsb_exists in E. destruct E as (line & Hin & Hr).
    unfold raises, read_line in Hr.
    destruct (parse_line line) as [[[h d] m]|] eqn:Hp; [|discriminate].
    destruct (classify m) as [t|] eqn:Ec; [|discriminate].
    destruct (String.eqb t EmptyString); [discriminate|].
    destruct (fromisoformat (replace_Z d)) as [ts|] eqn:Ef; [discriminate|].
    exists line, h, d, m. rewrite Ec. repeat split; trivial. discriminate.
  - split; [apply sort_by_timestamp_sorted|]. split.
    + apply Forall_forall. intros c Hin.
      apply (Permutation_in _ (sort_by_timestamp_perm _)) in Hin.
      apply in_flat_map in Hin. destruct Hin as (line & Hl & Hc).
      destruct (appended_fields _ line c Hc) as (h & d & Hp & Hh & Hf & Hcl & _).
      split; [exists line, h, d; auto|]. split; [rewrite Hh; apply take_length|].
      destruct (classify_in _ _ Hcl). auto.
    + apply Forall_forall. intros line Hl h d m Hp Hc Hf.
      assert (Hr : raises fromisoformat line = true).
      { unfold raises, read_line. rewrite Hp.
        destruct (classify m) as [t|] eqn:Ec; [|contradiction].
        destruct (classify_in _ _ Ec) as [Ht _].
        destruct (String.eqb_spec t EmptyString) as [->|_].
        - unfold SRED_TAGS in Ht. cbn [In] in Ht.
          repeat (destruct Ht as [Ht|Ht]; [discriminate Ht|]). destruct Ht.
        - now rewrite Hf. }
      assert (Hex : existsb (raises fromisoformat) (stdout_lines stdout) = true).
      { apply existsb_exists. now exists line. }
      congruence.
Qed.

Lemma insert_by_timestamp_filter (t : Z) (c : Commit) (l : list Commit) :
  filter (fun x => timestamp x =? t) (insert_by_timestamp c l)
  = filter (fun x => timestamp x =? t) (c :: l).
Proof.
  induction l as [|h l IH]; trivial. cbn [insert_by_timestamp].
  destruct (Z.leb_spec (timestamp c) (timestamp h)) as [Hle|Hgt]; trivial.
  cbn [filter] in *. rewrite IH.
  destruct (Z.eqb_spec (timestamp c) t) as [Ec|Ec]; trivial.
  destruct (Z.eqb_spec (timestamp h) t) as [Eh|Eh]; trivial. lia.
Qed.

(** X8. The sort is stable: the commits of any one timestamp come out of
    [sort_by_timestamp] in the order they went in, so commits made in the
    same second keep the order of the log. *)
Theorem sort_by_timestamp_stable (t : Z) (l : list Commit) :
  filter (fun x => timestamp x =? t) (sort_by_timestamp l)
  = filter (fun x => timestamp x =? t) l.
Proof.
  induction l as [|c l IH]; trivial.
  cbn [sort_by_timestamp fold_right]. fold (sort_by_timestamp l).
  rewrite insert_by_timestamp_filter. cbn [filter]. now rewrite IH.
Qed.

Lemma two_prefixes (a b s : string) :
  String.prefix a s = true -> String.prefix b s = true ->
  String.prefix a b = true \/ String.prefix b a = true.
Proof.
  revert b s. induction a as [|x a IH]; intros b s Ha Hb.
  - left. now destruct b.
  - destruct b as [|y b]; [right; reflexivity|].
    destruct s as [|z s]; [discriminate|]. cbn [String.prefix] in *.
    destruct (ascii_dec x z) as [->|]; [|discriminate].
    destruct (ascii_dec y z) as [->|]; [|discriminate].
    destruct (ascii_dec z z); [|congruence]. eauto.
Qed.

Lemma tags_prefix_free (a b : string) :
  In a SRED_TAGS -> In b SRED_TAGS -> String.prefix a b = true -> a = b.
Proof.
  unfold SRED_TAGS. cbn [In]. intros Ha Hb.
  repeat (destruct Ha as [<-|Ha]; [|]); try contradiction;
    repeat (destruct Hb as [<-|Hb]; [|]); try contradiction;
    cbn; intros H; first [reflexivity | discriminate H].
Qed.

(** X9. No tag of [SRED_TAGS] is the beginning of another, so the order
    in which the tag loop tries them does not matter: a tag that the
    lowered message starts with is the tag the loop finds. *)
Theorem classify_any_matching_tag (msg t : string) :
  In t SRED_TAGS ->
  Str.startswith (Str.lower msg) t = true ->
  classify msg = Some t.
Proof.
  intros Ht Hs. destruct (classify msg) as [t'|] eqn:E.
  - destruct (classify_in _ _ E) as [Ht' Hs']. f_equal.
    unfold Str.startswith in *.
    destruct (two_prefixes _ _ _ Hs Hs') as [H|H].
    + symmetry. now apply tags_prefix_free.
    + now apply tags_prefix_free.
  - unfold classify in E. pose proof (find_none _ _ E t Ht) as H. cbn in H. congruence.
Qed.

(** X10. The duration of a Complete session depends on the timestamps of
    its commits only, not on which of them is the start, the end or an
    intermediate, nor on their order: two Complete sessions whose commits
    have the same timestamps, in any order, have the same duration. *)
Theorem calculate_duration_permutation (s1 s2 : Session) :
  is_complete s1 = true -> is_complete s2 = true ->
  Permutation (map timestamp (session_commits s1)) (map timestamp (session_commits s2)) ->
  calculate_duration s1 = calculate_duration s2.
Proof.
  unfold is_complete. intros H1 H2 P.
  destruct (end_commit s1) as [e1|] eqn:E1; [|discriminate].
  destruct (end_commit s2) as [e2|] eqn:E2; [|discriminate].
  rewrite (calculate_duration_pairs s1 e1 E1), (calculate_duration_pairs s2 e2 E2).
  rewrite <- (session_commits_complete s1 e1 E1), <- (session_commits_complete s2 e2 E2).
  do 2 f_equal. apply sorted_perm_unique.
  - apply sorted_map_timestamp, sort_by_timestamp_sorted.
  - apply sorted_map_timestamp, sort_by_timestamp_sorted.
  - rewrite (Permutation_map timestamp (sort_by_timestamp_perm (session_commits s1))).
    rewrite (Permutation_map timestamp (sort_by_timestamp_perm (session_commits s2))).
    exact P.
Qed.

(** ** Cutting the stream *)

Lemma content_eq (s s' : Session) :
  content s = content s' ->
  start_commit s = start_commit s' /\ intermediate_commits s = intermediate_commits s'
  /\ end_commit s = end_commit s'.
Proof. unfold content. intros H. injection H as H1 H2 H3. auto. Qed.

Lemma content_duration (s s' : Session) :
  content s = content s' -> calculate_duration s = calculate_duration s'.
Proof.
  intros H. destruct (content_eq s s' H) as (H1 & H2 & H3).
  unfold calculate_duration. now rewrite H1, H2, H3.
Qed.

(** One turn of the loop does the same to two states that differ in the
    sessions emitted, in the counter and in the identifier of the open
    session only. *)
Lemma step_content (b b' : Builder) (c : Commit) :
  option_map content (current_session b) = option_map content (current_session b') ->
  exists l l',
    sessions (step b c) = sessions b ++ l
    /\ sessions (step b' c) = sessions b' ++ l'
    /\ map content l = map content l'
    /\ option_map content (current_session (step b c))
       = option_map content (current_session (step b' c)).
Proof.
  intros H. unfold step, open_session, is_complete.
  destruct (current_session b) as [cur|] eqn:Eb,
           (current_session b') as [cur'|] eqn:Eb'; try discriminate H.
  - cbn [option_map] in H.
    assert (Hc : content cur = content cur') by congruence. clear H.
    destruct (content_eq cur cur' Hc) as (H1 & H2 & H3). rewrite H3.
    destruct (is_session_start c); [|destruct (is_session_end c)].
    + destruct (end_commit cur'); cbn [negb sessions current_session option_map].
      * exists [], []. now rewrite !List.app_nil_r.
      * exists [cur], [cur']. cbn [map]. now rewrite Hc.
    + destruct (end_commit cur'); cbn [negb sessions current_session option_map].
      * eexists [_], [_]. repeat split; try reflexivity. now rewrite Hc.
      * eexists [_], [_]. repeat split; trivial. cbn [map]. unfold content.
        cbn [start_commit intermediate_commits end_commit]. now rewrite H1, H2.
    + cbn [sessions current_session option_map]. exists [], [].
      rewrite !List.app_nil_r. repeat split; trivial. unfold content.
      cbn [start_commit intermediate_commits end_commit]. now rewrite H1, H2, ?H3.
  - destruct (is_session_start c); [|destruct (is_session_end c)];
      cbn [sessions current_session option_map].
    + exists [], []. now rewrite !List.app_nil_r.
    + eexists [_], [_]. repeat split; reflexivity.
    + exists [], []. now rewrite !List.app_nil_r, Eb, Eb'.
Qed.

Lemma fold_content (q : list Commit) (b b' : Builder) :
  option_map content (current_session b) = option_map content (current_session b') ->
  exists l l',
    finish (fold_left step q b) = sessions b ++ l
    /\ finish (fold_left step q b') = sessions b' ++ l'
    /\ map content l = map content l'.
Proof.
  revert b b'. induction q as [|c q IH]; intros b b' H; cbn [fold_left].
  - unfold finish.
    destruct (current_session b) as [cur|], (current_session b') as [cur'|];
      try discriminate H.
    + exists [cur], [cur']. cbn [option_map] in H.
      assert (Hc : content cur = content cur') by congruence. cbn [map].
      now rewrite Hc.
    + exists [], []. now rewrite !List.app_nil_r.
  - destruct (step_content b b' c H) as (l1 & l1' & E1 & E1' & Hl1 & Hc).
    destruct (IH _ _ Hc) as (l2 & l2' & E2 & E2' & Hl2).
    exists (l1 ++ l2), (l1' ++ l2'). rewrite E2, E2', E1, E1', <- !app_assoc.
    repeat split; trivial. now rewrite !map_app, Hl1, Hl2.
Qed.

(** X19. The stream can be cut where no session is open: the sessions
    built from the whole are, apart from their identifiers, those built
    from the part before the cut followed by those built from the part
    after it, and so are their durations. *)
Theorem cut_at_idle_point (p q : list Commit) :
  current_session (run p) = None ->
  map content (build_sessions (p ++ q))
    = map content (build_sessions p) ++ map content (build_sessions q)
  /\ map calculate_duration (build_sessions (p ++ q))
    = map calculate_duration (build_sessions p) ++ map calculate_duration (build_sessions q).
Proof.
  intros Hidle.
  assert (Hp : build_sessions p = sessions (run p)).
  { unfold build_sessions, finish. now rewrite Hidle. }
  assert (Hc : option_map content (current_session (run p))
               = option_map content (current_session initial)) by now rewrite Hidle.
  destruct (fold_content q (run p) initial Hc) as (l & l' & E & E' & Hl).
  cbn [sessions initial app] in E'.
  assert (Ew : build_sessions (p ++ q) = build_sessions p ++ l).
  { unfold build_sessions at 1. now rewrite run_app, E, Hp. }
  assert (Eq : build_sessions q = l') by exact E'.
  rewrite Ew, Eq, !map_app. split; [now rewrite Hl|]. f_equal.
  clear -Hl. revert l' Hl. induction l as [|s l IH]; intros [|s' l'] H;
    try discriminate H; trivial.
  cbn [map] in *.
  assert (Hs : content s = content s') by congruence.
  assert (Ht : map content l = map content l') by congruence.
  f_equal; [now apply content_duration | now apply IH].
Qed.

(** ** Presentation fields *)

Lemma lstrip_first (s : string) (c : ascii) :
  first_char (Text.lstrip s) = Some c -> Text.is_space c = false.
Proof.
  induction s as [|a s IH]; cbn [Text.lstrip first_char]; [discriminate|].
  destruct (Text.is_space a) eqn:E; trivial. cbn [first_char]. congruence.
Qed.

Lemma rstrip_with_last (d : ascii -> bool) (s : string) (c : ascii) :
  last_char (Text.rstrip_with d s) = Some c -> d c = false.
Proof.
  induction s as [|a s IH]; cbn [Text.rstrip_with last_char]; [discriminate|].
  destruct (Text.rstrip_with d s) as [|b r] eqn:E.
  - destruct (d a) eqn:Ea; cbn [last_char]; congruence.
  - intros H. apply IH. exact H.
Qed.

Lemma rstrip_with_first (d : ascii -> bool) (s : string) (c : ascii) :
  first_char (Text.rstrip_with d s) = Some c -> first_char s = Some c.
Proof.
  destruct s as [|a s]; cbn [Text.rstrip_with first_char]; trivial.
  destruct (Text.rstrip_with d s); [destruct (d a)|]; cbn [first_char]; congruence.
Qed.

Lemma strip_no_outer_space (s : string) : no_outer_space (Text.strip s).
Proof.
  unfold Text.strip. split; intros c H.
  - apply (lstrip_first s). now apply rstrip_with_first in H.
  - now apply rstrip_with_last in H.
Qed.

Lemma length_append (a b : string) :
  String.length (a ++ b) = (String.length a + String.length b)%nat.
Proof. induction a as [|c a IH]; cbn; [trivial | now rewrite IH]. Qed.

Lemma first_char_append (a b : string) (c : ascii) :
  first_char a = Some c -> first_char (a ++ b) = Some c.
Proof. destruct a; cbn; [discriminate | trivial]. Qed.

Lemma first_char_take (n : nat) (s : string) :
  first_char (Str.take (S n) s) = first_char s.
Proof. now destruct s. Qed.

Lemma last_char_append (a b : string) :
  b <> EmptyString -> last_char (a ++ b) = last_char b.
Proof.
  intros Hb. induction a as [|c a IH]; trivial. cbn [append last_char].
  destruct (a ++ b)%string eqn:E; trivial.
  destruct a; cbn in E; [contradiction | discriminate].
Qed.

Lemma cut_no_outer_space (msg : string) :
  no_outer_space msg ->
  no_outer_space
    (if (100 <? String.length msg)%nat then (Str.take 100 msg ++ "...")%string else msg).
Proof.
  intros [Hf Hl]. destruct (100 <? String.length msg)%nat eqn:E; [|now split].
  split; intros c H.
  - apply Hf. rewrite <- (first_char_take 99). destruct (Str.take 100 msg) eqn:Et.
    + destruct msg; [discriminate E | discriminate Et].
    + cbn in H. exact H.
  - rewrite last_char_append in H by discriminate. cbn in H. now injection H as <-.
Qed.

Lemma cut_length (msg : string) :
  (String.length
     (if (100 <? String.length msg)%nat then (Str.take 100 msg ++ "...")%string else msg)
   <= 103)%nat.
Proof.
  destruct (Nat.ltb_spec 100 (String.length msg)) as [H|H]; [|lia].
  rewrite length_append. pose proof (take_length 100 msg). cbn. lia.
Qed.

(** X11. The objective of a session has at most 103 characters, and
    unless the start message has no tag it neither begins nor ends with
    white space, cut or not. *)
Theorem objective_bounds (s : Session) :
  (String.length (objective s) <= 103)%nat
  /\ (classify (message (start_commit s)) = None \/ no_outer_space (objective s)).
Proof.
  unfold objective. split.
  - apply cut_length.
  - destruct (classify (message (start_commit s))) as [t|]; [right|now left].
    apply cut_no_outer_space, strip_no_outer_space.
Qed.

Lemma lstrip_spaces (w s : string) :
  all_space w = true -> Text.lstrip (w ++ s) = Text.lstrip s.
Proof.
  induction w as [|c w IH]; cbn [all_space append Text.lstrip]; trivial.
  intros H. apply andb_prop in H. destruct H as [-> H]. now apply IH.
Qed.

Lemma lstrip_id (s : string) :
  (forall c, first_char s = Some c -> Text.is_space c = false) -> Text.lstrip s = s.
Proof.
  destruct s as [|a s]; trivial. intros H. cbn [Text.lstrip].
  now rewrite (H a eq_refl).
Qed.

Lemma rstrip_spaces (w s : string) :
  all_space w = true ->
  Text.rstrip_with Text.is_space (s ++ w) = Text.rstrip_with Text.is_space s.
Proof.
  intros Hw. induction s as [|a s IH].
  - cbn [append]. induction w as [|c w IHw]; trivial.
    cbn [all_space] in Hw. apply andb_prop in Hw. destruct Hw as [Hc Hw].
    cbn [Text.rstrip_with]. now rewrite (IHw Hw), Hc.
  - cbn [append Text.rstrip_with]. now rewrite IH.
Qed.

Lemma rstrip_id (d : ascii -> bool) (s : string) :
  (forall c, last_char s = Some c -> d c = false) -> Text.rstrip_with d s = s.
Proof.
  induction s as [|a s IH]; trivial. intros H. cbn [Text.rstrip_with].
  destruct s as [|b s].
  - cbn. now rewrite (H a eq_refl).
  - rewrite IH; [reflexivity|]. intros c Hc. apply H. exact Hc.
Qed.

Lemma strip_spaces (pre body post : string) :
  all_space pre = true -> all_space post = true -> no_outer_space body ->
  Text.strip (pre ++ body ++ post) = body.
Proof.
  intros Hpre Hpost [Hf Hl]. unfold Text.strip. rewrite (lstrip_spaces _ _ Hpre).
  destruct body as [|a body].
  - cbn [append].
    assert (H : forall w, all_space w = true -> Text.lstrip w = EmptyString).
    { induction w as [|c w IH]; trivial. cbn [all_space Text.lstrip].
      intros H. apply andb_prop in H. destruct H as [-> H]. now apply IH. }
    now rewrite (H post Hpost).
  - rewrite lstrip_id.
    + rewrite (rstrip_spaces post _ Hpost). now apply rstrip_id.
    + intros c Hc. cbn [append first_char] in Hc. apply Hf. exact Hc.
Qed.

(** X12. What the objective is: when the start message has a tag and what
    follows the tag is some white space, a body with no white space at
    either end, and white space again, the objective is the body, in the
    case it was written in, cut to 100 characters and three dots when it is
    longer. *)
Theorem objective_is_stripped_body (s : Session) (t pre body post : string) :
  classify (message (start_commit s)) = Some t ->
  Str.drop (String.length t) (message (start_commit s)) = (pre ++ body ++ post)%string ->
  all_space pre = true -> all_space post = true -> no_outer_space body ->
  objective s =
    if (100 <? String.length body)%nat then (Str.take 100 body ++ "...")%string else body.
Proof.
  intros Ht Hd Hpre Hpost Hb. unfold objective. rewrite Ht, Hd.
  now rewrite (strip_spaces pre body post Hpre Hpost Hb).
Qed.

Lemma mem_in (x : string) (l : list string) : Str.mem x l = true -> In x l.
Proof.
  unfold Str.mem. intros H. apply existsb_exists in H. destruct H as (y & Hy & E).
  apply String.eqb_eq in E. now subst.
Qed.

(** X13. The outcome of a session that [build_sessions] returns is
    IN_PROGRESS when the session is Incomplete and one of SUCCEED, PIVOT,
    STOP and FAIL when it is Complete: the tag of its end commit without
    the colon, in capitals. *)
Theorem outcome_of_built_session (cs : list Commit) (s : Session) :
  In s (build_sessions cs) ->
  (is_complete s = false /\ outcome s = Text.codes "IN_PROGRESS")
  \/ (is_complete s = true
      /\ exists e w, end_commit s = Some e
           /\ In w ["SUCCEED"; "PIVOT"; "STOP"; "FAIL"]
           /\ outcome s = Text.codes w
           /\ Text.codes (tag e) = Text.codes (Str.lower w ++ ":")).
Proof.
  intros Hin. pose proof (shape_aux cs) as Hsh. rewrite Forall_forall in Hsh.
  specialize (Hsh s Hin). unfold is_complete, outcome.
  assert (Hend : forall e, end_commit s = Some e -> is_session_end e = true).
  { intros e He. destruct Hsh as [(_ & _ & H)|(H & H' & _)].
    - now rewrite He in H.
    - rewrite He in H'. now injection H' as ->. }
  destruct (end_commit s) as [e|]; [right|left; now split].
  split; trivial. exists e. specialize (Hend e eq_refl).
  unfold is_session_end in Hend. apply mem_in in Hend. cbn [In] in Hend.
  destruct Hend as [<-|[<-|[<-|[<-|[]]]]].
  - exists "SUCCEED". cbn [In]. repeat split; auto.
  - exists "PIVOT". cbn [In]. repeat split; auto.
  - exists "STOP". cbn [In]. repeat split; auto.
  - exists "FAIL". cbn [In]. repeat split; auto 6.
Qed.

Lemma ascii_compare_lt (a b : ascii) :
  Ascii.compare a b = Lt <-> (N_of_ascii a < N_of_ascii b)%N.
Proof. unfold Ascii.compare. apply N.compare_lt_iff. Qed.

Lemma ascii_compare_eq (a b : ascii) : Ascii.compare a b = Eq <-> a = b.
Proof.
  split; [apply Ascii.compare_eq_iff|]. intros ->. unfold Ascii.compare.
  apply N.compare_refl.
Qed.

Lemma string_compare_trans (a b c : string) :
  String.compare a b = Lt -> String.compare b c = Lt -> String.compare a c = Lt.
Proof.
  revert b c. induction a as [|x a IH]; intros [|y b] [|z c]; cbn [String.compare];
    try discriminate; trivial.
  destruct (Ascii.compare x y) eqn:Exy; try discriminate;
    destruct (Ascii.compare y z) eqn:Eyz; try discriminate; intros H1 H2.
  - apply (proj1 (ascii_compare_eq _ _)) in Exy. apply (proj1 (ascii_compare_eq _ _)) in Eyz. subst.
    rewrite (proj2 (ascii_compare_eq z z) eq_refl). eapply IH; eassumption.
  - apply (proj1 (ascii_compare_eq _ _)) in Exy. subst. now rewrite Eyz.
  - apply (proj1 (ascii_compare_eq _ _)) in Eyz. subst. now rewrite Exy.
  - apply (proj1 (ascii_compare_lt _ _)) in Exy. apply (proj1 (ascii_compare_lt _ _)) in Eyz.
    rewrite (proj2 (ascii_compare_lt x z)); [trivial | lia].
Qed.

Lemma ordered_trans (a b c : string) : ordered a b -> ordered b c -> ordered a c.
Proof.
  unfold ordered, String.ltb. intros H1 H2.
  destruct (String.compare a b) eqn:E1; try discriminate.
  destruct (String.compare b c) eqn:E2; try discriminate.
  now rewrite (string_compare_trans a b c E1 E2).
Qed.

Lemma not_ordered (h t : string) : String.ltb h t = false -> h <> t -> ordered t h.
Proof.
  unfold ordered, String.ltb. rewrite (String.compare_antisym t h).
  destruct (String.compare h t) eqn:E; cbn [CompOpp]; intros H Hne.
  - apply String.compare_eq_iff in E. contradiction.
  - discriminate.
  - reflexivity.
Qed.

Lemma insert_sorted_in (x t : string) (l : list string) :
  In x (Text.insert_sorted t l) <-> x = t \/ In x l.
Proof.
  induction l as [|h l IH]; cbn [Text.insert_sorted In]; [intuition|].
  destruct (String.ltb h t); cbn [In]; rewrite ?IH; intuition.
Qed.

Lemma insert_sorted_ordered (t : string) (l : list string) :
  StronglySorted ordered l -> ~ In t l -> StronglySorted ordered (Text.insert_sorted t l).
Proof.
  induction 1 as [|h l Hs IH Hh]; intros Hn; cbn [Text.insert_sorted].
  - repeat constructor.
  - destruct (String.ltb h t) eqn:E.
    + constructor; [apply IH; intros Hi; apply Hn; now right|].
      apply Forall_forall. intros x Hx. apply insert_sorted_in in Hx.
      destruct Hx as [->|Hx]; [exact E|]. rewrite Forall_forall in Hh. now apply Hh.
    + assert (Hth : ordered t h).
      { apply not_ordered; trivial. intros ->. apply Hn. now left. }
      constructor; [now constructor|]. constructor; trivial.
      eapply Forall_impl; [|exact Hh]. intros x Hx. now apply (ordered_trans t h x).
Qed.

Lemma sorted_spec_from (l acc : list string) :
  NoDup l -> (forall x, In x l -> ~ In x acc) -> StronglySorted ordered acc ->
  StronglySorted ordered (fold_left (fun acc t => Text.insert_sorted t acc) l acc)
  /\ forall x, In x (fold_left (fun acc t => Text.insert_sorted t acc) l acc)
               <-> In x l \/ In x acc.
Proof.
  revert acc. induction l as [|t l IH]; intros acc Hnd Hdis Hs; cbn [fold_left].
  - split; trivial. intros x. cbn [In]. tauto.
  - inversion Hnd as [|? ? Ht Hl]; subst.
    destruct (IH (Text.insert_sorted t acc) Hl) as [H1 H2].
    + intros x Hx Hi. apply insert_sorted_in in Hi. destruct Hi as [->|Hi].
      * contradiction.
      * apply (Hdis x); [now right | trivial].
    + apply insert_sorted_ordered; trivial. apply Hdis. now left.
    + split; trivial. intros x. rewrite H2, insert_sorted_in. cbn [In].
      intuition.
Qed.

Lemma fold_set_add (l : list Commit) (tags : list string) :
  NoDup tags ->
  NoDup (fold_left (fun tags c => ListSet.set_add string_dec (tag c) tags) l tags)
  /\ forall x, In x (fold_left (fun tags c => ListSet.set_add string_dec (tag c) tags) l tags)
               <-> In x tags \/ exists c, In c l /\ tag c = x.
Proof.
  revert tags. induction l as [|c l IH]; intros tags Hnd; cbn [fold_left].
  - split; trivial. intros x. split; [tauto|]. intros [H|(c & [] & _)]. exact H.
  - destruct (IH (ListSet.set_add string_dec (tag c) tags)) as [H1 H2].
    + now apply ListSet.set_add_nodup.
    + split; trivial. intros x. rewrite H2, ListSet.set_add_iff. cbn [In]. split.
      * intros [[->|H]|(c' & Hc' & E)]; eauto.
      * intros [H|(c' & [<-|Hc'] & E)]; eauto.
Qed.

Lemma tags_involved_full (s : Session) :
  StronglySorted ordered (tags_involved s)
  /\ forall t, In t (tags_involved s) <-> exists c, In c (session_commits s) /\ tag c = t.
Proof.
  unfold tags_involved.
  set (t0 := ListSet.set_add string_dec (tag (start_commit s)) (ListSet.empty_set string)).
  assert (H0 : NoDup t0) by (apply ListSet.set_add_nodup; constructor).
  destruct (fold_set_add (intermediate_commits s) t0 H0) as [H1 H2].
  set (t1 := fold_left _ (intermediate_commits s) t0) in *.
  set (t2 := match end_commit s with
             | Some e => ListSet.set_add string_dec (tag e) t1 | None => t1 end).
  assert (H3 : NoDup t2).
  { unfold t2. destruct (end_commit s); trivial. now apply ListSet.set_add_nodup. }
  assert (H4 : forall x, In x t2 <-> exists c, In c (session_commits s) /\ tag c = x).
  { intros x. unfold t2, session_commits.
    assert (Hx : In x t1 <-> exists c, In c ([start_commit s] ++ intermediate_commits s)
                                        /\ tag c = x).
    { rewrite H2. unfold t0. cbn [ListSet.set_add ListSet.empty_set In app]. split.
      - intros [[<-|[]]|(c & Hc & E)]; eauto.
      - intros (c & [<-|Hc] & E); eauto. }
    destruct (end_commit s) as [e|].
    - rewrite ListSet.set_add_iff, Hx. split.
      + intros [->|(c & Hc & E)].
        * exists e. split; trivial. rewrite app_assoc. apply in_snoc. now right.
        * exists c. split; trivial. rewrite app_assoc. apply in_snoc. now left.
      + intros (c & Hc & E). rewrite app_assoc in Hc. apply in_snoc in Hc.
        destruct Hc as [Hc| ->]; eauto.
    - now rewrite List.app_nil_r. }
  destruct (sorted_spec_from t2 [] H3) as [H5 H6].
  - intros x _ [].
  - constructor.
  - unfold Text.sorted. split; trivial. intros t. rewrite H6, <- H4. cbn [In]. tauto.
Qed.

Lemma tags_involved_in (s : Session) (t : string) :
  In t (tags_involved s) <-> exists c, In c (session_commits s) /\ tag c = t.
Proof. apply tags_involved_full. Qed.

(** X14. The tags of a session come out in strictly ascending order, so
    each once, and they are the tags of the commits of the session: of its
    start, of its intermediates and of its end. *)
Theorem tags_involved_spec (s : Session) :
  StronglySorted ordered (tags_involved s)
  /\ forall t, In t (tags_involved s) <-> exists c, In c (session_commits s) /\ tag c = t.
Proof. apply tags_involved_full. Qed.

(** ** Lines of the log *)

Lemma cut_some (sep : ascii) (s a b : string) :
  cut sep s = Some (a, b) <-> s = (a ++ String sep b)%string /\ occurs sep a = false.
Proof.
  revert a. induction s as [|c s IH]; intros a; cbn [cut].
  - split; [discriminate|]. intros [H _]. destruct a; discriminate.
  - destruct (Ascii.eqb_spec c sep) as [->|Hne].
    + split.
      * intros H. injection H as <- <-. now split.
      * intros [H Ho]. destruct a as [|x a].
        -- cbn in H. now injection H as ->.
        -- cbn in H. injection H as <- _. cbn in Ho. now rewrite Ascii.eqb_refl in Ho.
    + destruct (cut sep s) as [[a' b']|] eqn:E.
      * split.
        -- intros H. injection H as <- <-. destruct (proj1 (IH a') eq_refl) as [-> Ho].
           split; trivial. cbn [occurs]. rewrite Ho.
           now destruct (Ascii.eqb_spec c sep).
        -- intros [H Ho]. destruct a as [|x a]; cbn in H.
           ++ injection H as -> _. contradiction.
           ++ injection H as <- ->. cbn in Ho. apply orb_false_elim in Ho.
              destruct Ho as [_ Ho].
              assert (X : Some (a', b') = Some (a, b)) by (apply IH; now split).
              now injection X as -> ->.
      * split; [discriminate|]. intros [H Ho]. destruct a as [|x a]; cbn in H.
        -- injection H as -> _. contradiction.
        -- injection H as <- ->. cbn in Ho. apply orb_false_elim in Ho.
           destruct Ho as [_ Ho]. assert (X : None = Some (a, b)) by (apply IH; now split).
           discriminate.
Qed.

Lemma cut_none (sep : ascii) (s : string) : cut sep s = None <-> occurs sep s = false.
Proof.
  induction s as [|c s IH]; cbn [cut occurs]; [tauto|].
  destruct (Ascii.eqb c sep); cbn [orb]; [split; discriminate|].
  destruct (cut sep s) as [[a b]|].
  - split; [discriminate|]. intros H. apply IH in H. discriminate.
  - split; trivial. intros _. now apply IH.
Qed.

(** X15. A line of the log is read when, and only when, it is a hash, a
    bar, a date, a bar and a subject, with no bar in the hash nor in the
    date: the subject is everything after the second bar, bars included.
    Every other line is skipped, the empty one too. *)
Theorem parse_line_spec (line h d m : string) :
  parse_line line = Some (h, d, m)
  <-> line = (h ++ "|" ++ d ++ "|" ++ m)%string
      /\ occurs "|" h = false /\ occurs "|" d = false.
Proof.
  unfold parse_line. cbn [split]. split.
  - destruct (String.eqb line EmptyString); [discriminate|].
    destruct (cut "|" line) as [[a b]|] eqn:E1; [|discriminate].
    destruct (cut "|" b) as [[a' b']|] eqn:E2; [|discriminate].
    intros H. injection H as <- <- <-.
    apply cut_some in E1, E2. destruct E1 as [-> H1], E2 as [-> H2]. now repeat split.
  - intros (-> & Hh & Hd).
    destruct (String.eqb_spec (h ++ "|" ++ d ++ "|" ++ m) EmptyString) as [E|_].
    { destruct h; discriminate E. }
    rewrite (proj2 (cut_some "|" (h ++ "|" ++ d ++ "|" ++ m) h (d ++ "|" ++ m)));
      [|now split].
    rewrite (proj2 (cut_some "|" (d ++ "|" ++ m) d m)); [reflexivity | now split].
Qed.

Lemma lstrip_split (s : string) :
  exists pre, s = (pre ++ Text.lstrip s)%string /\ all_space pre = true.
Proof.
  induction s as [|c s (pre & E & H)]; [now exists EmptyString|].
  cbn [Text.lstrip]. destruct (Text.is_space c) eqn:Ec.
  - exists (String c pre). cbn [append all_space]. now rewrite <- E, H, Ec.
  - now exists EmptyString.
Qed.

Lemma rstrip_split (s : string) :
  exists post, s = (Text.rstrip_with Text.is_space s ++ post)%string
               /\ all_space post = true.
Proof.
  induction s as [|c s (post & E & H)]; [now exists EmptyString|].
  cbn [Text.rstrip_with]. destruct (Text.rstrip_with Text.is_space s) as [|a r] eqn:Er.
  - destruct (Text.is_space c) eqn:Ec.
    + exists (String c post). cbn [append] in *. subst s. cbn [all_space].
      now rewrite Ec, H.
    + exists post. cbn [append] in *. now subst s.
  - exists post. cbn [append] in *. now rewrite <- E.
Qed.

Lemma strip_split (s : string) :
  exists pre post,
    s = (pre ++ Text.strip s ++ post)%string
    /\ all_space pre = true /\ all_space post = true.
Proof.
  destruct (lstrip_split s) as (pre & E1 & H1).
  destruct (rstrip_split (Text.lstrip s)) as (post & E2 & H2).
  exists pre, post. unfold Text.strip. now rewrite <- E2, <- E1.
Qed.

Lemma split_all_not_nil (sep : ascii) (s : string) : split_all sep s <> [].
Proof.
  destruct s as [|c s]; cbn [split_all]; [discriminate|].
  destruct (Ascii.eqb c sep); [discriminate|].
  destruct (split_all sep s); discriminate.
Qed.

Lemma split_all_concat (sep : ascii) (s : string) :
  String.concat (String sep EmptyString) (split_all sep s) = s.
Proof.
  induction s as [|c s IH]; trivial. cbn [split_all].
  destruct (Ascii.eqb_spec c sep) as [->|Hne].
  - pose proof (split_all_not_nil sep s) as Hn.
    destruct (split_all sep s) as [|h t]; [contradiction|].
    cbn [String.concat append] in *. now rewrite IH.
  - pose proof (split_all_not_nil sep s) as Hn.
    destruct (split_all sep s) as [|h t]; [contradiction|].
    destruct t as [|h' t]; cbn [String.concat append] in *; now rewrite IH.
Qed.

Lemma split_all_pieces (sep : ascii) (s : string) :
  Forall (fun piece => occurs sep piece = false) (split_all sep s).
Proof.
  induction s as [|c s IH]; cbn [split_all].
  - now repeat constructor.
  - destruct (Ascii.eqb_spec c sep) as [->|Hne].
    + now constructor.
    + pose proof (split_all_not_nil sep s) as Hn.
      destruct (split_all sep s) as [|h t]; [contradiction|].
      inversion IH; subst. constructor; trivial. cbn [occurs].
      apply Ascii.eqb_neq in Hne. now rewrite Hne.
Qed.

(** X20. The lines that the loop of [get_sred_commits] reads are the lines
    of the output without the white space at its two ends: no line holds
    a line feed, and joined by line feeds they are the output between
    some white space before and some after, with none left at either
    end. *)
Theorem stdout_lines_spec (stdout : string) :
  Forall (fun line => occurs "010"%char line = false) (stdout_lines stdout)
  /\ no_outer_space (String.concat (String "010"%char EmptyString) (stdout_lines stdout))
  /\ exists pre post,
       stdout = (pre ++ String.concat (String "010"%char EmptyString) (stdout_lines stdout)
                     ++ post)%string
       /\ all_space pre = true /\ all_space post = true.
Proof.
  unfold stdout_lines. rewrite split_all_concat.
  split; [apply split_all_pieces|]. split; [apply strip_no_outer_space|].
  apply strip_split.
Qed.

(** ** Rounding from below, and normal floats *)

Lemma rhe_ge N D b : 0 < D -> b * D <= N -> b <= Float.round_half_even N D.
Proof.
  intros HD H. unfold Float.round_half_even.
  pose proof (Z.div_mod N D ltac:(lia)) as E.
  pose proof (Z.mod_pos_bound N D HD) as Hr.
  destruct (Z.compare_spec (2 * (N mod D)) D); [destruct (Z.even (N / D))| |]; nia.
Qed.

Lemma Zdigits2_ge m k : 0 <= k -> 2 ^ k <= m -> k + 1 <= Zdigits2 m.
Proof.
  intros Hk H. assert (0 < 2 ^ k) by (apply Z.pow_pos_nonneg; lia).
  destruct m as [|p|p]; try lia. cbn [Zdigits2].
  pose proof (Zdigits2_bounds p) as [_ Hu].
  assert (Hlt : 2 ^ k < 2 ^ Z.pos (digits2_pos p)) by lia.
  apply Z.pow_lt_mono_r_iff in Hlt; lia.
Qed.

Lemma digits_shift (a b : positive) (i j : Z) :
  0 <= i -> 0 <= j -> Z.pos a * 2 ^ i = Z.pos b * 2 ^ j ->
  Z.pos (digits2_pos a) + i = Z.pos (digits2_pos b) + j.
Proof.
  intros Hi Hj H.
  pose proof (Zdigits2_bounds a) as [La Ua]. pose proof (Zdigits2_bounds b) as [Lb Ub].
  remember (Z.pos (digits2_pos a)) as da. remember (Z.pos (digits2_pos b)) as db.
  assert (Hda : 0 < da) by (subst; lia). assert (Hdb : 0 < db) by (subst; lia).
  assert (Pi : 0 < 2 ^ i) by (apply Z.pow_pos_nonneg; lia).
  assert (Pj : 0 < 2 ^ j) by (apply Z.pow_pos_nonneg; lia).
  assert (H1 : 2 ^ (da - 1 + i) < 2 ^ (db + j)).
  { rewrite !Z.pow_add_r by lia. nia. }
  assert (H2 : 2 ^ (db - 1 + j) < 2 ^ (da + i)).
  { rewrite !Z.pow_add_r by lia. nia. }
  apply Z.pow_lt_mono_r_iff in H1; [|lia|lia].
  apply Z.pow_lt_mono_r_iff in H2; lia.
Qed.

(** When the mantissa handed to [binary_round_aux] has digits enough, the
    result is rounded at the exponent of the format, and its mantissa has
    53 bits unless that exponent is the least one. *)
Lemma bra_fine s m e l N D :
  located (shr_record_of_loc m l) N D ->
  e <= fexp Float.prec Float.emax (Zdigits2 m + e) ->
  let f := fexp Float.prec Float.emax (Zdigits2 m + e) in
  let m1 := Float.round_half_even N (D * 2 ^ (f - e)) in
  0 <= m1 <= 2 ^ 53 /\ -1074 <= f /\ (f = -1074 \/ 2 ^ 52 <= m1)
  /\ binary_round_aux Float.prec Float.emax s m e l =
     if m1 =? 2 ^ 53 then mk s (2 ^ 52) (f + 1) else mk s m1 f.
Proof.
  intros H He f m1. pose proof (bra_spec s m e l N D H) as Hs.
  replace (Z.max e (fexp Float.prec Float.emax (Zdigits2 m + e))) with f in Hs
    by (unfold f; lia).
  cbv zeta in Hs. fold m1 in Hs. destruct Hs as [Hm1 Hr].
  assert (Hf : -1074 <= f) by (unfold f; rewrite fexp_eq; lia).
  repeat split; try lia; trivial.
  destruct (Z.eq_dec f (-1074)) as [E|E]; [now left|right].
  destruct H as (Hm0 & HD & HND & _). rewrite shr_m_of_loc in *.
  assert (Hfe : f = Zdigits2 m + e - 53) by (unfold f in *; rewrite fexp_eq in *; lia).
  destruct m as [|p|p]; [change (Zdigits2 0) with 0 in *; lia| |lia].
  cbn [Zdigits2] in *. pose proof (Zdigits2_bounds p) as [Lp _].
  replace (Z.pos (digits2_pos p) - 1) with (52 + (f - e)) in Lp by lia.
  rewrite Z.pow_add_r in Lp by lia.
  assert (P : 0 < 2 ^ (f - e)) by (apply Z.pow_pos_nonneg; lia).
  apply rhe_ge; [nia|].
  remember (2 ^ (f - e)) as K. remember (2 ^ 52) as T.
  assert (T * K * D <= Z.pos p * D) by (apply Z.mul_le_mono_nonneg_r; lia). lia.
Qed.

Lemma mk_normal s m e : e = -1074 \/ 2 ^ 52 <= m -> normal (mk s m e).
Proof.
  intros H. destruct m as [|p|p]; try exact I. unfold mk.
  destruct (e <=? 971); [exact H | exact I].
Qed.

Lemma bra_normal s m e l N D :
  located (shr_record_of_loc m l) N D ->
  e <= fexp Float.prec Float.emax (Zdigits2 m + e) ->
  normal (binary_round_aux Float.prec Float.emax s m e l).
Proof.
  intros H He. destruct (bra_fine s m e l N D H He) as (_ & _ & Hn & ->).
  match goal with |- context [?a =? ?b] => destruct (Z.eqb_spec a b) end;
    apply mk_normal; [right; lia | exact Hn].
Qed.

(** Rounding is above any bound [mb * 2^eb] of the format that the exact
    number is above. *)
Lemma bra_lower m e l N D mb eb :
  located (shr_record_of_loc m l) N D ->
  e <= fexp Float.prec Float.emax (Zdigits2 m + e) ->
  -1074 <= e -> -1074 <= eb -> 0 < mb < 2 ^ 53 ->
  mb * 2 ^ (eb + 1074) * D <= N * 2 ^ (e + 1074) ->
  binary_round_aux Float.prec Float.emax false m e l = S754_infinity false
  \/ (good (binary_round_aux Float.prec Float.emax false m e l)
      /\ mb * 2 ^ (eb + 1074) <= ulps (binary_round_aux Float.prec Float.emax false m e l)).
Proof.
  intros H He He0 Heb Hmb HN.
  destruct (bra_fine false m e l N D H He) as (Hm1 & Hf & Hn & ->).
  set (f := fexp Float.prec Float.emax (Zdigits2 m + e)) in *.
  set (m1 := Float.round_half_even N (D * 2 ^ (f - e))) in *.
  destruct H as (Hm0 & HD & HND & _). rewrite shr_m_of_loc in *.
  assert (P2 : 0 < 2 ^ (f - e)) by (apply Z.pow_pos_nonneg; lia).
  assert (PB : 0 < 2 ^ (eb + 1074)) by (apply Z.pow_pos_nonneg; lia).
  assert (PF : 0 < 2 ^ (f + 1074)) by (apply Z.pow_pos_nonneg; lia).
  assert (Hv : mb * 2 ^ (eb + 1074) <= m1 * 2 ^ (f + 1074)).
  { destruct (Z_le_gt_dec f eb) as [Hle|Hgt].
    - assert (P3 : 0 < 2 ^ (eb - f)) by (apply Z.pow_pos_nonneg; lia).
      assert (Hb : mb * 2 ^ (eb - f) <= m1).
      { apply rhe_ge; [nia|].
        assert (PE : 0 < 2 ^ (e + 1074)) by (apply Z.pow_pos_nonneg; lia).
        apply (Z.mul_le_mono_pos_r _ _ (2 ^ (e + 1074))); trivial.
        etransitivity; [|exact HN].
        replace (mb * 2 ^ (eb - f) * (D * 2 ^ (f - e)) * 2 ^ (e + 1074))
          with (mb * (2 ^ (eb - f) * 2 ^ (f - e) * 2 ^ (e + 1074)) * D) by ring.
        rewrite <- !Z.pow_add_r by lia.
        replace (eb - f + (f - e) + (e + 1074)) with (eb + 1074) by lia. lia. }
      replace (eb + 1074) with (eb - f + (f + 1074)) by lia.
      rewrite (Z.pow_add_r 2 (eb - f) (f + 1074)) by lia.
      remember (2 ^ (eb - f)) as K. remember (2 ^ (f + 1074)) as F.
      assert (mb * K * F <= m1 * F) by (apply Z.mul_le_mono_nonneg_r; lia). lia.
    - destruct Hn as [Hn|Hn]; [lia|].
      replace (f + 1074) with (f - eb + (eb + 1074)) by lia.
      rewrite (Z.pow_add_r 2 (f - eb) (eb + 1074)) by lia.
      assert (P4 : 2 ^ 1 <= 2 ^ (f - eb)) by (apply Z.pow_le_mono_r; lia).
      change (2 ^ 1) with 2 in P4.
      remember (2 ^ (f - eb)) as K. remember (2 ^ (eb + 1074)) as B.
      remember (2 ^ 52) as T. assert (HT : 2 ^ 53 = 2 * T) by (subst T; reflexivity).
      rewrite HT in *. clear HeqT HeqB HeqK PF HN.
      assert (mb * B <= 2 * T * B) by (apply Z.mul_le_mono_nonneg_r; lia).
      assert (2 * T * B <= m1 * K * B).
      { apply Z.mul_le_mono_nonneg_r; [lia|]. nia. }
      lia. }
  assert (Hpos : 0 < m1).
  { assert (0 < mb * 2 ^ (eb + 1074)) by (apply Z.mul_pos_pos; lia). nia. }
  destruct (Z.eqb_spec m1 (2 ^ 53)) as [E|E].
  - unfold mk. change (2 ^ 52) with (Z.pos 4503599627370496).
    destruct (Z.leb_spec (f + 1) 971); [right|now left].
    cbn [good ulps]. split; [split; [reflexivity | lia]|].
    rewrite E in Hv. etransitivity; [exact Hv|].
    replace (f + 1 + 1074) with (1 + (f + 1074)) by lia.
    rewrite (Z.pow_add_r 2 1) by lia.
    change (2 ^ 53) with (Z.pos 4503599627370496 * 2 ^ 1). lia.
  - destruct m1 as [|p|p]; try lia. unfold mk.
    destruct (Z.leb_spec f 971); [right|now left].
    cbn [good ulps]. split; [split; lia | exact Hv].
Qed.

Lemma binary_round_fine p e :
  -1074 <= e ->
  exists mz ez,
    binary_round Float.prec Float.emax false p e =
      binary_round_aux Float.prec Float.emax false (Z.pos mz) ez loc_Exact
    /\ -1074 <= ez
    /\ ez <= fexp Float.prec Float.emax (Zdigits2 (Z.pos mz) + ez)
    /\ Z.pos mz * 2 ^ (ez + 1074) = Z.pos p * 2 ^ (e + 1074).
Proof.
  intros He. destruct (binary_round_aligned p e He) as (mz & ez & Hr & Hez & Hf & Hv).
  exists mz, ez. repeat split; trivial. cbn [Zdigits2].
  pose proof (digits_shift mz p (ez + 1074) (e + 1074) ltac:(lia) ltac:(lia) Hv).
  replace (Z.pos (digits2_pos mz) + ez) with (Z.pos (digits2_pos p) + e) by lia.
  exact Hf.
Qed.

Lemma binary_round_normal p e :
  -1074 <= e -> normal (binary_round Float.prec Float.emax false p e).
Proof.
  intros He. destruct (binary_round_fine p e He) as (mz & ez & -> & Hez & Hf & Hv).
  apply (bra_normal _ _ _ _ (Z.pos mz) 1); trivial. apply located_exact. lia.
Qed.

Lemma binary_round_lower p e mb eb :
  -1074 <= e -> -1074 <= eb -> 0 < mb < 2 ^ 53 ->
  mb * 2 ^ (eb + 1074) <= Z.pos p * 2 ^ (e + 1074) ->
  binary_round Float.prec Float.emax false p e = S754_infinity false
  \/ (good (binary_round Float.prec Float.emax false p e)
      /\ mb * 2 ^ (eb + 1074) <= ulps (binary_round Float.prec Float.emax false p e)).
Proof.
  intros He Heb Hmb H.
  destruct (binary_round_fine p e He) as (mz & ez & -> & Hez & Hf & Hv).
  apply (bra_lower _ _ _ (Z.pos mz) 1); trivial.
  - apply located_exact. lia.
  - rewrite Hv. lia.
Qed.

(** An integer below [2^53] is a float. *)
Lemma of_Z_exact z :
  0 <= z < 2 ^ 53 ->
  good (Float.of_Z z) /\ normal (Float.of_Z z) /\ ulps (Float.of_Z z) = z * hour.
Proof.
  intros Hz. unfold Float.of_Z, binary_normalize.
  destruct z as [|p|p]; [now repeat split| |lia].
  assert (P : 0 < 2 ^ (0 + 1074)) by reflexivity.
  destruct (binary_round_upper p 0 (Z.pos p) 0) as [Hg Hu]; try lia.
  destruct (binary_round_lower p 0 (Z.pos p) 0) as [Hi|[_ Hl]]; try lia.
  - rewrite Hi in Hg. destruct Hg.
  - split; trivial. split; [apply binary_round_normal; lia|].
    change hour with (2 ^ (0 + 1074)). lia.
Qed.

(** A larger integer is rounded to a float that is not below [2^53]. *)
Lemma of_Z_big z :
  2 ^ 53 <= z ->
  Float.of_Z z = S754_infinity false
  \/ (good (Float.of_Z z) /\ normal (Float.of_Z z) /\ 2 ^ 53 * hour <= ulps (Float.of_Z z)).
Proof.
  intros Hz. unfold Float.of_Z, binary_normalize.
  destruct z as [|p|p]; try (exfalso; assert (0 < 2 ^ 53) by reflexivity; lia).
  assert (Hb : 2 ^ 52 * 2 ^ (1 + 1074) <= Z.pos p * 2 ^ (0 + 1074)).
  { change (2 ^ 52 * 2 ^ (1 + 1074)) with (2 ^ 53 * 2 ^ (0 + 1074)).
    apply Z.mul_le_mono_nonneg_r; [|exact Hz]. apply Z.pow_nonneg. lia. }
  assert (Hm : 0 < 2 ^ 52 < 2 ^ 53) by (split; reflexivity).
  destruct (binary_round_lower p 0 (2 ^ 52) 1 ltac:(lia) ltac:(lia) Hm Hb) as [Hi|[Hg Hl]].
  - now left.
  - right. split; trivial. split; [apply binary_round_normal; lia|].
    change (2 ^ 53 * hour) with (2 ^ 52 * 2 ^ (1 + 1074)). exact Hl.
Qed.

(** The quotient that [SFdiv_core_binary] returns has digits enough. *)
Lemma div_core_fine mx ex my ey q e' loc :
  SFdiv_core_binary Float.prec Float.emax (Z.pos mx) ex (Z.pos my) ey = (q, e', loc) ->
  e' <= fexp Float.prec Float.emax (Zdigits2 q + e').
Proof.
  intros E. destruct (div_core_located mx ex my ey) as (q0 & e0 & l0 & E0 & He & H).
  rewrite E in E0. injection E0 as <- <- <-.
  rewrite fexp_eq in *. destruct (Z_le_gt_dec e' (-1074)) as [Hle|Hgt]; [lia|].
  destruct H as (Hq & HD & HND & _). rewrite shr_m_of_loc in *.
  pose proof (Zdigits2_bounds mx) as [Lx _]. pose proof (Zdigits2_bounds my) as [_ Uy].
  remember (Z.pos (digits2_pos mx)) as d1. remember (Z.pos (digits2_pos my)) as d2.
  assert (Hd1 : 0 < d1) by (subst; lia). assert (Hd2 : 0 < d2) by (subst; lia).
  assert (Hs : 53 - d1 + d2 <= ex - ey - e') by lia.
  assert (Hq52 : 2 ^ 52 <= q).
  { assert (Hp : 2 ^ (52 + d2) <= Z.pos mx * 2 ^ (ex - ey - e')).
    { assert (H1 : 2 ^ (52 + d2) <= 2 ^ (d1 - 1 + (ex - ey - e')))
        by (apply Z.pow_le_mono_r; lia).
      rewrite (Z.pow_add_r 2 (d1 - 1)) in H1 by lia.
      assert (0 < 2 ^ (ex - ey - e')) by (apply Z.pow_pos_nonneg; lia).
      etransitivity; [exact H1|]. apply Z.mul_le_mono_nonneg_r; lia. }
    rewrite Z.pow_add_r in Hp by lia.
    remember (2 ^ 52) as T. remember (2 ^ d2) as Y.
    remember (Z.pos mx * 2 ^ (ex - ey - e')) as NN.
    assert (HT : 0 < T) by (subst T; reflexivity).
    clear HeqT HeqY HeqNN. nia. }
  pose proof (Zdigits2_ge q 52 ltac:(lia) Hq52). lia.
Qed.

Lemma div_normal x my ey : normal (Float.div x (S754_finite false my ey)).
Proof.
  destruct x as [sx|sx| |sx mx ex]; try exact I.
  unfold Float.div, SFdiv.
  destruct (div_core_located mx ex my ey) as (q & e' & loc & E & _ & H).
  rewrite E. apply (bra_normal _ _ _ _ _ _ H). now apply (div_core_fine mx ex my ey q e' loc).
Qed.

Lemma of_Z_3600 : Float.of_Z 3600 = S754_finite false 7916483719987200 (-41).
Proof. reflexivity. Qed.

(** The value of the quotient's operands, as [div_core_located] has them. *)
Lemma div_3600_scale mx ex e' :
  -1074 <= ex -> e' <= ex - -41 -> -1074 <= e' ->
  Z.pos mx * 2 ^ (ex - -41 - e') * 2 ^ (e' + 1074)
  = ulps (S754_finite false mx ex) * 2 ^ 41.
Proof.
  intros Hex He He'. cbn [ulps].
  rewrite <- !Z.mul_assoc, <- !Z.pow_add_r by lia. do 2 f_equal. lia.
Qed.

Lemma div_3600_exponent mx ex :
  -1074 <= ex ->
  -1074 <= Z.min (fexp Float.prec Float.emax
                    (Z.pos (digits2_pos mx) + ex
                     - (Z.pos (digits2_pos 7916483719987200) + -41)))
                 (ex - -41).
Proof. intros H. rewrite fexp_eq. lia. Qed.

(** More than 14400 seconds are more than [4 + 2^-50] hours. *)
Lemma div_3600_lower x :
  x = S754_infinity false \/ (good x /\ 14401 * hour <= ulps x) ->
  Float.div x (Float.of_Z 3600) = S754_infinity false
  \/ (good (Float.div x (Float.of_Z 3600))
      /\ (2 ^ 52 + 1) * 2 ^ (-50 + 1074) <= ulps (Float.div x (Float.of_Z 3600))).
Proof.
  rewrite of_Z_3600. intros [->|[Hg Hu]]; [now left|].
  destruct x as [[]|[]| |[] mx ex]; try contradiction.
  unfold Float.div, SFdiv. cbn [good] in Hg.
  destruct (div_core_located mx ex 7916483719987200 (-41)) as (q & e' & loc & E & He & H).
  rewrite E. cbn [xorb].
  pose proof (div_3600_exponent mx ex ltac:(lia)) as He0. rewrite <- He in He0.
  assert (Hm : 0 < 2 ^ 52 + 1 < 2 ^ 53) by (split; reflexivity).
  apply (bra_lower q e' loc _ _ (2 ^ 52 + 1) (-50) H
           (div_core_fine _ _ _ _ _ _ _ E) He0 ltac:(lia) Hm).
  rewrite (div_3600_scale mx ex e') by lia.
  remember (ulps (S754_finite false mx ex)) as U.
  assert (Hc : (2 ^ 52 + 1) * 2 ^ (-50 + 1074) * 7916483719987200
               <= 14401 * hour * 2 ^ 41) by (apply Z.leb_le; reflexivity).
  etransitivity; [exact Hc|]. apply Z.mul_le_mono_nonneg_r; [|exact Hu].
  apply Z.pow_nonneg. lia.
Qed.

(** At most 14400 seconds are at most 4 hours. *)
Lemma div_3600_upper x :
  good x -> ulps x <= 14400 * hour ->
  good (Float.div x (Float.of_Z 3600))
  /\ ulps (Float.div x (Float.of_Z 3600)) <= 2 ^ 52 * 2 ^ (-50 + 1074).
Proof.
  rewrite of_Z_3600. intros Hg Hu.
  destruct x as [[]|[]| |[] mx ex]; try contradiction.
  { cbn. split; [exact I|]. apply Z.leb_le. reflexivity. }
  unfold Float.div, SFdiv. cbn [good] in Hg.
  destruct (div_core_located mx ex 7916483719987200 (-41)) as (q & e' & loc & E & He & H).
  rewrite E. cbn [xorb].
  pose proof (div_3600_exponent mx ex ltac:(lia)) as He0. rewrite <- He in He0.
  assert (Hd : Z.pos (digits2_pos mx) + (ex + 1074) <= 14 + 1074).
  { apply digits_scaled_le; [lia|]. cbn [ulps] in Hu.
    assert (Hc : 14400 * hour < 2 ^ (14 + 1074)) by reflexivity.
    eapply Z.le_lt_trans; [exact Hu | exact Hc]. }
  assert (He1 : e' <= -50).
  { rewrite He, fexp_eq. change (Z.pos (digits2_pos 7916483719987200)) with 53. lia. }
  assert (Hm : 0 < 2 ^ 52 < 2 ^ 53) by (split; reflexivity).
  apply (bra_upper q e' loc _ _ (2 ^ 52) (-50) H); try lia.
  rewrite (div_3600_scale mx ex e') by lia.
  remember (ulps (S754_finite false mx ex)) as U.
  assert (Hc : 14400 * hour * 2 ^ 41 = 2 ^ 52 * 2 ^ (-50 + 1074) * 7916483719987200)
    by reflexivity.
  rewrite <- Hc. apply Z.mul_le_mono_nonneg_r; [|exact Hu]. apply Z.pow_nonneg. lia.
Qed.

(** On normal floats, the order of the floats is the order of their
    values. *)
Lemma ltb_normal x y :
  good x -> good y -> normal x -> normal y ->
  Float.ltb x y = (ulps x <? ulps y).
Proof.
  destruct x as [[]|[]| |[] m1 e1]; try contradiction;
    destruct y as [[]|[]| |[] m2 e2]; try contradiction; intros Hx Hy Nx Ny;
    cbn [good normal] in *; unfold Float.ltb, SFltb, SFcompare.
  - reflexivity.
  - symmetry. apply Z.ltb_lt. cbn [ulps]. apply Z.mul_pos_pos; [lia|].
    apply Z.pow_pos_nonneg; lia.
  - symmetry. apply Z.ltb_ge. cbn [ulps]. apply Z.mul_nonneg_nonneg; [lia|].
    apply Z.pow_nonneg; lia.
  - cbn [ulps].
    assert (P1 : 0 < 2 ^ (e1 + 1074)) by (apply Z.pow_pos_nonneg; lia).
    assert (P2 : 0 < 2 ^ (e2 + 1074)) by (apply Z.pow_pos_nonneg; lia).
    assert (Hstep : forall ma ea mb eb,
              Z.pos ma < 2 ^ 53 -> -1074 <= ea -> ea < eb -> 2 ^ 52 <= Z.pos mb ->
              Z.pos ma * 2 ^ (ea + 1074) < Z.pos mb * 2 ^ (eb + 1074)).
    { intros ma ea mb eb Ha Hea Hlt Hb.
      replace (eb + 1074) with (eb - ea + (ea + 1074)) by lia.
      rewrite (Z.pow_add_r 2 (eb - ea)) by lia.
      assert (Q1 : 0 < 2 ^ (ea + 1074)) by (apply Z.pow_pos_nonneg; lia).
      assert (Q2 : 2 ^ 1 <= 2 ^ (eb - ea)) by (apply Z.pow_le_mono_r; lia).
      change (2 ^ 1) with 2 in Q2.
      remember (2 ^ (ea + 1074)) as A. remember (2 ^ (eb - ea)) as K.
      remember (2 ^ 52) as T. assert (HT : 2 ^ 53 = 2 * T) by (subst T; reflexivity).
      rewrite HT in Ha. assert (0 < T) by (subst T; reflexivity).
      clear HeqT HeqA HeqK HT.
      assert (Z.pos ma * A < 2 * T * A) by (apply Z.mul_lt_mono_pos_r; lia).
      assert (2 * T * A <= Z.pos mb * K * A).
      { apply Z.mul_le_mono_nonneg_r; [lia|]. nia. }
      lia. }
    destruct (Z.compare_spec e1 e2) as [E|E|E].
    + subst e2. rewrite Pos.compare_cont_spec. cbn [Pos.switch_Eq].
      remember (2 ^ (e1 + 1074)) as A.
      destruct (Pos.compare_spec m1 m2) as [Em|Em|Em]; symmetry.
      * subst. apply Z.ltb_irrefl.
      * apply Z.ltb_lt. apply Z.mul_lt_mono_pos_r; [lia|]. apply Pos2Z.pos_lt_pos, Em.
      * apply Z.ltb_ge. apply Z.mul_le_mono_nonneg_r; [lia|].
        apply Z.lt_le_incl, Pos2Z.pos_lt_pos, Em.
    + symmetry. apply Z.ltb_lt. apply Hstep; try lia.
    + symmetry. apply Z.ltb_ge. apply Z.lt_le_incl. apply Hstep; try lia.
Qed.

Lemma MAX_GAP_HOURS_normal : good MAX_GAP_HOURS /\ normal MAX_GAP_HOURS
  /\ ulps MAX_GAP_HOURS = 2 ^ 52 * 2 ^ (-50 + 1074).
Proof.
  rewrite MAX_GAP_HOURS_eq. cbn [good normal ulps]. repeat split; try reflexivity.
  - lia.
  - lia.
  - right. reflexivity.
Qed.

Lemma threshold (d : Z) :
  0 <= d ->
  Float.ltb MAX_GAP_HOURS (Float.div (Float.of_Z d) (Float.of_Z 3600)) = (14400 <? d).
Proof.
  intros Hd. destruct MAX_GAP_HOURS_normal as (Gm & Nm & Um).
  assert (Hn : normal (Float.div (Float.of_Z d) (Float.of_Z 3600)))
    by (rewrite of_Z_3600; apply div_normal).
  assert (Hh : 0 < hour) by reflexivity.
  destruct (Z.ltb_spec 14400 d) as [Hlt|Hle].
  - assert (Hx : Float.of_Z d = S754_infinity false
                 \/ (good (Float.of_Z d) /\ 14401 * hour <= ulps (Float.of_Z d))).
    { destruct (Z_lt_le_dec d (2 ^ 53)) as [Hs|Hb].
      - destruct (of_Z_exact d ltac:(lia)) as (Hg & _ & Hu). right. split; trivial.
        rewrite Hu. apply Z.mul_le_mono_nonneg_r; lia.
      - destruct (of_Z_big d Hb) as [Hi|(Hg & _ & Hu)]; [now left|right]. split; trivial.
        etransitivity; [|exact Hu]. apply Z.mul_le_mono_nonneg_r; [lia|].
        apply Z.leb_le. reflexivity. }
    destruct (div_3600_lower _ Hx) as [->|[Hg Hu]].
    + rewrite MAX_GAP_HOURS_eq. reflexivity.
    + rewrite (ltb_normal _ _ Gm Hg Nm Hn), Um. apply Z.ltb_lt.
      eapply Z.lt_le_trans; [|exact Hu]. reflexivity.
  - assert (H53 : 14400 < 2 ^ 53) by reflexivity.
    destruct (of_Z_exact d ltac:(lia)) as (Hg & _ & Hu).
    destruct (div_3600_upper (Float.of_Z d) Hg) as [Hg' Hu'].
    + rewrite Hu. apply Z.mul_le_mono_nonneg_r; lia.
    + rewrite (ltb_normal _ _ Gm Hg' Nm Hn), Um. apply Z.ltb_ge. exact Hu'.
Qed.

(** X16. The gap protection rule fires exactly beyond 14400 seconds: for
    two commits in ascending order, the quotient of their distance by 3600
    in floating point is greater than 4.0 when, and only when, they are
    more than 14400 seconds apart, so that the credit is 1.0 hour then, and
    the gap itself otherwise.  Rounding never moves the threshold. *)
Theorem gap_protection_threshold (a b : Commit) :
  timestamp a <= timestamp b ->
  Float.ltb MAX_GAP_HOURS (gap_hours a b) = (14400 <? timestamp b - timestamp a)
  /\ credited (gap_hours a b)
     = if 14400 <? timestamp b - timestamp a then MAX_GAP_CREDIT else gap_hours a b.
Proof.
  intros H. assert (E := threshold (timestamp b - timestamp a) ltac:(lia)).
  unfold credited, gap_hours in *. now rewrite E.
Qed.

(** ** Sessions of long gaps *)

Lemma normal_step ma ea mb eb :
  Z.pos ma < 2 ^ 53 -> -1074 <= ea -> ea < eb -> 2 ^ 52 <= Z.pos mb ->
  Z.pos ma * 2 ^ (ea + 1074) < Z.pos mb * 2 ^ (eb + 1074).
Proof.
  intros Ha Hea Hlt Hb.
  replace (eb + 1074) with (eb - ea + (ea + 1074)) by lia.
  rewrite (Z.pow_add_r 2 (eb - ea)) by lia.
  assert (Q1 : 0 < 2 ^ (ea + 1074)) by (apply Z.pow_pos_nonneg; lia).
  assert (Q2 : 2 ^ 1 <= 2 ^ (eb - ea)) by (apply Z.pow_le_mono_r; lia).
  change (2 ^ 1) with 2 in Q2.
  remember (2 ^ (ea + 1074)) as A. remember (2 ^ (eb - ea)) as K.
  remember (2 ^ 52) as T. assert (HT : 2 ^ 53 = 2 * T) by (subst T; reflexivity).
  rewrite HT in Ha. assert (0 < T) by (subst T; reflexivity).
  clear HeqT HeqA HeqK HT.
  assert (Z.pos ma * A < 2 * T * A) by (apply Z.mul_lt_mono_pos_r; lia).
  assert (2 * T * A <= Z.pos mb * K * A).
  { apply Z.mul_le_mono_nonneg_r; [lia|]. nia. }
  lia.
Qed.

(** A value has one normal float. *)
Lemma normal_unique x y :
  good x -> good y -> normal x -> normal y -> ulps x = ulps y -> x = y.
Proof.
  destruct x as [[]|[]| |[] m1 e1]; try contradiction;
    destruct y as [[]|[]| |[] m2 e2]; try contradiction; intros Hx Hy Nx Ny;
    cbn [good normal ulps] in *; intros E; trivial.
  - exfalso. assert (0 < Z.pos m2 * 2 ^ (e2 + 1074)); [|lia].
    apply Z.mul_pos_pos; [lia|]. apply Z.pow_pos_nonneg; lia.
  - exfalso. assert (0 < Z.pos m1 * 2 ^ (e1 + 1074)); [|lia].
    apply Z.mul_pos_pos; [lia|]. apply Z.pow_pos_nonneg; lia.
  - destruct (Z.lt_trichotomy e1 e2) as [H|[H|H]].
    + pose proof (normal_step m1 e1 m2 e2 ltac:(lia) ltac:(lia) H ltac:(lia)). lia.
    + subst e2. assert (P : 0 < 2 ^ (e1 + 1074)) by (apply Z.pow_pos_nonneg; lia).
      apply Z.mul_reg_r in E; [|lia]. now injection E as ->.
    + pose proof (normal_step m2 e2 m1 e1 ltac:(lia) ltac:(lia) H ltac:(lia)). lia.
Qed.

Lemma div_scale mx ex ey e' :
  e' <= ex - ey -> -1074 <= e' ->
  Z.pos mx * 2 ^ (ex - ey - e') * 2 ^ (e' + 1074) = Z.pos mx * 2 ^ (ex - ey + 1074).
Proof.
  intros He He'. rewrite <- !Z.mul_assoc, <- !Z.pow_add_r by lia. do 2 f_equal. lia.
Qed.

(** The quotient of two floats is above any bound of the format that the
    exact quotient is above, and below any that it is below. *)
Lemma div_lower mx ex my ey mb eb :
  -1074 <= ex - ey -> -1074 <= eb -> 0 < mb < 2 ^ 53 ->
  mb * 2 ^ (eb + 1074) * Z.pos my <= Z.pos mx * 2 ^ (ex - ey + 1074) ->
  let r := Float.div (S754_finite false mx ex) (S754_finite false my ey) in
  r = S754_infinity false \/ (good r /\ mb * 2 ^ (eb + 1074) <= ulps r).
Proof.
  intros Hxy Heb Hmb H r. subst r. unfold Float.div, SFdiv.
  destruct (div_core_located mx ex my ey) as (q & e' & loc & E & He & HL).
  rewrite E. cbn [xorb].
  assert (He0 : -1074 <= e' <= ex - ey) by (rewrite He, fexp_eq; lia).
  apply (bra_lower q e' loc _ _ mb eb HL (div_core_fine _ _ _ _ _ _ _ E)); try lia.
  rewrite (div_scale mx ex ey e') by lia. exact H.
Qed.

Lemma div_upper mx ex my ey mb eb :
  -1074 <= ex - ey -> -1074 <= eb <= 970 -> 0 < mb < 2 ^ 53 ->
  Z.pos mx * 2 ^ (ex - ey + 1074) <= mb * 2 ^ (eb + 1074) * Z.pos my ->
  let r := Float.div (S754_finite false mx ex) (S754_finite false my ey) in
  good r /\ ulps r <= mb * 2 ^ (eb + 1074).
Proof.
  intros Hxy Heb Hmb H r. subst r. unfold Float.div, SFdiv.
  destruct (div_core_located mx ex my ey) as (q & e' & loc & E & He & HL).
  rewrite E. cbn [xorb].
  assert (He0 : -1074 <= e' <= ex - ey) by (rewrite He, fexp_eq; lia).
  assert (He1 : e' <= eb).
  { rewrite He, fexp_eq.
    pose proof (Zdigits2_bounds mx) as [Lx _]. pose proof (Zdigits2_bounds my) as [_ Uy].
    remember (Z.pos (digits2_pos mx)) as d1. remember (Z.pos (digits2_pos my)) as d2.
    assert (Hd1 : 0 < d1) by (subst; lia). assert (Hd2 : 0 < d2) by (subst; lia).
    assert (Hlt : 2 ^ (d1 - 1 + (ex - ey + 1074)) < 2 ^ (53 + (eb + 1074) + d2)).
    { rewrite (Z.pow_add_r 2 (d1 - 1)), (Z.pow_add_r 2 (53 + (eb + 1074))),
        (Z.pow_add_r 2 53) by lia.
      assert (PA : 0 < 2 ^ (ex - ey + 1074)) by (apply Z.pow_pos_nonneg; lia).
      assert (PB : 0 < 2 ^ (eb + 1074)) by (apply Z.pow_pos_nonneg; lia).
      remember (2 ^ (ex - ey + 1074)) as A. remember (2 ^ (eb + 1074)) as B.
      remember (2 ^ 53) as T. remember (2 ^ d2) as Y. remember (2 ^ (d1 - 1)) as X.
      assert (0 < T) by (subst T; reflexivity).
      clear HeqA HeqB HeqT HeqY HeqX He.
      assert (X * A <= Z.pos mx * A) by (apply Z.mul_le_mono_nonneg_r; lia).
      assert (mb * B * Z.pos my < T * B * Y); [|lia].
      assert (mb * B < T * B) by (apply Z.mul_lt_mono_pos_r; lia).
      assert (0 < mb * B) by (apply Z.mul_pos_pos; lia).
      nia. }
    apply Z.pow_lt_mono_r_iff in Hlt; lia. }
  apply (bra_upper q e' loc _ _ mb eb HL); try lia.
  rewrite (div_scale mx ex ey e') by lia. exact H.
Qed.

Lemma of_Z_100 : Float.of_Z 100 = S754_finite false 7036874417766400 (-46).
Proof. reflexivity. Qed.

Lemma rhe_exact b D : 0 < D -> Float.round_half_even (b * D) D = b.
Proof.
  intros HD. apply Z.le_antisymm; [apply rhe_le | apply rhe_ge]; lia.
Qed.

(** An integer is its own rounding to two places. *)
Lemma round2_of_Z n : 0 <= n < 2 ^ 53 -> Float.round2 (Float.of_Z n) = Float.of_Z n.
Proof.
  intros Hn. destruct (of_Z_exact n Hn) as (Hg & Hnm & Hu).
  destruct (Float.of_Z n) as [[]|[]| |[] m e] eqn:En; try contradiction; trivial.
  cbn [good ulps] in Hg, Hu. unfold Float.round2.
  assert (Hh : Float.hundredths m e = 100 * n).
  { unfold Float.hundredths. unfold hour in Hu.
    destruct (Z.leb_spec 0 e) as [H0|H0].
    - rewrite (Z.pow_add_r 2 e 1074) in Hu by lia.
      assert (P : 0 < 2 ^ 1074) by reflexivity.
      rewrite Z.mul_assoc in Hu. apply Z.mul_reg_r in Hu; lia.
    - assert (E : 2 ^ 1074 = 2 ^ (- e) * 2 ^ (e + 1074)).
      { rewrite <- Z.pow_add_r by lia. f_equal. lia. }
      rewrite E, Z.mul_assoc in Hu.
      assert (P : 0 < 2 ^ (e + 1074)) by (apply Z.pow_pos_nonneg; lia).
      apply Z.mul_reg_r in Hu; [|lia]. rewrite Hu.
      replace (n * 2 ^ (- e) * 100) with (100 * n * 2 ^ (- e)) by ring.
      apply rhe_exact. apply Z.pow_pos_nonneg; lia. }
  rewrite Hh. assert (Hpos : 0 < n).
  { assert (0 < Z.pos m * 2 ^ (e + 1074)); [|unfold hour in Hu; nia].
    apply Z.mul_pos_pos; [lia|]. apply Z.pow_pos_nonneg; lia. }
  destruct n as [|p|p]; try lia. change (100 * Z.pos p) with (Z.pos (100 * p)).
  cbv iota. rewrite of_Z_100.
  assert (Hv : Z.pos (100 * p) * 2 ^ (0 - -46 + 1074)
               = Z.pos p * 2 ^ (0 + 1074) * 7036874417766400).
  { rewrite Pos2Z.inj_mul. change (2 ^ (0 - -46 + 1074)) with (2 ^ (0 + 1074) * 2 ^ 46).
    remember (2 ^ (0 + 1074)) as H. change (2 ^ 46) with 70368744177664. lia. }
  destruct (div_upper (100 * p) 0 7036874417766400 (-46) (Z.pos p) 0) as [Hg' Hu'];
    try lia.
  destruct (div_lower (100 * p) 0 7036874417766400 (-46) (Z.pos p) 0) as [Hi|[_ Hl]];
    try lia.
  { rewrite Hi in Hg'. destruct Hg'. }
  apply normal_unique; trivial.
  - apply div_normal.
  - rewrite <- En. destruct (of_Z_exact (Z.pos p) Hn) as (_ & _ & ->).
    change hour with (2 ^ (0 + 1074)). lia.
Qed.

Lemma MAX_GAP_CREDIT_one :
  good MAX_GAP_CREDIT /\ normal MAX_GAP_CREDIT /\ ulps MAX_GAP_CREDIT = hour.
Proof.
  rewrite MAX_GAP_CREDIT_eq. cbn [good normal ulps]. repeat split; try reflexivity.
  - lia.
  - lia.
  - right. reflexivity.
Qed.

(** Counting hours one by one is exact. *)
Lemma add_one k :
  0 <= k -> k + 1 < 2 ^ 53 -> Float.add (Float.of_Z k) MAX_GAP_CREDIT = Float.of_Z (k + 1).
Proof.
  intros Hk Hlt. destruct MAX_GAP_CREDIT_one as (G1 & N1 & U1).
  destruct (of_Z_exact k ltac:(lia)) as (Gk & Nk & Uk).
  destruct (of_Z_exact (k + 1) ltac:(lia)) as (Gs & Ns & Us).
  assert (Hh : 0 < hour) by reflexivity.
  destruct (add_cases _ _ Gk G1) as [[_ H]|[[H H0]|(p & e & He & H & Hv)]].
  - lia.
  - rewrite H. assert (k = 0) by nia. subst k. reflexivity.
  - rewrite H. rewrite Uk, U1 in Hv.
    assert (Hv' : Z.pos p * 2 ^ (e + 1074) = (k + 1) * 2 ^ (0 + 1074)).
    { rewrite Hv. change (2 ^ (0 + 1074)) with hour. ring. }
    destruct (binary_round_upper p e (k + 1) 0) as [Hg' Hu']; try lia.
    destruct (binary_round_lower p e (k + 1) 0) as [Hi|[_ Hl]]; try lia.
    { rewrite Hi in Hg'. destruct Hg'. }
    apply normal_unique; trivial.
    + now apply binary_round_normal.
    + rewrite Us. change hour with (2 ^ (0 + 1074)). lia.
Qed.

Lemma sum_ones ps k :
  Forall (fun p => 14400 < snd p - fst p) ps ->
  0 <= k -> k + Z.of_nat (List.length ps) < 2 ^ 53 ->
  fold_left (fun acc p => Float.add acc (credited (hours_between (fst p) (snd p))))
            ps (Float.of_Z k)
  = Float.of_Z (k + Z.of_nat (List.length ps)).
Proof.
  intros H. revert k. induction H as [|p ps Hp _ IH]; intros k Hk Hlt.
  - cbn. f_equal. lia.
  - cbn [fold_left List.length] in *. unfold credited at 2, hours_between at 2.
    rewrite (threshold (snd p - fst p)) by lia.
    destruct (Z.ltb_spec 14400 (snd p - fst p)); [|lia].
    rewrite add_one by lia. rewrite IH by lia. f_equal. lia.
Qed.

(** X17. One hour for each long gap: when the commits of a Complete
    session, in ascending order, are each more than 14400 seconds after the
    one before, the duration is the number of gaps, exactly: the sum of the
    credits and its rounding to two places lose nothing. *)
Theorem long_gaps_count_one_hour_each (s : Session) (e : Commit) :
  end_commit s = Some e ->
  Forall (fun p => 14400 < snd p - fst p)
         (pairs (map timestamp (sort_by_timestamp (session_commits s)))) ->
  Z.of_nat (List.length (intermediate_commits s)) + 1 < 2 ^ 53 ->
  calculate_duration s = Float.of_Z (Z.of_nat (List.length (intermediate_commits s)) + 1).
Proof.
  intros He Hgaps Hn. rewrite (calculate_duration_pairs s e He).
  rewrite <- (session_commits_complete s e He). unfold sum_credited.
  assert (Hlen : Z.of_nat (List.length
                   (pairs (map timestamp (sort_by_timestamp (session_commits s)))))
                 = Z.of_nat (List.length (intermediate_commits s)) + 1).
  { rewrite pairs_length, length_map, sort_by_timestamp_length.
    rewrite (session_commits_complete s e He), !length_app. cbn [List.length]. lia. }
  change Float.zero with (Float.of_Z 0).
  rewrite (sum_ones _ 0 Hgaps) by lia. rewrite Hlen.
  apply round2_of_Z. lia.
Qed.

(** ** The reference in exact arithmetic *)

Lemma to_Q_sulps x :
  Exact.representable x ->
  (Float.to_Q x * inject_Z (2 ^ 1074) == inject_Z (sulps x))%Q.
Proof.
  destruct x as [s|s| |s m e]; try contradiction; intros H; try reflexivity.
  cbn [Exact.representable] in H.
  assert (E : (inject_Z (Z.pos m) * Qpower 2 e * inject_Z (2 ^ 1074)
               == inject_Z (Z.pos m * 2 ^ (e + 1074)))%Q).
  { rewrite inject_Z_mult, !Zpower_Qpower by lia.
    rewrite (Qpower_plus (inject_Z 2) e 1074) by discriminate.
    symmetry. apply Qmult_assoc. }
  cbn [Float.to_Q sulps]. destruct s; [|exact E].
  rewrite inject_Z_opp, <- E. ring.
Qed.

Lemma good_representable x : good x -> Exact.representable x.
Proof. destruct x as [[]|[]| |[] m e]; cbn; tauto. Qed.

Lemma sulps_good x : good x -> sulps x = ulps x.
Proof. destruct x as [[]|[]| |[] m e]; try contradiction; reflexivity. Qed.

(** From distances between integers to distances between rationals. *)
Lemma nearest_scaled (x : Float.float) (q : Q) (V D : Z) :
  Exact.representable x -> 0 < D ->
  (q * inject_Z (D * 2 ^ 1074) == inject_Z V)%Q ->
  (forall y, Exact.representable y ->
             Z.abs (sulps x * D - V) <= Z.abs (sulps y * D - V)) ->
  Exact.nearest q x.
Proof.
  intros Hx HD Hq H. split; trivial. intros y Hy.
  assert (HK : (0 < inject_Z (D * 2 ^ 1074))%Q).
  { change (inject_Z 0 < inject_Z (D * 2 ^ 1074))%Q. rewrite <- Zlt_Qlt.
    apply Z.mul_pos_pos; [exact HD | reflexivity]. }
  assert (Hs : forall z, Exact.representable z ->
             (Qabs (Float.to_Q z - q) * inject_Z (D * 2 ^ 1074)
              == inject_Z (Z.abs (sulps z * D - V)))%Q).
  { intros z Hz.
    change (inject_Z (Z.abs (sulps z * D - V)))
      with (Qabs (inject_Z (sulps z * D - V))).
    transitivity (Qabs (Float.to_Q z - q) * Qabs (inject_Z (D * 2 ^ 1074)))%Q.
    - apply Qmult_comp; [reflexivity|]. symmetry. apply Qabs_pos.
      now apply Qlt_le_weak.
    - rewrite <- Qabs_Qmult. apply Qabs_wd.
      unfold Zminus. rewrite inject_Z_plus, inject_Z_opp, (inject_Z_mult (sulps z)).
      rewrite <- (to_Q_sulps z Hz), <- Hq. rewrite (inject_Z_mult D). ring. }
  apply (Qmult_lt_0_le_reg_r _ _ (inject_Z (D * 2 ^ 1074)) HK).
  rewrite (Hs x Hx), (Hs y Hy), <- Zle_Qle. now apply H.
Qed.

Lemma nearest_exact (x : Float.float) (q : Q) :
  Exact.representable x -> (Float.to_Q x == q)%Q -> Exact.nearest q x.
Proof.
  intros Hx E. split; trivial. intros y _.
  assert (H0 : (Float.to_Q x - q == 0)%Q) by (rewrite E; ring).
  rewrite H0. apply Qabs_nonneg.
Qed.

Lemma nearest_compat (q q' : Q) (x : Float.float) :
  (q == q')%Q -> Exact.nearest q x -> Exact.nearest q' x.
Proof.
  intros E [Hx H]. split; trivial. intros y Hy. rewrite <- E. now apply H.
Qed.

(** Among the floats that are not negative it is enough to look, when the
    number itself is not negative. *)
Lemma closest_nonneg (x : Float.float) (V D : Z) :
  good x -> 0 <= V -> 0 < D ->
  (forall y, good y -> Z.abs (ulps x * D - V) <= Z.abs (ulps y * D - V)) ->
  forall y, Exact.representable y ->
    Z.abs (sulps x * D - V) <= Z.abs (sulps y * D - V).
Proof.
  intros Hx HV HD H y Hy. rewrite (sulps_good x Hx).
  destruct y as [sy|sy| |sy my ey]; try contradiction.
  - exact (H (S754_zero false) I).
  - cbn [Exact.representable] in Hy. destruct sy.
    + specialize (H (S754_zero false) I). cbn [ulps] in H. cbn [sulps].
      assert (0 < Z.pos my * 2 ^ (ey + 1074)).
      { apply Z.mul_pos_pos; [lia|]. apply Z.pow_pos_nonneg; lia. }
      remember (Z.pos my * 2 ^ (ey + 1074)) as u. remember (ulps x * D) as a.
      assert (0 <= u * D) by (apply Z.mul_nonneg_nonneg; lia).
      replace (- u * D) with (- (u * D)) by ring. lia.
    + exact (H (S754_finite false my ey) Hy).
Qed.

Lemma rhe_nearest N D k :
  0 < D -> Z.abs (Float.round_half_even N D * D - N) <= Z.abs (k * D - N).
Proof.
  intros HD. unfold Float.round_half_even.
  pose proof (Z.div_mod N D ltac:(lia)) as E.
  pose proof (Z.mod_pos_bound N D HD) as Hr.
  remember (N / D) as q. remember (N mod D) as r.
  destruct (Z_le_gt_dec k q) as [Hk|Hk].
  - assert (k * D <= q * D) by (apply Z.mul_le_mono_nonneg_r; lia).
    destruct (Z.compare_spec (2 * r) D); [destruct (Z.even q)| |]; lia.
  - assert ((q + 1) * D <= k * D) by (apply Z.mul_le_mono_nonneg_r; lia).
    destruct (Z.compare_spec (2 * r) D); [destruct (Z.even q)| |]; lia.
Qed.

(** Where the exponent of the format is not the least one, the number to
    round is not below [2^52] at that exponent. *)
Lemma bra_floor m e l N D :
  located (shr_record_of_loc m l) N D ->
  e <= fexp Float.prec Float.emax (Zdigits2 m + e) ->
  let f := fexp Float.prec Float.emax (Zdigits2 m + e) in
  f = -1074 \/ 2 ^ 52 * (D * 2 ^ (f - e)) <= N.
Proof.
  intros H He f.
  destruct (Z.eq_dec f (-1074)) as [E|E]; [now left|right].
  destruct H as (Hm0 & HD & HND & _). rewrite shr_m_of_loc in *.
  assert (Hfe : f = Zdigits2 m + e - 53) by (unfold f in *; rewrite fexp_eq in *; lia).
  destruct m as [|p|p]; [change (Zdigits2 0) with 0 in *; lia| |lia].
  cbn [Zdigits2] in *. pose proof (Zdigits2_bounds p) as [Lp _].
  replace (Z.pos (digits2_pos p) - 1) with (52 + (f - e)) in Lp by lia.
  rewrite Z.pow_add_r in Lp by lia.
  assert (P : 0 < 2 ^ (f - e)) by (apply Z.pow_pos_nonneg; lia).
  remember (2 ^ (f - e)) as K. remember (2 ^ 52) as T.
  assert (T * K * D <= Z.pos p * D) by (apply Z.mul_le_mono_nonneg_r; lia). lia.
Qed.

(** The value of what [binary_round_aux] returns, when it is finite. *)
Lemma bra_value m e l N D :
  located (shr_record_of_loc m l) N D ->
  e <= fexp Float.prec Float.emax (Zdigits2 m + e) ->
  good (binary_round_aux Float.prec Float.emax false m e l) ->
  let f := fexp Float.prec Float.emax (Zdigits2 m + e) in
  ulps (binary_round_aux Float.prec Float.emax false m e l)
  = Float.round_half_even N (D * 2 ^ (f - e)) * 2 ^ (f + 1074).
Proof.
  intros H He Hg. cbv zeta.
  destruct (bra_fine false m e l N D H He) as (Hm1 & Hf & _ & E0).
  rewrite E0 in *. clear E0.
  set (f := fexp Float.prec Float.emax (Zdigits2 m + e)) in *.
  set (m1 := Float.round_half_even N (D * 2 ^ (f - e))) in *.
  destruct (Z.eqb_spec m1 (2 ^ 53)) as [E|E].
  - unfold mk in *. change (2 ^ 52) with (Z.pos 4503599627370496) in *.
    destruct (Z.leb_spec (f + 1) 971); [|destruct Hg].
    cbn [ulps]. rewrite E. replace (f + 1 + 1074) with (1 + (f + 1074)) by lia.
    rewrite (Z.pow_add_r 2 1) by lia.
    change (2 ^ 53) with (Z.pos 4503599627370496 * 2 ^ 1). ring.
  - destruct m1 as [|p|p]; [reflexivity| |lia]. unfold mk in *.
    destruct (Z.leb_spec f 971); [reflexivity|destruct Hg].
Qed.

(** What [binary_round_aux] returns is a float nearest to the number it
    rounds. *)
Lemma bra_closest m e l N D :
  located (shr_record_of_loc m l) N D ->
  e <= fexp Float.prec Float.emax (Zdigits2 m + e) ->
  -1074 <= e ->
  good (binary_round_aux Float.prec Float.emax false m e l) ->
  forall y, good y ->
    Z.abs (ulps (binary_round_aux Float.prec Float.emax false m e l) * D
           - N * 2 ^ (e + 1074))
    <= Z.abs (ulps y * D - N * 2 ^ (e + 1074)).
Proof.
  intros H He He0 Hg y Hy.
  rewrite (bra_value m e l N D H He Hg). cbv zeta.
  pose proof (bra_floor m e l N D H He) as Hfl. cbv zeta in Hfl.
  set (f := fexp Float.prec Float.emax (Zdigits2 m + e)) in *.
  assert (Hf : -1074 <= f) by (unfold f; rewrite fexp_eq; lia).
  destruct H as (Hm0 & HD & HND & _). rewrite shr_m_of_loc in *.
  assert (PK : 0 < 2 ^ (f - e)) by (apply Z.pow_pos_nonneg; lia).
  assert (PE : 0 < 2 ^ (e + 1074)) by (apply Z.pow_pos_nonneg; lia).
  assert (EF : 2 ^ (f + 1074) = 2 ^ (f - e) * 2 ^ (e + 1074)).
  { rewrite <- Z.pow_add_r by lia. f_equal. lia. }
  remember (2 ^ (f - e)) as K. remember (2 ^ (e + 1074)) as E.
  remember (2 ^ (f + 1074)) as F.
  set (m1 := Float.round_half_even N (D * K)).
  assert (Hk : forall k, Z.abs (m1 * F * D - N * E) <= Z.abs (k * F * D - N * E)).
  { intros k. pose proof (rhe_nearest N (D * K) k ltac:(nia)) as Hn. fold m1 in Hn.
    replace (m1 * F * D - N * E) with ((m1 * (D * K) - N) * E) by (rewrite EF; ring).
    replace (k * F * D - N * E) with ((k * (D * K) - N) * E) by (rewrite EF; ring).
    rewrite !Z.abs_mul, (Z.abs_eq E) by lia.
    apply Z.mul_le_mono_nonneg_r; lia. }
  destruct y as [[]|[]| |[] my ey]; try contradiction.
  - cbn [ulps]. exact (Hk 0).
  - cbn [good ulps] in *. destruct (Z_le_gt_dec f ey) as [Hle|Hgt].
    + assert (Ey : 2 ^ (ey + 1074) = 2 ^ (ey - f) * F).
      { rewrite HeqF, <- Z.pow_add_r by lia. f_equal. lia. }
      rewrite Ey. specialize (Hk (Z.pos my * 2 ^ (ey - f))).
      now rewrite <- !Z.mul_assoc in *.
    + destruct Hfl as [Hfl|Hfl]; [lia|].
      assert (Py : 0 < 2 ^ (ey + 1074)) by (apply Z.pow_pos_nonneg; lia).
      assert (Hy2 : 2 * 2 ^ (ey + 1074) <= F).
      { rewrite HeqF. change 2 with (2 ^ 1) at 1. rewrite <- Z.pow_add_r by lia.
        apply Z.pow_le_mono_r; lia. }
      remember (2 ^ (ey + 1074)) as Y. remember (2 ^ 52) as T.
      assert (HT : 2 ^ 53 = 2 * T) by (subst T; reflexivity). rewrite HT in Hy.
      assert (H0T : 0 < T) by (subst T; reflexivity).
      specialize (Hk T).
      assert (H1 : Z.pos my * Y * D <= T * F * D).
      { apply Z.mul_le_mono_nonneg_r; [lia|].
        assert (Z.pos my * Y <= 2 * T * Y) by (apply Z.mul_le_mono_nonneg_r; lia).
        assert (T * (2 * Y) <= T * F) by (apply Z.mul_le_mono_nonneg_l; lia).
        lia. }
      assert (H2 : T * F * D <= N * E).
      { replace (T * F * D) with (T * (D * K) * E) by (rewrite EF; ring).
        apply Z.mul_le_mono_nonneg_r; lia. }
      clear HeqT HeqY HeqF HeqE HeqK EF HT. fold m1. lia.
Qed.

Lemma binary_round_closest p e :
  -1074 <= e ->
  good (binary_round Float.prec Float.emax false p e) ->
  forall y, good y ->
    Z.abs (ulps (binary_round Float.prec Float.emax false p e) * 1
           - Z.pos p * 2 ^ (e + 1074))
    <= Z.abs (ulps y * 1 - Z.pos p * 2 ^ (e + 1074)).
Proof.
  intros He. destruct (binary_round_fine p e He) as (mz & ez & -> & Hez & Hf & Hv).
  rewrite <- Hv. intros Hg. apply bra_closest; trivial. apply located_exact. lia.
Qed.

Lemma div_closest mx ex my ey :
  -1074 <= ex - ey ->
  good (Float.div (S754_finite false mx ex) (S754_finite false my ey)) ->
  forall y, good y ->
    Z.abs (ulps (Float.div (S754_finite false mx ex) (S754_finite false my ey))
           * Z.pos my - Z.pos mx * 2 ^ (ex - ey + 1074))
    <= Z.abs (ulps y * Z.pos my - Z.pos mx * 2 ^ (ex - ey + 1074)).
Proof.
  intros Hxy. unfold Float.div, SFdiv.
  destruct (div_core_located mx ex my ey) as (q & e' & loc & E & He & HL).
  rewrite E. cbn [xorb].
  assert (He0 : -1074 <= e' <= ex - ey) by (rewrite He, fexp_eq; lia).
  rewrite <- (div_scale mx ex ey e') by lia.
  intros Hg. apply bra_closest; trivial; [|lia].
  exact (div_core_fine _ _ _ _ _ _ _ E).
Qed.

Lemma ulps_zero_value x : good x -> ulps x = 0 -> (Float.to_Q x == 0)%Q.
Proof.
  destruct x as [[]|[]| |[] m e]; try contradiction; intros Hg Hu; try reflexivity.
  cbn [good ulps] in *. exfalso.
  assert (0 < Z.pos m * 2 ^ (e + 1074)); [|lia].
  apply Z.mul_pos_pos; [lia|]. apply Z.pow_pos_nonneg; lia.
Qed.

(** The gap that the program computes is a float nearest to the gap in
    hours, up to four hours. *)
Lemma gap_nearest (d : Z) :
  0 <= d <= 14400 ->
  Exact.nearest (inject_Z d / 3600) (Float.div (Float.of_Z d) (Float.of_Z 3600)).
Proof.
  intros Hd. assert (H53 : 14400 < 2 ^ 53) by reflexivity.
  destruct (of_Z_exact d ltac:(lia)) as (Hg & _ & Hu).
  assert (Hh : 0 < hour) by reflexivity.
  destruct (div_3600_upper (Float.of_Z d) Hg) as [Hgr _].
  { rewrite Hu. apply Z.mul_le_mono_nonneg_r; lia. }
  rewrite of_Z_3600 in *.
  destruct (Float.of_Z d) as [[]|[]| |[] mx ex] eqn:Ex; try contradiction.
  - assert (d = 0) by (cbn [ulps] in Hu; nia). subst d.
    apply nearest_exact; [exact I | reflexivity].
  - cbn [good] in Hg.
    apply (nearest_scaled _ _ (Z.pos mx * 2 ^ (ex - -41 + 1074)) 7916483719987200).
    + now apply good_representable.
    + reflexivity.
    + replace (Z.pos mx * 2 ^ (ex - -41 + 1074)) with (d * (2 ^ 41 * 2 ^ 1074)).
      * change (7916483719987200 * 2 ^ 1074) with (3600 * (2 ^ 41 * 2 ^ 1074)).
        rewrite !(inject_Z_mult _ (2 ^ 41 * 2 ^ 1074)). field.
      * cbn [ulps] in Hu. unfold hour in Hu.
        replace (ex - -41 + 1074) with (ex + 1074 + 41) by lia.
        rewrite (Z.pow_add_r 2 (ex + 1074) 41) by lia.
        rewrite (Z.mul_assoc (Z.pos mx)), Hu. ring.
    + apply closest_nonneg.
      * exact Hgr.
      * apply Z.mul_nonneg_nonneg; [lia|]. apply Z.pow_nonneg. lia.
      * reflexivity.
      * exact (div_closest mx ex 7916483719987200 (-41) ltac:(lia) Hgr).
Qed.

(** The sum that the program computes is a float nearest to the sum. *)
Lemma add_nearest x y :
  good x -> good y -> good (Float.add x y) ->
  Exact.nearest (Float.to_Q x + Float.to_Q y) (Float.add x y).
Proof.
  intros Hx Hy Hg.
  destruct (add_cases x y Hx Hy) as [[E Hu]|[[E Hu]|(p & e & He & E & Hv)]].
  - rewrite E. apply nearest_exact; [now apply good_representable|].
    rewrite (ulps_zero_value y Hy Hu). ring.
  - rewrite E. apply nearest_exact; [now apply good_representable|].
    rewrite (ulps_zero_value x Hx Hu). ring.
  - rewrite E in *.
    apply (nearest_scaled _ _ (ulps x + ulps y) 1).
    + now apply good_representable.
    + lia.
    + change (1 * 2 ^ 1074) with (2 ^ 1074).
      rewrite inject_Z_plus, <- (to_Q_ulps x Hx), <- (to_Q_ulps y Hy). ring.
    + apply closest_nonneg.
      * exact Hg.
      * pose proof (ulps_nonneg x). pose proof (ulps_nonneg y). lia.
      * lia.
      * rewrite <- Hv. now apply binary_round_closest.
Qed.

Lemma rhe_half N D :
  0 < D ->
  2 * Z.abs (Float.round_half_even N D * D - N) <= D
  /\ (2 * Z.abs (Float.round_half_even N D * D - N) = D ->
      Z.even (Float.round_half_even N D) = true).
Proof.
  intros HD. unfold Float.round_half_even.
  pose proof (Z.div_mod N D ltac:(lia)) as E.
  pose proof (Z.mod_pos_bound N D HD) as Hr.
  remember (N / D) as q. remember (N mod D) as r.
  destruct (Z.compare_spec (2 * r) D) as [H|H|H].
  - destruct (Z.even q) eqn:Eq.
    + split; [lia | trivial].
    + split; [lia|]. intros _. rewrite Z.even_add, Eq. reflexivity.
  - split; lia.
  - split; lia.
Qed.

Lemma nearest_integer_scaled (q : Q) (N D n : Z) :
  0 < D -> (q * inject_Z D == inject_Z N)%Q ->
  2 * Z.abs (n * D - N) <= D ->
  (2 * Z.abs (n * D - N) = D -> Z.even n = true) ->
  Exact.nearest_integer q n.
Proof.
  intros HD Hq Hle Hev.
  assert (HK : (0 < inject_Z D)%Q).
  { change (inject_Z 0 < inject_Z D)%Q. now rewrite <- Zlt_Qlt. }
  assert (Hs : (Qabs (q - inject_Z n) * (2 * inject_Z D)
                == inject_Z (2 * Z.abs (n * D - N)))%Q).
  { rewrite inject_Z_mult.
    change (inject_Z (Z.abs (n * D - N))) with (Qabs (inject_Z (n * D - N))).
    transitivity (2 * (Qabs (q - inject_Z n) * Qabs (inject_Z D)))%Q.
    - rewrite (Qabs_pos (inject_Z D)) by now apply Qlt_le_weak. ring.
    - apply Qmult_comp; [reflexivity|]. rewrite <- Qabs_Qmult.
      rewrite <- (Qabs_opp (inject_Z (n * D - N))). apply Qabs_wd.
      unfold Zminus. rewrite inject_Z_plus, inject_Z_opp, inject_Z_mult, <- Hq. ring. }
  assert (H2K : (0 < 2 * inject_Z D)%Q).
  { apply Qmult_lt_0_compat; [reflexivity | exact HK]. }
  split.
  - apply (Qmult_lt_0_le_reg_r _ _ (2 * inject_Z D) H2K). rewrite Hs.
    setoid_replace ((1 # 2) * (2 * inject_Z D))%Q with (inject_Z D) by ring.
    now rewrite <- Zle_Qle.
  - intros Ht. apply Hev. apply inject_Z_injective.
    rewrite <- Hs, Ht. ring.
Qed.

(** The number of hundredths that the program rounds to is the nearest
    one, the even one on a tie. *)
Lemma hundredths_nearest (m : positive) (e : Z) :
  -1074 <= e ->
  Exact.nearest_integer (100 * Float.to_Q (S754_finite false m e)) (Float.hundredths m e).
Proof.
  intros He. unfold Float.hundredths. cbn [Float.to_Q].
  destruct (Z.leb_spec 0 e) as [H0|H0].
  - apply (nearest_integer_scaled _ (Z.pos m * 2 ^ e * 100) 1); try lia.
    rewrite !inject_Z_mult, Zpower_Qpower by lia.
    change (inject_Z 2) with 2%Q. change (inject_Z 1) with 1%Q.
    change (inject_Z 100) with 100%Q.
    remember (Qpower 2 e) as pw. ring.
  - assert (P : 0 < 2 ^ (- e)) by (apply Z.pow_pos_nonneg; lia).
    destruct (rhe_half (Z.pos m * 100) (2 ^ (- e)) P) as [H1 H2].
    apply (nearest_integer_scaled _ (Z.pos m * 100) (2 ^ (- e))); trivial.
    rewrite inject_Z_mult, Zpower_Qpower by lia.
    change (inject_Z 2) with 2%Q. change (inject_Z 100) with 100%Q.
    assert (E : (Qpower 2 e * Qpower 2 (- e) == 1)%Q).
    { rewrite <- Qpower_plus by discriminate. now replace (e + - e) with 0 by lia. }
    remember (Qpower 2 e) as pw. remember (Qpower 2 (- e)) as pw'.
    transitivity (100 * inject_Z (Z.pos m) * (pw * pw'))%Q; [ring|].
    rewrite E. ring.
Qed.

(** The rounding to two places that the program computes is the rounding
    to the nearest number of hundredths, then to a nearest float. *)
Lemma round2_rounded (x : Float.float) :
  good x -> good (Float.round2 x) -> Exact.rounded2 x (Float.round2 x).
Proof.
  destruct x as [[]|[]| |[] m e]; try contradiction; intros Hx Hr.
  - exists 0. split.
    + apply (nearest_integer_scaled _ 0 1); try lia. reflexivity.
    + apply nearest_exact; [exact I | reflexivity].
  - cbn [good] in Hx. exists (Float.hundredths m e).
    split; [apply hundredths_nearest; lia|].
    unfold Float.round2 in *.
    destruct (Float.hundredths m e) as [|n|n] eqn:En.
    + apply nearest_exact; [exact I | reflexivity].
    + rewrite of_Z_100 in *.
      apply (nearest_scaled _ _ (Z.pos n * 2 ^ (0 - -46 + 1074)) 7036874417766400).
      * now apply good_representable.
      * reflexivity.
      * change (2 ^ (0 - -46 + 1074)) with (2 ^ 46 * 2 ^ 1074).
        change (7036874417766400 * 2 ^ 1074) with (100 * (2 ^ 46 * 2 ^ 1074)).
        rewrite !(inject_Z_mult _ (2 ^ 46 * 2 ^ 1074)). field.
      * apply closest_nonneg.
        -- exact Hr.
        -- apply Z.mul_nonneg_nonneg; [lia|]. apply Z.pow_nonneg. lia.
        -- reflexivity.
        -- exact (div_closest n 0 7036874417766400 (-46) ltac:(lia) Hr).
    + exfalso. assert (0 <= Float.hundredths m e); [|lia].
      unfold Float.hundredths. destruct (Z.leb_spec 0 e).
      * assert (0 < 2 ^ e) by (apply Z.pow_pos_nonneg; lia). nia.
      * apply rhe_nonneg; [apply Z.pow_pos_nonneg|]; lia.
Qed.

Lemma hours_le_4 (t1 t2 : Z) : (Exact.hours t1 t2 <= 4)%Q <-> t2 - t1 <= 14400.
Proof.
  unfold Exact.hours, Qdiv, Qle. cbn [Qinv Qmult Qnum Qden inject_Z].
  remember (t2 - t1) as d. lia.
Qed.

Lemma hours_gt_4 (t1 t2 : Z) : (4 < Exact.hours t1 t2)%Q <-> 14400 < t2 - t1.
Proof.
  unfold Exact.hours, Qdiv, Qlt. cbn [Qinv Qmult Qnum Qden inject_Z].
  remember (t2 - t1) as d. lia.
Qed.

(** The credit that the program gives is the credit of the reference. *)
Lemma credited_credit (t1 t2 : Z) :
  t1 <= t2 -> Exact.credit t1 t2 (credited (hours_between t1 t2)).
Proof.
  intros H. unfold credited, hours_between.
  rewrite (threshold (t2 - t1)) by lia.
  destruct (Z.ltb_spec 14400 (t2 - t1)) as [Hlt|Hle].
  - right. split; [now apply hours_gt_4|]. rewrite MAX_GAP_CREDIT_eq.
    split; [cbn [Exact.representable]; lia | reflexivity].
  - left. split; [now apply hours_le_4|]. apply gap_nearest. lia.
Qed.

(** The loop of the program adds up as the reference does. *)
Lemma sum_total ps :
  Forall (fun p => fst p <= snd p) ps ->
  forall acc j, 0 <= j -> good acc -> ulps acc <= cap j * hour ->
  Exact.total acc ps
    (fold_left (fun acc p => Float.add acc (credited (hours_between (fst p) (snd p))))
               ps acc).
Proof.
  induction 1 as [|p ps Hp _ IH]; intros acc j Hj Ga Ua; cbn [fold_left].
  - constructor.
  - destruct (credited_upper _ (hours_between_canon _ _ Hp)) as [Gc Uc].
    rewrite pow_credit in Uc.
    destruct (add_step acc _ j Hj Ga Ua Gc Uc) as [G' U'].
    apply (Exact.total_cons acc p (credited (hours_between (fst p) (snd p)))
             (Float.add acc (credited (hours_between (fst p) (snd p))))).
    + now apply credited_credit.
    + now apply add_nearest.
    + apply (IH _ (j + 1)); trivial. lia.
Qed.

Lemma duration_exact (ts : list Z) :
  StronglySorted Z.le ts ->
  exists t, Exact.total Float.zero (pairs ts) t
            /\ Exact.rounded2 t (Float.round2 (sum_credited ts)).
Proof.
  intros H. exists (sum_credited ts). pose proof hour_pos as Hh.
  assert (H0 : ulps Float.zero <= cap 0 * hour) by (change (0 <= 0 * hour); lia).
  destruct (sum_upper _ (sorted_pairs _ H) Float.zero 0 ltac:(lia) I H0) as [G U].
  rewrite Z.add_0_l in U.
  destruct (round2_cap _ _ (Nat2Z.is_nonneg _) G U) as [G' _].
  split.
  - exact (sum_total _ (sorted_pairs _ H) Float.zero 0 ltac:(lia) I H0).
  - now apply round2_rounded.
Qed.

(** C1. For a Complete session, the duration the code computes is the
    duration of the reference definition: take the start commit, the
    intermediate commits and the end commit in ascending order of
    timestamp (any such order), credit each gap between neighbours raw if
    it is at most 4.0 hours and as 1.0 hour if it is more, add the credits
    up and round to two places.  The reference is met in two forms: as the
    program's steps in the order of the claim, and in exact arithmetic,
    where the gap is the difference of the instants over 3600, the credit
    is chosen on that rational number, and every gap, sum and rounding to
    hundredths is a binary64 number nearest to the exact one. *)
Theorem calculate_duration_reference (s : Session) (e : Commit) (sorted : list Commit) :
  end_commit s = Some e ->
  Permutation sorted ([start_commit s] ++ intermediate_commits s ++ [e]) ->
  StronglySorted by_timestamp sorted ->
  calculate_duration s = Reference.duration sorted
  /\ Exact.duration sorted (calculate_duration s).
Proof.
  intros He P S.
  assert (E : map timestamp (sort_by_timestamp
                ([start_commit s] ++ intermediate_commits s ++ [e]))
              = map timestamp sorted).
  { apply sorted_perm_unique.
    - apply sorted_map_timestamp, sort_by_timestamp_sorted.
    - now apply sorted_map_timestamp.
    - apply Permutation_map. rewrite sort_by_timestamp_perm. now symmetry. }
  split.
  - rewrite (calculate_duration_pairs s e He), (reference_duration_times _ S).
    now rewrite E.
  - rewrite (calculate_duration_pairs s e He), E. unfold Exact.duration.
    apply duration_exact. now apply sorted_map_timestamp.
Qed.

(** ** From the log to the sessions *)

(** X18. The two steps of [main] together: whatever the output of
    [git log], every session built from the commits that
    [get_sred_commits] returns has its commits in ascending order of
    timestamp, each with the tag that the tag loop finds in its message, a
    tag of [SRED_TAGS]; the tag loop of the objective finds that tag
    again, so the objective has no white space at either end. *)
Theorem main_sessions_well_formed (fromisoformat : string -> option Z) (stdout : string)
    (commits : list Commit) (s : Session) :
  get_sred_commits fromisoformat stdout = Some commits ->
  In s (build_sessions commits) ->
  StronglySorted by_timestamp (session_commits s)
  /\ Forall (fun c => classify (message c) = Some (tag c) /\ In (tag c) SRED_TAGS)
            (session_commits s)
  /\ incl (tags_involved s) SRED_TAGS
  /\ no_outer_space (objective s).
Proof.
  intros Hget Hin.
  destruct (get_sred_commits_tagged _ _ _ Hget) as [Hsorted Ht].
  pose proof (chronological_aux _ Hsorted) as H.
  rewrite Forall_forall in H. destruct (H s Hin) as [Hs Hi].
  rewrite Forall_forall in Ht.
  assert (Hc : forall c, In c (session_commits s) ->
                 classify (message c) = Some (tag c) /\ In (tag c) SRED_TAGS).
  { intros c Hc. pose proof (Ht c (Hi c Hc)) as E. split; trivial.
    now destruct (classify_in _ _ E). }
  split; [exact Hs|]. split; [now apply Forall_forall|]. split.
  - intros t Hin'. apply tags_involved_in in Hin'. destruct Hin' as (c & Hc' & <-).
    now apply Hc.
  - unfold objective.
    assert (Hst : In (start_commit s) (session_commits s)) by (now left).
    destruct (Hc _ Hst) as [-> _]. apply cut_no_outer_space, strip_no_outer_space.
Qed.

(** ** The further theorems at sample inputs *)

Lemma bracket_gives_one_session_witness :
  run ([] ++ Sample.A :: [Sample.B] ++ [Sample.C])
  = mkBuilder [mkSession "SESSION-001" Sample.A (Some Sample.C) [Sample.B]] None 2.
Proof.
  exact (bracket_gives_one_session [] Sample.A [Sample.B] Sample.C
           eq_refl eq_refl eq_refl eq_refl).
Defined.

Lemma sorted_stream_sessions_chronological_witness :
  StronglySorted by_timestamp [Sample.A; Sample.B; Sample.C]
  /\ In Sample.closed (build_sessions [Sample.A; Sample.B; Sample.C])
  /\ sort_by_timestamp (session_commits Sample.closed) = session_commits Sample.closed.
Proof.
  assert (H1 : StronglySorted by_timestamp [Sample.A; Sample.B; Sample.C]).
  { repeat constructor; unfold by_timestamp; simpl; lia. }
  assert (H2 : In Sample.closed (build_sessions [Sample.A; Sample.B; Sample.C])).
  { left. reflexivity. }
  split; [exact H1|]. split; [exact H2|].
  exact (proj1 (proj2 (sorted_stream_sessions_chronological _ _ H1 H2))).
Defined.

Lemma classify_any_matching_tag_witness :
  In "test:" SRED_TAGS
  /\ Str.startswith (Str.lower "TEST: p95 latency") "test:" = true
  /\ classify "TEST: p95 latency" = Some "test:".
Proof.
  assert (H1 : In "test:" SRED_TAGS) by (simpl; tauto).
  assert (H2 : Str.startswith (Str.lower "TEST: p95 latency") "test:" = true)
    by reflexivity.
  split; [exact H1|]. split; [exact H2|].
  exact (classify_any_matching_tag "TEST: p95 latency" "test:" H1 H2).
Defined.

Lemma calculate_duration_permutation_witness :
  is_complete Sample.closed = true
  /\ is_complete Samples.swapped = true
  /\ Permutation (map timestamp (session_commits Sample.closed))
                 (map timestamp (session_commits Samples.swapped))
  /\ calculate_duration Sample.closed = calculate_duration Samples.swapped.
Proof.
  assert (H1 : is_complete Sample.closed = true) by reflexivity.
  assert (H2 : is_complete Samples.swapped = true) by reflexivity.
  assert (H3 : Permutation (map timestamp (session_commits Sample.closed))
                           (map timestamp (session_commits Samples.swapped))).
  { exact (Permutation_rev (map timestamp (session_commits Sample.closed))). }
  split; [exact H1|]. split; [exact H2|]. split; [exact H3|].
  exact (calculate_duration_permutation Sample.closed Samples.swapped H1 H2 H3).
Defined.

Lemma objective_is_stripped_body_witness :
  classify (message (start_commit Samples.first_session)) = Some "exp:"
  /\ Str.drop (String.length "exp:") (message (start_commit Samples.first_session))
     = ("  " ++ "EXP-001 cache warmup" ++ " ")%string
  /\ objective Samples.first_session = "EXP-001 cache warmup".
Proof.
  assert (H1 : classify (message (start_commit Samples.first_session)) = Some "exp:")
    by reflexivity.
  assert (H2 : Str.drop (String.length "exp:")
                 (message (start_commit Samples.first_session))
               = ("  " ++ "EXP-001 cache warmup" ++ " ")%string) by reflexivity.
  assert (H3 : no_outer_space "EXP-001 cache warmup").
  { split; intros c Hc; simpl in Hc; injection Hc as <-; reflexivity. }
  split; [exact H1|]. split; [exact H2|].
  exact (objective_is_stripped_body Samples.first_session "exp:" "  "
           "EXP-001 cache warmup" " " H1 H2 eq_refl eq_refl H3).
Defined.

Lemma outcome_of_built_session_witness :
  In Sample.closed (build_sessions [Sample.A; Sample.B; Sample.C])
  /\ (is_complete Sample.closed = false /\ outcome Sample.closed = Text.codes "IN_PROGRESS"
      \/ is_complete Sample.closed = true
         /\ exists e w, end_commit Sample.closed = Some e
              /\ In w ["SUCCEED"; "PIVOT"; "STOP"; "FAIL"]
              /\ outcome Sample.closed = Text.codes w
              /\ Text.codes (tag e) = Text.codes (Str.lower w ++ ":")).
Proof.
  assert (H1 : In Sample.closed (build_sessions [Sample.A; Sample.B; Sample.C])).
  { left. reflexivity. }
  split; [exact H1|].
  exact (outcome_of_built_session [Sample.A; Sample.B; Sample.C] Sample.closed H1).
Defined.

Lemma gap_protection_threshold_witness :
  timestamp Sample.D <= timestamp Sample.E
  /\ credited (gap_hours Sample.D Sample.E) = MAX_GAP_CREDIT.
Proof.
  assert (H1 : timestamp Sample.D <= timestamp Sample.E) by (simpl; lia).
  split; [exact H1|].
  exact (proj2 (gap_protection_threshold Sample.D Sample.E H1)).
Defined.

Lemma long_gaps_count_one_hour_each_witness :
  end_commit Samples.overnight = Some Sample.E
  /\ calculate_duration Samples.overnight = Float.of_Z 1.
Proof.
  assert (H1 : end_commit Samples.overnight = Some Sample.E) by reflexivity.
  assert (H2 : Forall (fun p => 14400 < snd p - fst p)
                 (pairs (map timestamp (sort_by_timestamp (session_commits Samples.overnight))))).
  { repeat constructor. }
  assert (H3 : Z.of_nat (List.length (intermediate_commits Samples.overnight)) + 1 < 2 ^ 53)
    by reflexivity.
  split; [exact H1|].
  exact (long_gaps_count_one_hour_each Samples.overnight Sample.E H1 H2 H3).
Defined.

Lemma main_sessions_well_formed_witness :
  get_sred_commits Samples.dates Samples.stdout
    = Some [start_commit Samples.logged_session;
            mkCommit "c3d4e5f6" 1736420400 "Succeed: warmup helps" "succeed:"]
  /\ In Samples.logged_session
        (build_sessions [start_commit Samples.logged_session;
                         mkCommit "c3d4e5f6" 1736420400 "Succeed: warmup helps" "succeed:"])
  /\ StronglySorted by_timestamp (session_commits Samples.logged_session)
  /\ incl (tags_involved Samples.logged_session) SRED_TAGS.
Proof.
  assert (H0 : get_sred_commits Samples.dates Samples.stdout
               = Some [start_commit Samples.logged_session;
                       mkCommit "c3d4e5f6" 1736420400 "Succeed: warmup helps" "succeed:"])
    by reflexivity.
  assert (H1 : In Samples.logged_session
                 (build_sessions [start_commit Samples.logged_session;
                                  mkCommit "c3d4e5f6" 1736420400 "Succeed: warmup helps"
                                           "succeed:"])).
  { left. reflexivity. }
  destruct (main_sessions_well_formed Samples.dates Samples.stdout _
              Samples.logged_session H0 H1) as (Hs & _ & Ht & _).
  split; [exact H0|]. split; [exact H1|]. split; [exact Hs | exact Ht].
Defined.

Lemma cut_at_idle_point_witness :
  current_session (run [Sample.A; Sample.B; Sample.C]) = None
  /\ map content (build_sessions ([Sample.A; Sample.B; Sample.C] ++ [Sample.D; Sample.E]))
     = map content (build_sessions [Sample.A; Sample.B; Sample.C])
       ++ map content (build_sessions [Sample.D; Sample.E]).
Proof.
  assert (H1 : current_session (run [Sample.A; Sample.B; Sample.C]) = None) by reflexivity.
  split; [exact H1|].
  exact (proj1 (cut_at_idle_point [Sample.A; Sample.B; Sample.C]
                  [Sample.D; Sample.E] H1)).
Defined.

Lemma calculate_duration_reference_witness :
  end_commit Sample.closed = Some Sample.C
  /\ Permutation [Sample.A; Sample.B; Sample.C]
       ([start_commit Sample.closed] ++ intermediate_commits Sample.closed ++ [Sample.C])
  /\ StronglySorted by_timestamp [Sample.A; Sample.B; Sample.C]
  /\ calculate_duration Sample.closed = Reference.duration [Sample.A; Sample.B; Sample.C]
  /\ Exact.duration [Sample.A; Sample.B; Sample.C] (calculate_duration Sample.closed).
Proof.
  assert (H1 : end_commit Sample.closed = Some Sample.C) by reflexivity.
  assert (H2 : Permutation [Sample.A; Sample.B; Sample.C]
                 ([start_commit Sample.closed] ++ intermediate_commits Sample.closed
                    ++ [Sample.C])) by apply Permutation_refl.
  assert (H3 : StronglySorted by_timestamp [Sample.A; Sample.B; Sample.C]).
  { repeat constructor; unfold by_timestamp; simpl; lia. }
  split; [exact H1|]. split; [exact H2|]. split; [exact H3|].
  exact (calculate_duration_reference Sample.closed Sample.C _ H1 H2 H3).
Defined.
